(** * agentflow-distribution: job distribution, execution tracking, agent scoring

    A shallow embedding of three NestJS services and of the Prisma schema
    they run against:

    - [JobDistributorService]   (job-distributor.service.ts)
    - [ExecutionTrackerService] (execution-tracker.service.ts)
    - [AgentMatcherService]     (agent-matcher.service.ts)

    and of the code around them that reads or writes the same tables or
    calls the agents: [QueueService.processTask], the status callback of
    [ExecuterController], and the retry loop of
    [AgentCommunicationService].

    Conventions of the embedding.

    - The database is a record of tables.  Tables with a single-column
      primary key are finite maps from the key; [JobDistributionAgent]
      rows, whose order is what [findMany]/[include] iterate over, are a
      list.  The surrogate [id] columns of [JobDistributionAgent],
      [ExecutionLog] and [AgentPerformance] are never read by the services
      and are left out.
    - [async] methods are computations in a state-and-error monad over a
      [World]: the store, the wall clock read by [new Date()] and the
      supply of identifiers drawn by [cuid()].  A rejected promise is an
      [Err] result; [$transaction] restores the store on [Err].
    - Requests run one after the other; the interleaving of concurrent
      requests is not modelled.  The one place where a transaction callback
      calls the plain client, in [handleDistributionTimeout], is modelled
      with both stores: the one the transaction works on and the committed
      one the plain client sees.
    - Integer columns and millisecond timestamps are [Z].  The columns are
      [Int] (32 bits); a value that a caller supplies ([progress],
      [executionTimeMs]) is checked against that range where Prisma checks
      it, and counters the services compute themselves are not.
    - JavaScript numbers that hold fractions are rationals ([Q]).
      [calculateResultScore], whose values the [best_scored] strategy sorts
      by, rounds every operation to the nearest double ([binary64]); the
      factors of [calculateAgentScore] and the averages of
      [AgentPerformance] are exact, and no statement here depends on how
      two of them that lie within rounding of each other compare.
    - A JavaScript string is the Rocq string of its UTF-8 bytes: equality
      is equality of the bytes, [length] counts UTF-16 code units
      ([length_utf16]), and [toLowerCase] folds the ASCII letters, which
      is what the method does on ASCII text; statements that depend on the
      folding are stated for ASCII text.
    - The network is an oracle: a [Wire] says what the k-th HTTP request
      settles to and records the requests sent and the delays waited. *)

From Stdlib Require Import ZArith QArith Qminmax Qpower Qabs Qround Lia Lqa
  String Ascii List Sorted.
From stdpp Require Import gmap strings pretty list fin_maps.
Import ListNotations.

(** ** Prisma schema *)

Inductive JobStatus :=
  | OPEN | DISTRIBUTED | IN_PROGRESS | JOB_COMPLETED | JOB_CANCELLED | EXPIRED.

Inductive AgentWorkStatus :=
  | IDLE | ASSIGNED | WORKING | COMPLETED | FAILED | CANCELLED | TIMEOUT.

Definition JobStatus_eqb (a b : JobStatus) : bool :=
  match a, b with
  | OPEN, OPEN | DISTRIBUTED, DISTRIBUTED | IN_PROGRESS, IN_PROGRESS
  | JOB_COMPLETED, JOB_COMPLETED | JOB_CANCELLED, JOB_CANCELLED
  | EXPIRED, EXPIRED => true
  | _, _ => false
  end.

Definition AgentWorkStatus_eqb (a b : AgentWorkStatus) : bool :=
  match a, b with
  | IDLE, IDLE | ASSIGNED, ASSIGNED | WORKING, WORKING | COMPLETED, COMPLETED
  | FAILED, FAILED | CANCELLED, CANCELLED | TIMEOUT, TIMEOUT => true
  | _, _ => false
  end.

(** [workStatus: { in: [...] }] *)
Definition status_in (l : list AgentWorkStatus) (s : AgentWorkStatus) : bool :=
  existsb (AgentWorkStatus_eqb s) l.

(** interfaces/executer.interfaces.ts, [MatchCriteria] *)
Record MatchCriteria := {
  mc_tags : list string;
  mc_category : string;
  mc_skillLevel : string;
  mc_maxBudget : option Q;
  mc_autoAcceptJobs : bool;
  mc_isActive : bool
}.

Record Job := {
  job_id : string;
  jobTitle : string;
  job_category : string;
  skillLevel : string;
  job_tags : list string;
  maxBudget : option Q;
  job_status : JobStatus;
  job_updatedAt : Z
}.

Record Agent := {
  agent_id : string;
  agentName : string;
  agentAddress : string;
  agentClassification : string;
  agent_tags : list string;
  autoAcceptJobs : bool;
  isActive : bool;
  reputation : Q;
  agent_successRate : Q;
  totalJobsCompleted : Z;
  agent_updatedAt : Z
}.

Record JobDistributionRecord := {
  rec_id : string;
  rec_jobId : string;
  jobName : string;
  matchCriteria : MatchCriteria;
  totalAgents : Z;
  assignedCount : Z;
  responseCount : Z;
  rec_createdAt : Z;
  assignedAgentId : option string;
  assignedAgentName : option string
}.

Record JobDistributionAgent := {
  jobDistributionId : string;
  agentId : string;
  assignedAt : Z;
  workStatus : AgentWorkStatus;
  executionResult : option string;
  startedAt : option Z;
  completedAt : option Z;
  progress : option Z;
  errorMessage : option string;
  executionTimeMs : option Z;
  retryCount : Z
}.

Record EventData := {
  ev_progress : option Z;
  ev_errorMessage : option string;
  ev_executionTimeMs : option Z
}.

Record ExecutionLog := {
  log_jobId : string;
  log_agentId : string;
  eventType : AgentWorkStatus;
  eventData : EventData;
  log_createdAt : Z
}.

Record AgentPerformance := {
  perf_agentId : string;
  totalJobs : Z;
  completedJobs : Z;
  failedJobs : Z;
  avgExecutionTime : Q;
  successRate : Q;
  lastUpdated : Z
}.

(** ** The store and the world around it *)

Record DB := {
  db_job : gmap string Job;
  db_agent : gmap string Agent;
  db_jobDistributionRecord : gmap string JobDistributionRecord;
  db_jobDistributionAgent : list JobDistributionAgent;
  db_agentPerformance : gmap string AgentPerformance;
  db_executionLog : list ExecutionLog
}.

Record World := {
  store : DB;
  wallclock : nat → Z;   (* the k-th evaluation of [new Date()] *)
  ticks : nat;
  cuid : nat → string;   (* the k-th identifier drawn by [@default(cuid())] *)
  minted : nat
}.

Definition set_store (d : DB) (w : World) : World :=
  {| store := d; wallclock := wallclock w; ticks := ticks w;
     cuid := cuid w; minted := minted w |}.

Definition set_db_job (t : gmap string Job) (d : DB) : DB :=
  {| db_job := t; db_agent := db_agent d;
     db_jobDistributionRecord := db_jobDistributionRecord d;
     db_jobDistributionAgent := db_jobDistributionAgent d;
     db_agentPerformance := db_agentPerformance d;
     db_executionLog := db_executionLog d |}.

Definition set_db_agent (t : gmap string Agent) (d : DB) : DB :=
  {| db_job := db_job d; db_agent := t;
     db_jobDistributionRecord := db_jobDistributionRecord d;
     db_jobDistributionAgent := db_jobDistributionAgent d;
     db_agentPerformance := db_agentPerformance d;
     db_executionLog := db_executionLog d |}.

Definition set_db_jobDistributionRecord
    (t : gmap string JobDistributionRecord) (d : DB) : DB :=
  {| db_job := db_job d; db_agent := db_agent d;
     db_jobDistributionRecord := t;
     db_jobDistributionAgent := db_jobDistributionAgent d;
     db_agentPerformance := db_agentPerformance d;
     db_executionLog := db_executionLog d |}.

Definition set_db_jobDistributionAgent
    (t : list JobDistributionAgent) (d : DB) : DB :=
  {| db_job := db_job d; db_agent := db_agent d;
     db_jobDistributionRecord := db_jobDistributionRecord d;
     db_jobDistributionAgent := t;
     db_agentPerformance := db_agentPerformance d;
     db_executionLog := db_executionLog d |}.

Definition set_db_agentPerformance
    (t : gmap string AgentPerformance) (d : DB) : DB :=
  {| db_job := db_job d; db_agent := db_agent d;
     db_jobDistributionRecord := db_jobDistributionRecord d;
     db_jobDistributionAgent := db_jobDistributionAgent d;
     db_agentPerformance := t;
     db_executionLog := db_executionLog d |}.

Definition set_db_executionLog (t : list ExecutionLog) (d : DB) : DB :=
  {| db_job := db_job d; db_agent := db_agent d;
     db_jobDistributionRecord := db_jobDistributionRecord d;
     db_jobDistributionAgent := db_jobDistributionAgent d;
     db_agentPerformance := db_agentPerformance d;
     db_executionLog := t |}.

(** ** Promises: state and errors *)

Inductive Error :=
  | JobNotFound (jobId : string)                (* Error(`Job ${jobId} not found`) *)
  | DistributionNotFound (distributionId : string)
  | UniqueConstraintFailed                      (* Prisma P2002 *)
  | ForeignKeyConstraintFailed                  (* Prisma P2003 *)
  | RecordToUpdateNotFound                      (* Prisma P2025 *)
  | ValueOutOfRange                             (* Prisma P2020 *)
  | TransactionExpired                          (* Prisma P2028 *)
  | TypeError.                                  (* property read on null *)

Inductive Result (A : Type) :=
  | Ok (a : A)
  | Err (e : Error).
Arguments Ok {A} a.
Arguments Err {A} e.

Definition M (A : Type) : Type := World → World * Result A.

Definition ret {A} (a : A) : M A := fun w => (w, Ok a).

Definition throw {A} (e : Error) : M A := fun w => (w, Err e).

Definition bind {A B} (m : M A) (k : A → M B) : M B :=
  fun w =>
    match m w with
    | (w', Ok a) => k a w'
    | (w', Err e) => (w', Err e)
    end.

Notation "'let*' x ':=' m 'in' k" := (bind m (fun x => k))
  (at level 10, x name, m at level 200, k at level 200).

(** [try { m } catch (error) { h error }] *)
Definition try_catch {A} (m : M A) (h : Error → M A) : M A :=
  fun w =>
    match m w with
    | (w', Ok a) => (w', Ok a)
    | (w', Err e) => h e w'
    end.

(** [prisma.$transaction(async (tx) => m)]: the writes of [m] are kept when
    it resolves and undone when it rejects. *)
Definition transaction {A} (m : M A) : M A :=
  fun w =>
    match m w with
    | (w', Ok a) => (w', Ok a)
    | (w', Err e) => (set_store (store w) w', Err e)
    end.

Definition query {A} (f : DB → A) : M A := fun w => (w, Ok (f (store w))).

Definition write (f : DB → DB) : M unit :=
  fun w => (set_store (f (store w)) w, Ok tt).

(** [new Date()] *)
Definition new_Date : M Z :=
  fun w =>
    ({| store := store w; wallclock := wallclock w; ticks := S (ticks w);
        cuid := cuid w; minted := minted w |},
     Ok (wallclock w (ticks w))).

Definition draw_cuid : M string :=
  fun w =>
    ({| store := store w; wallclock := wallclock w; ticks := ticks w;
        cuid := cuid w; minted := S (minted w) |},
     Ok (cuid w (minted w))).

Fixpoint traverse {A B} (f : A → M B) (l : list A) : M (list B) :=
  match l with
  | [] => ret []
  | x :: l' => let* y := f x in let* ys := traverse f l' in ret (y :: ys)
  end.

(** ** JavaScript helpers *)

(** [x || undefined] on a nullable number, string *)
Definition truthyZ (x : option Z) : option Z :=
  match x with
  | Some z => if (z =? 0)%Z then None else Some z
  | None => None
  end.

Definition truthyQ (x : option Q) : option Q :=
  match x with
  | Some q => if Qeq_bool q 0 then None else Some q
  | None => None
  end.

Definition truthyS (x : option string) : option string :=
  match x with
  | Some s => if String.eqb s EmptyString then None else Some s
  | None => None
  end.

(** Prisma's [Int] is a 32-bit signed integer. *)
Definition is_int4 (z : Z) : bool :=
  ((-2147483648 <=? z) && (z <=? 2147483647))%Z.

Definition fits_int4 (x : option Z) : bool :=
  match x with
  | Some z => is_int4 z
  | None => true
  end.

(** [String.prototype.length]: the number of UTF-16 code units.  A code
    point of one to three UTF-8 bytes is one unit, one of four bytes is a
    surrogate pair; continuation bytes add nothing. *)
Definition code_units (c : ascii) : nat :=
  let n := nat_of_ascii c in
  if (n <? 128)%nat then 1%nat
  else if (n <? 192)%nat then 0%nat
  else if (n <? 240)%nat then 1%nat
  else 2%nat.

Fixpoint length_utf16 (s : string) : nat :=
  match s with
  | EmptyString => 0%nat
  | String c s' => (code_units c + length_utf16 s')%nat
  end.

(** *** Doubles

    A finite double is the rational it denotes.  An arithmetic operation
    on doubles is the exact operation followed by rounding to the nearest
    double, ties to even. *)

(** Nearest integer, ties to the even one *)
Definition round_half_even (y : Q) : Z :=
  let n := Qfloor y in
  match (y - inject_Z n ?= 1 # 2)%Q with
  | Lt => n
  | Gt => (n + 1)%Z
  | Eq => if Z.even n then n else (n + 1)%Z
  end.

(** Exponent of the last place of the doubles around [a > 0]: 52 below
    the binary exponent of [a], and -1074 throughout the subnormal range *)
Definition ulp_exponent (a : Q) : Z :=
  let k := (Z.log2 (Qnum a) - Z.log2 (Zpos (Qden a)))%Z in
  let k := if Qle_bool (2 ^ k) a then k else (k - 1)%Z in
  Z.max (k - 52) (-1074).

Definition nearest_double (a : Q) : Q :=
  let e := ulp_exponent a in
  (inject_Z (round_half_even (a / 2 ^ e)) * 2 ^ e)%Q.

(** The double nearest to [x].  Overflow to [Infinity], beyond 2^1024, is
    not modelled: no number of this program comes near it. *)
Definition binary64 (x : Q) : Q :=
  let m := Qred (nearest_double (Qabs (Qred x))) in
  if Qle_bool 0 x then m else (- m)%Q.

(** [x + y], [x - y], [x / y] on doubles *)
Definition fadd (x y : Q) : Q := binary64 (x + y).
Definition fsub (x y : Q) : Q := binary64 (x - y).
Definition fdiv (x y : Q) : Q := binary64 (x / y).

(** sign test on the number a comparator returns *)
Definition Qnegative (q : Q) : bool := (Qnum q <? 0)%Z.

(** [Array.prototype.sort(cmp)]: a stable sort.  For a comparator that is
    a total preorder every stable sort returns the same array; insertion
    from the right is the one written here. *)
Fixpoint sort_insert {A} (cmp : A → A → Q) (x : A) (l : list A) : list A :=
  match l with
  | [] => [x]
  | y :: l' =>
      if Qnegative (cmp y x) then y :: sort_insert cmp x l' else x :: l
  end.

Fixpoint Array_sort {A} (cmp : A → A → Q) (l : list A) : list A :=
  match l with
  | [] => []
  | x :: l' => sort_insert cmp x (Array_sort cmp l')
  end.

(** ** Prisma client *)

Definition same_key (d a : string) (r : JobDistributionAgent) : bool :=
  String.eqb (jobDistributionId r) d && String.eqb (agentId r) a.

Definition in_distribution (d : string) (r : JobDistributionAgent) : bool :=
  String.eqb (jobDistributionId r) d.

Definition set_job_status (s : JobStatus) (j : Job) : Job :=
  {| job_id := job_id j; jobTitle := jobTitle j; job_category := job_category j;
     skillLevel := skillLevel j; job_tags := job_tags j;
     maxBudget := maxBudget j; job_status := s;
     job_updatedAt := job_updatedAt j |}.

Definition touch_job (t : Z) (j : Job) : Job :=
  {| job_id := job_id j; jobTitle := jobTitle j; job_category := job_category j;
     skillLevel := skillLevel j; job_tags := job_tags j;
     maxBudget := maxBudget j; job_status := job_status j;
     job_updatedAt := t |}.

Definition job_findUnique (id : string) : M (option Job) :=
  query (fun d => db_job d !! id).

(** [job.update({ where: { id }, data })]; the [@updatedAt] column is
    stamped on every update. *)
Definition job_update (id : string) (data : Job → Job) : M Job :=
  let* now := new_Date in
  let* found := query (fun d => db_job d !! id) in
  match found with
  | None => throw RecordToUpdateNotFound
  | Some j =>
      let j' := touch_job now (data j) in
      let* _ := write (fun d => set_db_job (<[id := j']> (db_job d)) d) in
      ret j'
  end.

Definition jobDistributionRecord_findUnique (id : string)
  : M (option JobDistributionRecord) :=
  query (fun d => db_jobDistributionRecord d !! id).

Definition has_record_for_job (jobId : string)
    (t : gmap string JobDistributionRecord) : bool :=
  existsb (fun kv => String.eqb (rec_jobId (snd kv)) jobId) (map_to_list t).

(** [jobDistributionRecord.create]: [id] and [createdAt] take their
    defaults; [id] is the primary key, [jobId] is [@unique] and references
    [Job]. *)
Definition jobDistributionRecord_create
    (jobId name : string) (mc : MatchCriteria) (total assigned responded : Z)
  : M JobDistributionRecord :=
  let* id := draw_cuid in
  let* now := new_Date in
  let* d := query (fun d => d) in
  match db_jobDistributionRecord d !! id with
  | Some _ => throw UniqueConstraintFailed
  | None =>
      if has_record_for_job jobId (db_jobDistributionRecord d)
      then throw UniqueConstraintFailed
      else
        match db_job d !! jobId with
        | None => throw ForeignKeyConstraintFailed
        | Some _ =>
            let r := {| rec_id := id; rec_jobId := jobId; jobName := name;
                        matchCriteria := mc; totalAgents := total;
                        assignedCount := assigned; responseCount := responded;
                        rec_createdAt := now; assignedAgentId := None;
                        assignedAgentName := None |} in
            let* _ := write (fun d =>
                  set_db_jobDistributionRecord
                    (<[id := r]> (db_jobDistributionRecord d)) d) in
            ret r
        end
  end.

Definition set_responseCount (n : Z) (r : JobDistributionRecord)
  : JobDistributionRecord :=
  {| rec_id := rec_id r; rec_jobId := rec_jobId r; jobName := jobName r;
     matchCriteria := matchCriteria r; totalAgents := totalAgents r;
     assignedCount := assignedCount r; responseCount := n;
     rec_createdAt := rec_createdAt r; assignedAgentId := assignedAgentId r;
     assignedAgentName := assignedAgentName r |}.

Definition set_assignedAgent (id name : string) (r : JobDistributionRecord)
  : JobDistributionRecord :=
  {| rec_id := rec_id r; rec_jobId := rec_jobId r; jobName := jobName r;
     matchCriteria := matchCriteria r; totalAgents := totalAgents r;
     assignedCount := assignedCount r; responseCount := responseCount r;
     rec_createdAt := rec_createdAt r; assignedAgentId := Some id;
     assignedAgentName := Some name |}.

Definition jobDistributionRecord_update (id : string)
    (data : JobDistributionRecord → JobDistributionRecord)
  : M JobDistributionRecord :=
  let* found := query (fun d => db_jobDistributionRecord d !! id) in
  match found with
  | None => throw RecordToUpdateNotFound
  | Some r =>
      let r' := data r in
      let* _ := write (fun d =>
                  set_db_jobDistributionRecord
                    (<[id := r']> (db_jobDistributionRecord d)) d) in
      ret r'
  end.

(** One row of [createMany]: both relations must resolve and the pair
    [(jobDistributionId, agentId)] is [@@unique]. *)
Definition jobDistributionAgent_insert (r : JobDistributionAgent) : M unit :=
  let* d := query (fun d => d) in
  match db_jobDistributionRecord d !! jobDistributionId r,
        db_agent d !! agentId r with
  | Some _, Some _ =>
      if existsb (same_key (jobDistributionId r) (agentId r))
                 (db_jobDistributionAgent d)
      then throw UniqueConstraintFailed
      else write (fun d =>
             set_db_jobDistributionAgent (db_jobDistributionAgent d ++ [r]) d)
  | _, _ => throw ForeignKeyConstraintFailed
  end.

Fixpoint jobDistributionAgent_createMany (data : list JobDistributionAgent)
  : M unit :=
  match data with
  | [] => ret tt
  | r :: data' =>
      let* _ := jobDistributionAgent_insert r in
      jobDistributionAgent_createMany data'
  end.

(** [updateMany({ where, data })] resolves to the number of rows changed. *)
Definition jobDistributionAgent_updateMany
    (where_ : JobDistributionAgent → bool)
    (data : JobDistributionAgent → JobDistributionAgent) : M Z :=
  let* rows := query db_jobDistributionAgent in
  let* _ := write (fun d =>
              set_db_jobDistributionAgent
                (map (fun r => if where_ r then data r else r)
                     (db_jobDistributionAgent d)) d) in
  ret (Z.of_nat (length (List.filter where_ rows))).

(** [update({ where: { jobDistributionId_agentId: {...} }, data })];
    [ints] are the values that [data] carries for [Int] columns.  The row
    is looked up first; a value outside the 32 bits of the column is then
    rejected and nothing is written. *)
Definition jobDistributionAgent_update (d a : string) (ints : list (option Z))
    (data : JobDistributionAgent → JobDistributionAgent) : M unit :=
  let* rows := query db_jobDistributionAgent in
  if existsb (same_key d a) rows
  then
    if forallb fits_int4 ints
    then write (fun s =>
           set_db_jobDistributionAgent
             (map (fun r => if same_key d a r then data r else r)
                  (db_jobDistributionAgent s)) s)
    else throw ValueOutOfRange
  else throw RecordToUpdateNotFound.

Definition jobDistributionAgent_count
    (where_ : JobDistributionAgent → bool) : M Z :=
  query (fun d => Z.of_nat (length (List.filter where_ (db_jobDistributionAgent d)))).

Definition jobDistributionAgent_findFirst
    (where_ : JobDistributionAgent → bool) : M (option JobDistributionAgent) :=
  query (fun d => List.find where_ (db_jobDistributionAgent d)).

(** ** interfaces/executer.interfaces.ts *)

Record AgentExecutionResult := {
  aer_agentId : string;
  aer_agentName : string;
  aer_distributionId : string;
  aer_workStatus : AgentWorkStatus;
  aer_executionResult : option string;
  aer_executionTimeMs : option Z;
  aer_startedAt : option Z;
  aer_completedAt : option Z;
  aer_errorMessage : option string
}.

Record DistributionDetail := {
  dd_id : string;
  dd_jobId : string;
  dd_jobName : string;
  dd_totalAgents : Z;
  dd_assignedCount : Z;
  dd_responseCount : Z;
  dd_assignedAgentId : option string;
  dd_assignedAgentName : option string;
  dd_createdAt : Z;
  agentExecutions : list AgentExecutionResult
}.

Record ExecutionStatusUpdate := {
  esu_distributionId : string;
  esu_agentId : string;
  esu_workStatus : AgentWorkStatus;
  esu_progress : option Z;
  esu_executionResult : option string;
  esu_errorMessage : option string;
  esu_executionTimeMs : option Z
}.

Inductive Strategy := first_completed | best_scored.

(** ** JobDistributorService *)

Definition new_assignment (distributionId agent : string) (now : Z)
  : JobDistributionAgent :=
  {| jobDistributionId := distributionId; agentId := agent;
     assignedAt := now; workStatus := ASSIGNED; executionResult := None;
     startedAt := None; completedAt := None; progress := None;
     errorMessage := None; executionTimeMs := None; retryCount := 0 |}.

Definition createDistributionRecord (jobId : string) (agents : list Agent)
  : M JobDistributionRecord :=
  let* job := job_findUnique jobId in
  match job with
  | None => throw (JobNotFound jobId)
  | Some job =>
      let matchCriteria :=
        {| mc_tags := job_tags job; mc_category := job_category job;
           mc_skillLevel := skillLevel job;
           mc_maxBudget := truthyQ (maxBudget job);
           mc_autoAcceptJobs := true; mc_isActive := true |} in
      transaction (
        let* record :=
          jobDistributionRecord_create jobId (jobTitle job) matchCriteria
            (Z.of_nat (length agents)) (Z.of_nat (length agents)) 0 in
        let* data :=
          traverse (fun agent =>
                  let* now := new_Date in
                  ret (new_assignment (rec_id record) (agent_id agent) now))
               agents in
        let* _ := jobDistributionAgent_createMany data in
        let* _ := job_update jobId (set_job_status DISTRIBUTED) in
        ret record)
  end.

(** The object literal built for one assignment of the [include]d
    relation *)
Definition toAgentExecutionResult (agent : Agent) (r : JobDistributionAgent)
  : AgentExecutionResult :=
  {| aer_agentId := agentId r;
     aer_agentName := agentName agent;
     aer_distributionId := jobDistributionId r;
     aer_workStatus := workStatus r;
     aer_executionResult := truthyS (executionResult r);
     aer_executionTimeMs := truthyZ (executionTimeMs r);
     aer_startedAt := startedAt r;
     aer_completedAt := completedAt r;
     aer_errorMessage := truthyS (errorMessage r) |}.

(** Reading [assignment.agent.agentName] needs the related agent. *)
Definition toExecution (r : JobDistributionAgent) : M AgentExecutionResult :=
  let* agent := query (fun d => db_agent d !! agentId r) in
  match agent with
  | None => throw TypeError
  | Some agent => ret (toAgentExecutionResult agent r)
  end.

Definition getDistributionDetail (distributionId : string)
  : M (option DistributionDetail) :=
  let* record := jobDistributionRecord_findUnique distributionId in
  match record with
  | None => ret None
  | Some record =>
      let* assignedAgents :=
        query (fun d => List.filter (in_distribution distributionId)
                                    (db_jobDistributionAgent d)) in
      let* agentExecutions := traverse toExecution assignedAgents in
      ret (Some {| dd_id := rec_id record; dd_jobId := rec_jobId record;
                   dd_jobName := jobName record;
                   dd_totalAgents := totalAgents record;
                   dd_assignedCount := assignedCount record;
                   dd_responseCount := responseCount record;
                   dd_assignedAgentId := truthyS (assignedAgentId record);
                   dd_assignedAgentName := truthyS (assignedAgentName record);
                   dd_createdAt := rec_createdAt record;
                   agentExecutions := agentExecutions |})
  end.

Definition updateResponseCount (distributionId : string) : M unit :=
  let* responseCount :=
    jobDistributionAgent_count
      (fun r => in_distribution distributionId r
                && status_in [WORKING; COMPLETED; FAILED] (workStatus r)) in
  let* _ := jobDistributionRecord_update distributionId
              (set_responseCount responseCount) in
  ret tt.

Definition calculateResultScore (execution : AgentExecutionResult) : Q :=
  let score := 0%Q in
  let score :=
    if AgentWorkStatus_eqb (aer_workStatus execution) COMPLETED
    then fadd score 100 else score in
  let score :=
    match truthyZ (aer_executionTimeMs execution) with
    | Some ms =>
        let timeScore := Qmax 0 (fsub 50 (fdiv (fdiv (inject_Z ms) 1000) 60)) in
        fadd score timeScore
    | None => score
    end in
  let score :=
    match truthyS (aer_executionResult execution) with
    | Some result =>
        if (0 <? length_utf16 result)%nat
        then
          let contentScore :=
            Qmin 20 (fdiv (inject_Z (Z.of_nat (length_utf16 result))) 100) in
          fadd score contentScore
        else score
    | None => score
    end in
  score.

(** [a.completedAt?.getTime() || 0] *)
Definition completedTime (e : AgentExecutionResult) : Z :=
  match truthyZ (aer_completedAt e) with
  | Some t => t
  | None => 0
  end.

(** The [switch (strategy)] of [selectBestAgentAndComplete]; [None] stands
    for the [undefined] read at index 0 of an empty array. *)
Definition selectAgent (strategy : Strategy)
    (completedAgents : list AgentExecutionResult)
  : option AgentExecutionResult :=
  match strategy with
  | first_completed =>
      head (Array_sort
              (fun a b => inject_Z (completedTime a - completedTime b))
              completedAgents)
  | best_scored =>
      head (Array_sort
              (fun a b => (calculateResultScore b - calculateResultScore a)%Q)
              completedAgents)
  end.

Definition cancel_assignment (now : Z) (r : JobDistributionAgent)
  : JobDistributionAgent :=
  {| jobDistributionId := jobDistributionId r; agentId := agentId r;
     assignedAt := assignedAt r; workStatus := CANCELLED;
     executionResult := executionResult r; startedAt := startedAt r;
     completedAt := Some now; progress := progress r;
     errorMessage := Some "Task completed by another agent"%string;
     executionTimeMs := executionTimeMs r; retryCount := retryCount r |}.

Definition timeout_assignment (now : Z) (r : JobDistributionAgent)
  : JobDistributionAgent :=
  {| jobDistributionId := jobDistributionId r; agentId := agentId r;
     assignedAt := assignedAt r; workStatus := TIMEOUT;
     executionResult := executionResult r; startedAt := startedAt r;
     completedAt := Some now; progress := progress r;
     errorMessage := Some "Task execution timeout"%string;
     executionTimeMs := executionTimeMs r; retryCount := retryCount r |}.

(** [execution.workStatus === 'COMPLETED'] *)
Definition is_completed (execution : AgentExecutionResult) : bool :=
  AgentWorkStatus_eqb (aer_workStatus execution) COMPLETED.

Definition selectBestAgentAndComplete (distributionId : string)
    (strategy : Strategy) : M unit :=
  let* record := getDistributionDetail distributionId in
  match record with
  | None => throw (DistributionNotFound distributionId)
  | Some record =>
      let completedAgents :=
        List.filter is_completed (agentExecutions record) in
      if (length completedAgents =? 0)%nat then ret tt else
      match selectAgent strategy completedAgents with
      | None => throw TypeError
      | Some selectedAgent =>
          transaction (
            let* _ := jobDistributionRecord_update distributionId
                        (set_assignedAgent (aer_agentId selectedAgent)
                                           (aer_agentName selectedAgent)) in
            let* _ := job_update (dd_jobId record)
                        (set_job_status JOB_COMPLETED) in
            let* now := new_Date in
            let* _ := jobDistributionAgent_updateMany
                        (fun r => in_distribution distributionId r
                                  && negb (String.eqb (agentId r)
                                             (aer_agentId selectedAgent))
                                  && status_in [ASSIGNED; WORKING] (workStatus r))
                        (cancel_assignment now) in
            ret tt)
      end
  end.

(** The rows the sweep updates, which its transaction holds locked until
    it ends *)
Definition is_open_in (d : string) (r : JobDistributionAgent) : bool :=
  in_distribution d r && status_in [ASSIGNED; WORKING] (workStatus r).

(** Steps 1 to 3 of the callback, all on [tx]: the record, the sweep, and
    the row that decides the branch *)
Definition sweepAssignments (distributionId : string)
  : M (JobDistributionRecord * option JobDistributionAgent) :=
  let* record := jobDistributionRecord_findUnique distributionId in
  match record with
  | None => throw (DistributionNotFound distributionId)
  | Some record =>
      let* now := new_Date in
      let* _ := jobDistributionAgent_updateMany
                  (is_open_in distributionId) (timeout_assignment now) in
      let* hasCompleted :=
        jobDistributionAgent_findFirst
          (fun r => in_distribution distributionId r
                    && AgentWorkStatus_eqb (workStatus r) COMPLETED) in
      ret (record, hasCompleted)
  end.

(** A row that the sweep holds locked and that the plain client has
    written: [committed] are the rows before the sweep, [plain] the rows
    the plain client has left. *)
Definition waits_for_sweep (d : string)
    (committed plain : list JobDistributionAgent) : bool :=
  existsb (fun rr => is_open_in d (fst rr)
                     && negb (AgentWorkStatus_eqb (workStatus (fst rr))
                                                  (workStatus (snd rr))))
          (combine committed plain).

(** The callback's own queries go through [tx].
    [this.selectBestAgentAndComplete] goes through the plain client: it
    sees the committed store, without the sweep, and runs a transaction of
    its own.  When that transaction updates a row the sweep holds locked,
    it waits until the sweep's transaction expires; the expiry undoes the
    sweep, the selection then commits, and [$transaction] rejects with
    P2028.  When it meets no such row both transactions commit. *)
Definition handleDistributionTimeout (distributionId : string) : M unit :=
  fun w =>
    let committed := store w in
    match sweepAssignments distributionId w with
    | (w1, Err e) => (set_store committed w1, Err e)
    | (w1, Ok (record, None)) =>
        match job_update (rec_jobId record) (set_job_status EXPIRED) w1 with
        | (w2, Ok _) => (w2, Ok tt)
        | (w2, Err e) => (set_store committed w2, Err e)
        end
    | (w1, Ok (record, Some _)) =>
        let in_tx := db_jobDistributionAgent (store w1) in
        match selectBestAgentAndComplete distributionId first_completed
                (set_store committed w1) with
        | (w2, Err e) => (w2, Err e)
        | (w2, Ok _) =>
            if waits_for_sweep distributionId
                 (db_jobDistributionAgent committed)
                 (db_jobDistributionAgent (store w2))
            then (w2, Err TransactionExpired)
            else (set_store (set_db_jobDistributionAgent in_tx (store w2)) w2,
                  Ok tt)
        end
    end.

(** ** ExecutionTrackerService *)

Definition executionLog_create (jobId agent : string)
    (event : AgentWorkStatus) (data : EventData) : M unit :=
  let* now := new_Date in
  write (fun d =>
    set_db_executionLog
      (db_executionLog d ++
       [{| log_jobId := jobId; log_agentId := agent; eventType := event;
           eventData := data; log_createdAt := now |}]) d).

Definition logExecutionEvent (distributionId agent : string)
    (event : AgentWorkStatus) (data : EventData) : M unit :=
  try_catch
    (let* distribution := jobDistributionRecord_findUnique distributionId in
     match distribution with
     | None => ret tt
     | Some distribution =>
         executionLog_create (rec_jobId distribution) agent event data
     end)
    (fun _ => ret tt).

Definition is_terminal (s : AgentWorkStatus) : bool :=
  status_in [COMPLETED; FAILED; CANCELLED; TIMEOUT] s.

Definition or_else {A} (x : option A) (y : option A) : option A :=
  match x with
  | Some _ => x
  | None => y
  end.

(** The spread of [updateData] over a row: a field is overwritten when the
    update carries it. *)
Definition apply_update (status : ExecutionStatusUpdate) (stamp : option Z)
    (r : JobDistributionAgent) : JobDistributionAgent :=
  {| jobDistributionId := jobDistributionId r; agentId := agentId r;
     assignedAt := assignedAt r;
     workStatus := esu_workStatus status;
     executionResult := or_else (esu_executionResult status) (executionResult r);
     startedAt := startedAt r;
     completedAt := or_else stamp (completedAt r);
     progress := or_else (esu_progress status) (progress r);
     errorMessage := or_else (esu_errorMessage status) (errorMessage r);
     executionTimeMs := or_else (esu_executionTimeMs status) (executionTimeMs r);
     retryCount := retryCount r |}.

Definition updateExecutionStatus (distributionId agent : string)
    (status : ExecutionStatusUpdate) : M unit :=
  let* stamp :=
    (if is_terminal (esu_workStatus status)
     then let* now := new_Date in ret (Some now)
     else ret None) in
  let* _ := jobDistributionAgent_update distributionId agent
              [esu_progress status; esu_executionTimeMs status]
              (apply_update status stamp) in
  let* _ := logExecutionEvent distributionId agent (esu_workStatus status)
              {| ev_progress := esu_progress status;
                 ev_errorMessage := esu_errorMessage status;
                 ev_executionTimeMs := esu_executionTimeMs status |} in
  ret tt.

Definition start_assignment (now : Z) (r : JobDistributionAgent)
  : JobDistributionAgent :=
  {| jobDistributionId := jobDistributionId r; agentId := agentId r;
     assignedAt := assignedAt r; workStatus := WORKING;
     executionResult := executionResult r; startedAt := Some now;
     completedAt := completedAt r; progress := progress r;
     errorMessage := errorMessage r;
     executionTimeMs := executionTimeMs r; retryCount := retryCount r |}.

Definition trackAgentExecution (distributionId agent : string) : M unit :=
  let* _ := updateExecutionStatus distributionId agent
              {| esu_distributionId := distributionId; esu_agentId := agent;
                 esu_workStatus := WORKING; esu_progress := None;
                 esu_executionResult := None; esu_errorMessage := None;
                 esu_executionTimeMs := None |} in
  let* now := new_Date in
  jobDistributionAgent_update distributionId agent [] (start_assignment now).

Definition agent_update_stats (id : string) (completed : Z) (rate : Q)
  : M unit :=
  let* now := new_Date in
  let* found := query (fun d => db_agent d !! id) in
  match found with
  | None => throw RecordToUpdateNotFound
  | Some a =>
      write (fun d =>
        set_db_agent
          (<[id := {| agent_id := agent_id a; agentName := agentName a;
                      agentAddress := agentAddress a;
                      agentClassification := agentClassification a;
                      agent_tags := agent_tags a;
                      autoAcceptJobs := autoAcceptJobs a;
                      isActive := isActive a; reputation := reputation a;
                      agent_successRate := rate;
                      totalJobsCompleted := completed;
                      agent_updatedAt := now |}]> (db_agent d)) d)
  end.

(** The [data] of [agentPerformance.update] in the branch that found a
    current row *)
Definition updatedPerformance (currentPerformance : AgentPerformance)
    (isSuccess : bool) (executionTime : option Z) (now : Z) : AgentPerformance :=
  let totalJobs' := (totalJobs currentPerformance + 1)%Z in
  let completedJobs' :=
    if isSuccess then (completedJobs currentPerformance + 1)%Z
    else completedJobs currentPerformance in
  let failedJobs' :=
    if negb isSuccess then (failedJobs currentPerformance + 1)%Z
    else failedJobs currentPerformance in
  let avg :=
    match truthyZ executionTime with
    | Some ms =>
        if isSuccess
        then ((avgExecutionTime currentPerformance
               * inject_Z (completedJobs currentPerformance)
               + inject_Z ms) / inject_Z completedJobs')%Q
        else avgExecutionTime currentPerformance
    | None => avgExecutionTime currentPerformance
    end in
  let rate := (inject_Z completedJobs' / inject_Z totalJobs')%Q in
  {| perf_agentId := perf_agentId currentPerformance;
     totalJobs := totalJobs'; completedJobs := completedJobs';
     failedJobs := failedJobs'; avgExecutionTime := avg;
     successRate := rate; lastUpdated := now |}.

(** The [data] of [agentPerformance.create] in the branch that found none *)
Definition createdPerformance (agent : string) (isSuccess : bool)
    (executionTime : option Z) (now : Z) : AgentPerformance :=
  let completedJobs' := if isSuccess then 1%Z else 0%Z in
  let failedJobs' := if isSuccess then 0%Z else 1%Z in
  let avg :=
    match truthyZ executionTime with
    | Some ms => if isSuccess then inject_Z ms else 0%Q
    | None => 0%Q
    end in
  let rate := if isSuccess then 1%Q else 0%Q in
  {| perf_agentId := agent; totalJobs := 1;
     completedJobs := completedJobs'; failedJobs := failedJobs';
     avgExecutionTime := avg; successRate := rate; lastUpdated := now |}.

Definition updateAgentPerformance (agent : string) (isSuccess : bool)
    (executionTime : option Z) : M unit :=
  try_catch
    (let* currentPerformance := query (fun d => db_agentPerformance d !! agent) in
     match currentPerformance with
     | Some currentPerformance =>
         let* now := new_Date in
         let p := updatedPerformance currentPerformance isSuccess
                    executionTime now in
         let* _ := write (fun d =>
                     set_db_agentPerformance
                       (<[agent := p]> (db_agentPerformance d)) d) in
         agent_update_stats agent (completedJobs p) (successRate p)
     | None =>
         let* now := new_Date in
         let p := createdPerformance agent isSuccess executionTime now in
         let* _ := write (fun d =>
                     set_db_agentPerformance
                       (<[agent := p]> (db_agentPerformance d)) d) in
         agent_update_stats agent (completedJobs p) (successRate p)
     end)
    (fun _ => ret tt).

Definition handleExecutionCompleted (distributionId agent : string)
    (result : string) (executionTime : option Z) : M unit :=
  let* _ := updateExecutionStatus distributionId agent
              {| esu_distributionId := distributionId; esu_agentId := agent;
                 esu_workStatus := COMPLETED; esu_progress := None;
                 esu_executionResult := Some result; esu_errorMessage := None;
                 esu_executionTimeMs := executionTime |} in
  updateAgentPerformance agent true executionTime.

Definition handleExecutionFailed (distributionId agent : string)
    (message : string) (executionTime : option Z) : M unit :=
  let* _ := updateExecutionStatus distributionId agent
              {| esu_distributionId := distributionId; esu_agentId := agent;
                 esu_workStatus := FAILED; esu_progress := None;
                 esu_executionResult := None; esu_errorMessage := Some message;
                 esu_executionTimeMs := executionTime |} in
  updateAgentPerformance agent false executionTime.

Definition handleTimeout (distributionId agent : string) : M unit :=
  let* _ := updateExecutionStatus distributionId agent
              {| esu_distributionId := distributionId; esu_agentId := agent;
                 esu_workStatus := TIMEOUT; esu_progress := None;
                 esu_executionResult := None;
                 esu_errorMessage := Some "Task execution timeout"%string;
                 esu_executionTimeMs := None |} in
  updateAgentPerformance agent false None.

(** ** AgentMatcherService *)

Definition lower_ascii (c : ascii) : ascii :=
  let n := nat_of_ascii c in
  if ((65 <=? n) && (n <=? 90))%nat then ascii_of_nat (n + 32) else c.

(** [String.prototype.toLowerCase]: the letters A to Z are folded, which
    is all the method does to ASCII text; the bytes of other characters
    are left as they are. *)
Fixpoint toLowerCase (s : string) : string :=
  match s with
  | EmptyString => EmptyString
  | String c s' => String (lower_ascii c) (toLowerCase s')
  end.

(** [new Set(array)] keeps one copy of every element; [Set.size] is the
    length of the result. *)
Definition Set_of (l : list string) : list string := nodup String.string_dec l.

Definition Set_has (s : list string) (x : string) : bool :=
  existsb (String.eqb x) s.

Definition calculateSkillMatch (agent : Agent) (job : Job) : Q :=
  let agentTags := Set_of (agent_tags agent) in
  let jobTags := Set_of (job_tags job) in
  if (length jobTags =? 0)%nat then 1%Q else
  let intersection := Set_of (List.filter (Set_has agentTags) jobTags) in
  let matchRatio :=
    (inject_Z (Z.of_nat (length intersection))
     / inject_Z (Z.of_nat (length jobTags)))%Q in
  let agentLevel := toLowerCase (agentClassification agent) in
  let jobSkillLevel := toLowerCase (skillLevel job) in
  let skillLevelBonus :=
    if String.eqb agentLevel jobSkillLevel then (2 # 10)%Q
    else if (String.eqb agentLevel "expert"
             && String.eqb jobSkillLevel "intermediate")
            || (String.eqb agentLevel "intermediate"
                && String.eqb jobSkillLevel "beginner")
         then (1 # 10)%Q
         else 0%Q in
  Qmin (matchRatio + skillLevelBonus) 1.

(** The four-step scale of [isSkillLevelMatch] *)
Definition skillLevels : list string :=
  ["beginner"; "intermediate"; "advanced"; "expert"]%string.

(** [Array.prototype.indexOf]; [None] for -1 *)
Fixpoint indexOf (l : list string) (x : string) : option nat :=
  match l with
  | [] => None
  | y :: l' => if String.eqb y x then Some 0%nat else S <$> indexOf l' x
  end.

Definition isSkillLevelMatch (agent : Agent) (jobSkillLevel : string) : bool :=
  let agentLevel := toLowerCase (agentClassification agent) in
  let jobLevel := toLowerCase jobSkillLevel in
  if String.eqb agentLevel EmptyString || String.eqb jobLevel EmptyString
  then true
  else
    match indexOf skillLevels agentLevel, indexOf skillLevels jobLevel with
    | Some agentLevelIndex, Some jobLevelIndex =>
        (jobLevelIndex <=? agentLevelIndex)%nat
    | _, _ => true
    end.

Definition sevenDays : Z := 7 * 24 * 60 * 60 * 1000.

(** The steps of [calculateAvailabilityScore] on the number of recent
    assignments *)
Definition availabilitySteps (recentAssignments : Z) : Q :=
  if (recentAssignments =? 0)%Z then 1%Q
  else if (recentAssignments <=? 3)%Z then (8 # 10)%Q
  else if (recentAssignments <=? 6)%Z then (6 # 10)%Q
  else if (recentAssignments <=? 10)%Z then (4 # 10)%Q
  else (2 # 10)%Q.

Definition calculateAvailabilityScore (agent : string) : M Q :=
  try_catch
    (let* now := new_Date in
     let* recentAssignments :=
       jobDistributionAgent_count
         (fun r => String.eqb (agentId r) agent
                   && (now - sevenDays <=? assignedAt r)%Z) in
     ret (availabilitySteps recentAssignments))
    (fun _ => ret (5 # 10)%Q).

Record Factors := {
  f_skillMatch : Q;
  f_reputation : Q;
  f_successRate : Q;
  f_availability : Q
}.

Record AgentScore := {
  as_agentId : string;
  as_agentName : string;
  as_agentAddress : string;
  score : Q;
  factors : Factors
}.

Definition calculateAgentScore (agent : Agent) (job : Job) : M AgentScore :=
  let skillMatch := calculateSkillMatch agent job in
  let reputation' := Qmin (reputation agent / 5) 1 in
  let successRate' := agent_successRate agent in
  let* availability := calculateAvailabilityScore (agent_id agent) in
  let score :=
    (skillMatch * (35 # 100) + reputation' * (25 # 100)
     + successRate' * (25 # 100) + availability * (15 # 100))%Q in
  ret {| as_agentId := agent_id agent; as_agentName := agentName agent;
         as_agentAddress := agentAddress agent; score := score;
         factors := {| f_skillMatch := skillMatch; f_reputation := reputation';
                       f_successRate := successRate';
                       f_availability := availability |} |}.

Local Open Scope string_scope.
Local Open Scope list_scope.

(** * Specification vocabulary *)

(** Rows of one distribution *)
Definition assignments_of (d : string) (s : DB) : list JobDistributionAgent :=
  List.filter (in_distribution d) (db_jobDistributionAgent s).

(** Referential integrity of [JobDistributionAgent.jobDistribution] *)
Definition references_resolve (s : DB) : Prop :=
  Forall (fun r => is_Some (db_jobDistributionRecord s !! jobDistributionId r))
         (db_jobDistributionAgent s).

(** What a committed [createDistributionRecord] leaves in the store *)
Definition opened (jobId : string) (agents : list Agent) (job : Job)
    (s s' : DB) (record : JobDistributionRecord) : Prop :=
  db_jobDistributionRecord s !! rec_id record = None
  ∧ db_jobDistributionRecord s'
    = <[rec_id record := record]> (db_jobDistributionRecord s)
  ∧ rec_jobId record = jobId
  ∧ totalAgents record = Z.of_nat (length agents)
  ∧ assignedCount record = Z.of_nat (length agents)
  ∧ responseCount record = 0%Z
  ∧ (∃ rows,
       db_jobDistributionAgent s' = db_jobDistributionAgent s ++ rows
       ∧ Forall2 (fun a r => jobDistributionId r = rec_id record
                             ∧ agentId r = agent_id a
                             ∧ workStatus r = ASSIGNED) agents rows)
  ∧ (∃ t, db_job s'
          = <[jobId := touch_job t (set_job_status DISTRIBUTED job)]> (db_job s))
  ∧ job_status <$> db_job s' !! jobId = Some DISTRIBUTED
  ∧ jobTitle <$> db_job s' !! jobId = Some (jobTitle job)
  ∧ (∀ j, j ≠ jobId → db_job s' !! j = db_job s !! j)
  ∧ Z.of_nat (length (assignments_of (rec_id record) s')) = totalAgents record
  ∧ db_agent s' = db_agent s
  ∧ db_agentPerformance s' = db_agentPerformance s
  ∧ db_executionLog s' = db_executionLog s.

(** ** Winner selection as a function of the store *)

(** What a computation leaves: the store and the settled result *)
Definition outcome {A} (p : World * Result A) : DB * Result A :=
  (store (fst p), snd p).

Ltac run :=
  cbv beta iota zeta delta
    [bind query ret throw write new_Date draw_cuid transaction try_catch];
  cbn [store set_store wallclock ticks cuid minted fst snd outcome
       db_job db_agent db_jobDistributionRecord db_jobDistributionAgent
       db_agentPerformance db_executionLog
       set_db_job set_db_agent set_db_jobDistributionRecord
       set_db_jobDistributionAgent set_db_agentPerformance
       set_db_executionLog].

Fixpoint executions_of (agents : gmap string Agent)
    (rows : list JobDistributionAgent) : Result (list AgentExecutionResult) :=
  match rows with
  | [] => Ok []
  | r :: rows' =>
      match agents !! agentId r with
      | None => Err TypeError
      | Some agent =>
          match executions_of agents rows' with
          | Ok es => Ok (toAgentExecutionResult agent r :: es)
          | Err e => Err e
          end
      end
  end.

Definition cancel_losers (d winner : string) (now : Z)
    (rows : list JobDistributionAgent) : list JobDistributionAgent :=
  map (fun r => if in_distribution d r
                   && negb (String.eqb (agentId r) winner)
                   && status_in [ASSIGNED; WORKING] (workStatus r)
                then cancel_assignment now r else r) rows.

Definition resolved (d : string) (record : JobDistributionRecord) (job : Job)
    (winner : AgentExecutionResult) (t_job t_cancel : Z) (s : DB) : DB :=
  {| db_job := <[rec_jobId record :=
                   touch_job t_job (set_job_status JOB_COMPLETED job)]> (db_job s);
     db_agent := db_agent s;
     db_jobDistributionRecord :=
       <[d := set_assignedAgent (aer_agentId winner) (aer_agentName winner)
                record]> (db_jobDistributionRecord s);
     db_jobDistributionAgent :=
       cancel_losers d (aer_agentId winner) t_cancel (db_jobDistributionAgent s);
     db_agentPerformance := db_agentPerformance s;
     db_executionLog := db_executionLog s |}.

(** The [COMPLETED] executions of a list of rows *)
Definition completed_view (agents : gmap string Agent)
    (rows : list JobDistributionAgent) : Result (list AgentExecutionResult) :=
  match executions_of agents rows with
  | Ok executions => Ok (List.filter is_completed executions)
  | Err e => Err e
  end.

Definition select_outcome (d : string) (strategy : Strategy)
    (t_job t_cancel : Z) (s : DB) : DB * Result unit :=
  match db_jobDistributionRecord s !! d with
  | None => (s, Err (DistributionNotFound d))
  | Some record =>
      match completed_view (db_agent s) (assignments_of d s) with
      | Err e => (s, Err e)
      | Ok completedAgents =>
          if (length completedAgents =? 0)%nat then (s, Ok tt) else
          match selectAgent strategy completedAgents with
          | None => (s, Err TypeError)
          | Some winner =>
              match db_job s !! rec_jobId record with
              | None => (s, Err RecordToUpdateNotFound)
              | Some job =>
                  (resolved d record job winner t_job t_cancel s, Ok tt)
              end
          end
      end
  end.

(** ** Store invariants enforced by the schema *)

Definition assignment_key (r : JobDistributionAgent) : string * string :=
  (jobDistributionId r, agentId r).

(** [@@unique([jobDistributionId, agentId])] *)
Definition keys_unique (s : DB) : Prop :=
  NoDup (map assignment_key (db_jobDistributionAgent s)).

(** Referential integrity of [JobDistributionAgent.agent] *)
Definition agents_resolve (s : DB) : Prop :=
  Forall (fun r => is_Some (db_agent s !! agentId r))
         (db_jobDistributionAgent s).

(** ** The timeout sweep as a function of the store *)

Definition is_completed_in (d : string) (r : JobDistributionAgent) : bool :=
  in_distribution d r && AgentWorkStatus_eqb (workStatus r) COMPLETED.

Definition sweep (d : string) (now : Z) (rows : list JobDistributionAgent)
  : list JobDistributionAgent :=
  map (fun r => if is_open_in d r then timeout_assignment now r else r) rows.

Definition swept (d : string) (now : Z) (s : DB) : DB :=
  set_db_jobDistributionAgent (sweep d now (db_jobDistributionAgent s)) s.

(** The selection runs on the committed store [s]; the sweep is kept when
    the selection did not have to wait for it. *)
Definition timeout_outcome (d : string) (t_sweep t_job t_cancel : Z) (s : DB)
  : DB * Result unit :=
  match db_jobDistributionRecord s !! d with
  | None => (s, Err (DistributionNotFound d))
  | Some record =>
      if existsb (is_completed_in d) (db_jobDistributionAgent s)
      then
        match select_outcome d first_completed t_job t_cancel s with
        | (s2, Ok _) =>
            if waits_for_sweep d (db_jobDistributionAgent s)
                 (db_jobDistributionAgent s2)
            then (s2, Err TransactionExpired)
            else (set_db_jobDistributionAgent
                    (sweep d t_sweep (db_jobDistributionAgent s)) s2, Ok tt)
        | (_, Err e) => (s, Err e)
        end
      else
        match db_job s !! rec_jobId record with
        | None => (s, Err RecordToUpdateNotFound)
        | Some job =>
            (set_db_job
               (<[rec_jobId record :=
                    touch_job t_job (set_job_status EXPIRED job)]> (db_job s))
               (swept d t_sweep s), Ok tt)
        end
  end.

(** An open row of the distribution that belongs to another agent than
    [winner]: what the selection of [winner] cancels *)
Definition is_loser_in (d winner : string) (r : JobDistributionAgent) : bool :=
  is_open_in d r && negb (String.eqb (agentId r) winner).

(** Equality of stores up to the [@updatedAt] column of [Job] *)
Definition same_up_to_updatedAt (s2 s1 : DB) : Prop :=
  db_jobDistributionRecord s2 = db_jobDistributionRecord s1
  ∧ db_jobDistributionAgent s2 = db_jobDistributionAgent s1
  ∧ db_agent s2 = db_agent s1
  ∧ db_agentPerformance s2 = db_agentPerformance s1
  ∧ db_executionLog s2 = db_executionLog s1
  ∧ ∀ j, touch_job 0 <$> db_job s2 !! j = touch_job 0 <$> db_job s1 !! j.

(** ** Fixtures *)

Definition demo_job : Job :=
  {| job_id := "job-1"; jobTitle := "Summarise report"; job_category := "docs";
     skillLevel := "intermediate"; job_tags := ["nlp"; "summary"];
     maxBudget := None; job_status := OPEN; job_updatedAt := 0 |}.

Definition demo_agent (id classification : string) (tags : list string)
    (rep rate : Q) : Agent :=
  {| agent_id := id; agentName := ("agent " ++ id)%string;
     agentAddress := ("http://" ++ id)%string;
     agentClassification := classification; agent_tags := tags;
     autoAcceptJobs := true; isActive := true; reputation := rep;
     agent_successRate := rate; totalJobsCompleted := 0; agent_updatedAt := 0 |}.

Definition alice : Agent := demo_agent "alice" "expert" ["nlp"] 4 (1 # 2).
Definition bob : Agent := demo_agent "bob" "advanced" ["nlp"] 3 (1 # 2).

Definition demo_store : DB :=
  {| db_job := {[ "job-1" := demo_job ]};
     db_agent := {[ "alice" := alice; "bob" := bob ]};
     db_jobDistributionRecord := ∅;
     db_jobDistributionAgent := [];
     db_agentPerformance := ∅;
     db_executionLog := [] |}.

Definition demo_world : World :=
  {| store := demo_store;
     wallclock := fun k => (1000 + 10 * Z.of_nat k)%Z; ticks := 0;
     cuid := fun k => if (k =? 0)%nat then "dist-1" else "dist-2"; minted := 0 |}.

(** The world after a computation, whatever its result *)
Definition after {A} (m : M A) (w : World) : World := fst (m w).

(** Distribution [dist-1] opened for alice and bob *)
Definition demo_opened : World :=
  after (createDistributionRecord "job-1" [alice; bob]) demo_world.

(** ... both dispatched, alice has delivered *)
Definition demo_delivered : World :=
  after (handleExecutionCompleted "dist-1" "alice" "summary text" None)
    (after (trackAgentExecution "dist-1" "bob")
       (after (trackAgentExecution "dist-1" "alice") demo_opened)).

(** ... and alice was selected, which cancelled bob *)
Definition demo_selected : World :=
  after (selectBestAgentAndComplete "dist-1" first_completed) demo_delivered.

Definition assignment (d a : string) (w : World) : option JobDistributionAgent :=
  List.find (same_key d a) (db_jobDistributionAgent (store w)).

(** ** Status updates *)

Definition update_stamp (status : ExecutionStatusUpdate) (w : World) : option Z :=
  if is_terminal (esu_workStatus status) then Some (wallclock w (ticks w))
  else None.

(** ** Response count *)

Definition count_status (p : AgentWorkStatus → bool)
    (rows : list JobDistributionAgent) : Z :=
  Z.of_nat (length (List.filter (fun r => p (workStatus r)) rows)).

(** The count as the claim words it: assignments no longer [ASSIGNED] *)
Definition left_assigned (s : AgentWorkStatus) : bool :=
  negb (AgentWorkStatus_eqb s ASSIGNED).

(** ** Agent performance *)



(** ** The rows a selection chooses from *)

(** An agent record to read a row on its own: neither the completion
    time nor the score of an execution depends on the agent it names. *)
Definition nobody : Agent := demo_agent "" "" [] 0 0.

(** The [COMPLETED] rows of a distribution, in table order *)
Definition completed_rows (d : string) (s : DB) : list JobDistributionAgent :=
  List.filter (fun r => AgentWorkStatus_eqb (workStatus r) COMPLETED)
              (assignments_of d s).

(** What [first_completed] sorts by: [completedAt], 0 for a null column *)
Definition completion_time (r : JobDistributionAgent) : Z :=
  default 0%Z (completedAt r).

(** What [best_scored] sorts by: the score of the execution that
    [getDistributionDetail] builds from the row *)
Definition result_score (r : JobDistributionAgent) : Q :=
  calculateResultScore (toAgentExecutionResult nobody r).

(** An execution that [getDistributionDetail] builds from a row *)
Definition execution_of (agents : gmap string Agent) (r : JobDistributionAgent)
    (e : AgentExecutionResult) : Prop :=
  ∃ agent, agents !! agentId r = Some agent ∧ e = toAgentExecutionResult agent r.


(** ** Result score *)

(** The score as the claim states it *)
Definition claimedResultScore (executionTimeMs : Z) (resultLength : nat) : Q :=
  100 + Qmax 0 (50 - inject_Z executionTimeMs / 60000)
  + Qmin 20 (inject_Z (Z.of_nat resultLength) / 100).

(** The two bonuses as the code grants them, for a time that is absent
    or not zero *)
Definition speedBonus (executionTimeMs : option Z) : Q :=
  match executionTimeMs with
  | Some ms => Qmax 0 (50 - inject_Z ms / 60000)
  | None => 0
  end.

Definition resultLength (result : option string) : nat :=
  match result with
  | Some s => length_utf16 s
  | None => 0
  end.

Definition contentBonus (result : option string) : Q :=
  Qmin 20 (inject_Z (Z.of_nat (resultLength result)) / 100).

(** The two bonuses as the code computes them, every operation rounded *)
Definition timeScore (ms : Z) : Q :=
  Qmax 0 (fsub 50 (fdiv (fdiv (inject_Z ms) 1000) 60)).

Definition contentScore (n : nat) : Q :=
  Qmin 20 (fdiv (inject_Z (Z.of_nat n)) 100).

(** Unit roundoff of the doubles: half the gap between 1 and the next
    double, [2 ^ -53] *)
Definition unit_roundoff : Q := 1 # 9007199254740992.

(** What the scores of this file are compared up to: far above the
    rounding of a handful of operations, far below any bonus *)
Definition rounding_slack : Q := 1 # 1000000000.

Fixpoint text (n : nat) : string :=
  match n with
  | O => EmptyString
  | S n' => String "x"%char (text n')
  end.

Definition completed_execution (agent : string) (time : option Z)
    (result : string) : AgentExecutionResult :=
  {| aer_agentId := agent; aer_agentName := agent;
     aer_distributionId := "dist-1"; aer_workStatus := COMPLETED;
     aer_executionResult := Some result; aer_executionTimeMs := time;
     aer_startedAt := Some 0%Z; aer_completedAt := Some 1%Z;
     aer_errorMessage := None |}.

(** Alice delivers 500 characters after 10 s and bob 50 characters after
    10 min, in a distribution opened for [agents] in that order *)
Definition demo_results (agents : list Agent) : World :=
  after (handleExecutionCompleted "dist-1" "bob" (text 50) (Some 600000%Z))
    (after (handleExecutionCompleted "dist-1" "alice" (text 500) (Some 10000%Z))
       (after (createDistributionRecord "job-1" agents) demo_world)).

(** The agent a selection has recorded on the distribution *)
Definition recorded_winner (d : string) (w : World) : option string :=
  match db_jobDistributionRecord (store w) !! d with
  | Some record => assignedAgentId record
  | None => None
  end.

(** ** Skill match *)


Definition tagSet (tags : list string) : gset string := list_to_set tags.

(** Share of the job's tags that the agent has, 1 when the job has none *)
Definition tagRatio (agent : Agent) (job : Job) : Q :=
  if decide (size (tagSet (job_tags job)) = 0%nat) then 1%Q
  else (inject_Z (Z.of_nat (size (tagSet (job_tags job)
                                  ∩ tagSet (agent_tags agent))))
        / inject_Z (Z.of_nat (size (tagSet (job_tags job)))))%Q.



(** The bonus as the code grants it *)
Definition skillLevelBonus (agent : Agent) (job : Job) : Q :=
  let agentLevel := toLowerCase (agentClassification agent) in
  let jobLevel := toLowerCase (skillLevel job) in
  if String.eqb agentLevel jobLevel then (2 # 10)%Q
  else if (String.eqb agentLevel "expert" && String.eqb jobLevel "intermediate")
          || (String.eqb agentLevel "intermediate"
              && String.eqb jobLevel "beginner")
       then (1 # 10)%Q
       else 0%Q.

(** ** Composite score *)

Definition in_unit (q : Q) : Prop := (0 <= q <= 1)%Q.

(** An agent with a negative stored reputation, and one whose stored
    success rate exceeds 1 *)
Definition disreputable : Agent := demo_agent "mallory" "novice" [] (-5) 0.
Definition overrated : Agent := demo_agent "trent" "intermediate" ["nlp"; "summary"] 5 3.

Definition score_of (agent : Agent) (job : Job) (w : World) : option Q :=
  match snd (calculateAgentScore agent job w) with
  | Ok s => Some (score s)
  | Err _ => None
  end.

(** The record of [dist-1] as [createDistributionRecord] wrote it *)
Definition demo_record : JobDistributionRecord :=
  {| rec_id := "dist-1"; rec_jobId := "job-1"; jobName := "Summarise report";
     matchCriteria :=
       {| mc_tags := ["nlp"; "summary"]; mc_category := "docs";
          mc_skillLevel := "intermediate"; mc_maxBudget := None;
          mc_autoAcceptJobs := true; mc_isActive := true |};
     totalAgents := 2; assignedCount := 2; responseCount := 0;
     rec_createdAt := 1000; assignedAgentId := None;
     assignedAgentName := None |}.

(** * The rest of the services *)

(** ** ExecutionTrackerService: queries *)

Definition getAgentWorkStatus (agent : string) : M (list AgentWorkStatus) :=
  let* assignments :=
    query (fun d =>
      List.filter (fun r => String.eqb (agentId r) agent
                            && status_in [ASSIGNED; WORKING] (workStatus r))
                  (db_jobDistributionAgent d)) in
  ret (map workStatus assignments).

Definition isDistributionCompleted (distributionId : string) : M bool :=
  try_catch
    (let* completedCount :=
       jobDistributionAgent_count
         (fun r => in_distribution distributionId r
                   && AgentWorkStatus_eqb (workStatus r) COMPLETED) in
     ret (0 <? completedCount)%Z)
    (fun _ => ret false).

Definition AgentWorkStatus_values : list AgentWorkStatus :=
  [IDLE; ASSIGNED; WORKING; COMPLETED; FAILED; CANCELLED; TIMEOUT].

(** [groupBy({ by: ['workStatus'], where, _count: true })]: one group for
    every status that occurs among the selected rows, with the number of
    its rows.  The groups come in the order of the enum; the database
    may return them in any order. *)
Definition jobDistributionAgent_groupBy_workStatus
    (where_ : JobDistributionAgent → bool) : M (list (AgentWorkStatus * Z)) :=
  query (fun d =>
    let rows := List.filter where_ (db_jobDistributionAgent d) in
    List.filter (fun stat => (0 <? snd stat)%Z)
      (map (fun s =>
              (s, Z.of_nat (length (List.filter
                     (fun r => AgentWorkStatus_eqb (workStatus r) s) rows))))
           AgentWorkStatus_values)).

Record DistributionStats := {
  st_totalAgents : Z;
  st_assignedAgents : Z;
  st_workingAgents : Z;
  st_completedAgents : Z;
  st_failedAgents : Z;
  st_timeoutAgents : Z;
  st_cancelledAgents : Z
}.

(** The body of [stats.forEach] in [getDistributionStats] *)
Definition add_stat (result : DistributionStats) (stat : AgentWorkStatus * Z)
  : DistributionStats :=
  let total := (st_totalAgents result + snd stat)%Z in
  let pick (s : AgentWorkStatus) (old : Z) : Z :=
    if AgentWorkStatus_eqb (fst stat) s then snd stat else old in
  {| st_totalAgents := total;
     st_assignedAgents := pick ASSIGNED (st_assignedAgents result);
     st_workingAgents := pick WORKING (st_workingAgents result);
     st_completedAgents := pick COMPLETED (st_completedAgents result);
     st_failedAgents := pick FAILED (st_failedAgents result);
     st_timeoutAgents := pick TIMEOUT (st_timeoutAgents result);
     st_cancelledAgents := pick CANCELLED (st_cancelledAgents result) |}.

Definition no_stats : DistributionStats :=
  {| st_totalAgents := 0; st_assignedAgents := 0; st_workingAgents := 0;
     st_completedAgents := 0; st_failedAgents := 0; st_timeoutAgents := 0;
     st_cancelledAgents := 0 |}.

Definition getDistributionStats (distributionId : string)
  : M DistributionStats :=
  let* stats :=
    jobDistributionAgent_groupBy_workStatus (in_distribution distributionId) in
  ret (fold_left add_stat stats no_stats).

(** ** AgentMatcherService: availability, validation, ranking *)

Definition checkAgentAvailability (agent : string) : M bool :=
  try_catch
    (let* activeAssignments :=
       jobDistributionAgent_count
         (fun r => String.eqb (agentId r) agent
                   && status_in [ASSIGNED; WORKING] (workStatus r)) in
     if (0 <? activeAssignments)%Z then ret false else
     let* found := query (fun d => db_agent d !! agent) in
     match found with
     | None => ret false
     | Some a =>
         if negb (isActive a) || negb (autoAcceptJobs a) then ret false
         else ret true
     end)
    (fun _ => ret false).

Definition isCategoryMatch (_agent : Agent) (_jobCategory : string) : bool :=
  true.

(** The [for ... of] loop of [filterValidAgents]; [validAgents] is the
    array the loop pushes to. *)
Fixpoint filterValidAgents_loop (agents : list Agent) (criteria : MatchCriteria)
    (validAgents : list Agent) : M (list Agent) :=
  match agents with
  | [] => ret validAgents
  | agent :: agents' =>
      let* isAvailable := checkAgentAvailability (agent_id agent) in
      if negb isAvailable
      then filterValidAgents_loop agents' criteria validAgents
      else if negb (isSkillLevelMatch agent (mc_skillLevel criteria))
      then filterValidAgents_loop agents' criteria validAgents
      else if negb (isCategoryMatch agent (mc_category criteria))
      then filterValidAgents_loop agents' criteria validAgents
      else filterValidAgents_loop agents' criteria (validAgents ++ [agent])
  end.

Definition filterValidAgents (agents : list Agent) (criteria : MatchCriteria)
  : M (list Agent) :=
  filterValidAgents_loop agents criteria [].


(** ** QueueService *)

(** interfaces/executer.interfaces.ts, [QueueTask]: the fields
    [processTask] reads *)
Record QueueTask := {
  task_jobId : string;
  task_jobTitle : string
}.

(** [jobDistributionRecord.findFirst({ where: { jobId } })] *)
Definition jobDistributionRecord_findFirst (jobId : string)
  : M (option JobDistributionRecord) :=
  query (fun d =>
    snd <$> List.find (fun kv => String.eqb (rec_jobId (snd kv)) jobId)
                      (map_to_list (db_jobDistributionRecord d))).

Definition processTask (task : QueueTask) : M unit :=
  let jobId := task_jobId task in
  let* existingDistribution := jobDistributionRecord_findFirst jobId in
  match existingDistribution with
  | Some _ => ret tt
  | None =>
      let* job := job_findUnique jobId in
      match job with
      | None => ret tt
      | Some _ =>
          let* _ := job_update jobId (set_job_status DISTRIBUTED) in
          ret tt
      end
  end.

(** ** ExecuterController: the status callback *)

Record AgentStatusUpdateRequest := {
  req_distributionId : string;
  req_workStatus : AgentWorkStatus;
  req_progress : option Z;
  req_executionResult : option string;
  req_errorMessage : option string
}.

Record HttpException := {
  http_message : string;
  http_status : Z
}.

Definition INTERNAL_SERVER_ERROR : Z := 500.

Record StatusReply := {
  reply_message : string;
  reply_success : bool
}.

(** [PUT agents/:agentId/status]: the promise of the handler resolves to
    the reply ([inl]) or rejects with an [HttpException] ([inr]). *)
Definition updateAgentExecutionStatus (agent : string)
    (request : AgentStatusUpdateRequest)
  : World → World * (StatusReply + HttpException) :=
  fun w =>
    match (let* _ := updateExecutionStatus (req_distributionId request) agent
                       {| esu_distributionId := req_distributionId request;
                          esu_agentId := agent;
                          esu_workStatus := req_workStatus request;
                          esu_progress := req_progress request;
                          esu_executionResult := req_executionResult request;
                          esu_errorMessage := req_errorMessage request;
                          esu_executionTimeMs := None |} in
           updateResponseCount (req_distributionId request)) w with
    | (w', Ok _) =>
        (w', inl {| reply_message := "Agent execution status updated successfully";
                    reply_success := true |})
    | (w', Err _) =>
        (w', inr {| http_message := "Failed to update agent status";
                    http_status := INTERNAL_SERVER_ERROR |})
    end.

(** ** AgentCommunicationService *)

Record AxiosError := {
  ax_code : option string;
  ax_status : option Z;       (* [error.response?.status] *)
  ax_message : string
}.

(** What a [catch] clause may receive *)
Inductive Thrown :=
  | AxiosFailure (e : AxiosError)
  | PlainError (message : string)     (* any other [Error] *)
  | Value (shown : string).           (* not an [Error]; [String(error)] *)

(** [axios.post] settles to a response body, whose [text] may be missing,
    or rejects. *)
Inductive Settled :=
  | Replied (text : option string)
  | Refused (error : Thrown).

(** The network as the service sees it: what the k-th request settles
    to, the requests sent so far, and the delays [setTimeout] was asked to
    wait, in order. *)
Record Wire := {
  settles : nat → Settled;
  sent : nat;
  waited : list Q
}.

Definition IO (T : Type) : Type := Wire → Wire * (T + Thrown).

Definition axios_post : Wire → Wire * Settled :=
  fun net =>
    ({| settles := settles net; sent := S (sent net); waited := waited net |},
     settles net (sent net)).

Definition setTimeout (delay : Q) (net : Wire) : Wire :=
  {| settles := settles net; sent := sent net;
     waited := waited net ++ [delay] |}.

Record JobExecutionData := {
  jed_jobId : string;
  jed_jobTitle : string;
  jed_description : string
}.

Record AgentResponse := {
  resp_success : bool;
  resp_jobId : option string;
  resp_message : option string;
  resp_error : option string
}.

Record RetryConfig := {
  maxRetries : Z;
  retryDelay : Q;
  backoffMultiplier : Q;
  retryCondition : option (Thrown → bool)
}.

(** A number inside a template literal *)
Definition shown_status (status : option Z) : string :=
  match status with
  | Some n => pretty n
  | None => "undefined"
  end.

Definition makeAgentApiCall (agentAddress : string) (jobData : JobExecutionData)
  : IO AgentResponse :=
  fun net =>
    match axios_post net with
    | (net', Replied text) =>
        (net', inl {| resp_success := true;
                      resp_jobId := Some (jed_jobId jobData);
                      resp_message := Some (default "" (truthyS text));
                      resp_error := Some "" |})
    | (net', Refused (AxiosFailure e)) =>
        (net', inl {| resp_success := false; resp_jobId := None;
                      resp_message := None;
                      resp_error :=
                        Some ("Agent API call failed - Status: "
                              +:+ shown_status (ax_status e)
                              +:+ ", Message: " +:+ ax_message e) |})
    | (net', Refused (PlainError message)) =>
        (net', inl {| resp_success := false; resp_jobId := None;
                      resp_message := None; resp_error := Some message |})
    | (net', Refused (Value _)) =>
        (net', inl {| resp_success := false; resp_jobId := None;
                      resp_message := None;
                      resp_error := Some "Unknown error" |})
    end.

Definition code_is (e : AxiosError) (code : string) : bool :=
  match ax_code e with
  | Some c => String.eqb c code
  | None => false
  end.

Definition defaultRetryCondition (error : Thrown) : bool :=
  match error with
  | AxiosFailure e =>
      code_is e "ECONNREFUSED" || code_is e "ECONNRESET"
      || code_is e "ETIMEDOUT"
      || match ax_status e with
         | Some status => (500 <=? status)%Z
         | None => false
         end
  | _ => false
  end.

(** [error instanceof Error ? error : new Error(String(error))] *)
Definition as_Error (error : Thrown) : Thrown :=
  match error with
  | Value shown => PlainError shown
  | _ => error
  end.

(** The [for] loop of [executeWithRetry]; [remaining] counts the values
    of [attempt] from the current one up to [config.maxRetries]. *)
Fixpoint executeWithRetry_loop {T} (remaining : nat) (operation : IO T)
    (config : RetryConfig) (operationName : string) (attempt : Z) (delay : Q)
    (lastError : option Thrown) : IO T :=
  fun net =>
    match remaining with
    | O =>
        (net, inr (default
                     (PlainError (operationName +:+ " failed after "
                                  +:+ pretty (maxRetries config + 1)%Z
                                  +:+ " attempts"))
                     lastError))
    | S remaining' =>
        match operation net with
        | (net', inl result) => (net', inl result)
        | (net', inr error) =>
            let lastError := as_Error error in
            if (attempt =? maxRetries config)%Z
               || negb (match retryCondition config with
                        | Some condition => condition error
                        | None => false
                        end)
            then (net', inr lastError)
            else executeWithRetry_loop remaining' operation config
                   operationName (attempt + 1)%Z
                   (delay * backoffMultiplier config)%Q (Some lastError)
                   (setTimeout delay net')
        end
    end.

Definition executeWithRetry {T} (operation : IO T) (config : RetryConfig)
    (operationName : string) : IO T :=
  executeWithRetry_loop (Z.to_nat (maxRetries config + 1)) operation config
    operationName 0 (retryDelay config) None.

(** [retryConfig?.field ?? default]; the defaults are read from the
    environment, as integers, when the service is built. *)
Record DefaultConfig := {
  default_maxRetries : Z;
  default_retryDelay : Q
}.

Record PartialRetryConfig := {
  opt_maxRetries : option Z;
  opt_retryDelay : option Q;
  opt_backoffMultiplier : option Q;
  opt_retryCondition : option (Thrown → bool)
}.

Definition callAgentAPI (defaultConfig : DefaultConfig) (agentAddress : string)
    (jobData : JobExecutionData) (retryConfig : option PartialRetryConfig)
  : IO AgentResponse :=
  let config :=
    {| maxRetries :=
         default (default_maxRetries defaultConfig)
                 (retryConfig ≫= opt_maxRetries);
       retryDelay :=
         default (default_retryDelay defaultConfig)
                 (retryConfig ≫= opt_retryDelay);
       backoffMultiplier :=
         default 2%Q (retryConfig ≫= opt_backoffMultiplier);
       retryCondition :=
         Some (default defaultRetryCondition
                       (retryConfig ≫= opt_retryCondition)) |} in
  executeWithRetry (makeAgentApiCall agentAddress jobData) config
    ("Agent API call to " +:+ agentAddress).

(** ** The constraints of the schema, together *)

Definition record_key (r : JobDistributionRecord) : string * string :=
  (rec_id r, rec_jobId r).

(** [id] is the key of a [JobDistributionRecord] and its [job] resolves *)
Definition records_resolve (s : DB) : Prop :=
  ∀ id record,
    db_jobDistributionRecord s !! id = Some record →
    rec_id record = id ∧ is_Some (db_job s !! rec_jobId record).

(** [JobDistributionRecord.jobId] is [@unique] *)
Definition one_record_per_job (s : DB) : Prop :=
  ∀ id1 id2 r1 r2,
    db_jobDistributionRecord s !! id1 = Some r1 →
    db_jobDistributionRecord s !! id2 = Some r2 →
    rec_jobId r1 = rec_jobId r2 → id1 = id2.

Definition schema_holds (s : DB) : Prop :=
  keys_unique s ∧ references_resolve s ∧ agents_resolve s
  ∧ records_resolve s ∧ one_record_per_job s.

(** The part of a store the constraints speak about: the keys of the
    assignment rows, the identifiers of agents and jobs, and the key and
    job of every distribution record *)
Record SchemaView := {
  sv_keys : list (string * string);
  sv_agents : gset string;
  sv_jobs : gset string;
  sv_records : gmap string (string * string)
}.

Definition schema_view (s : DB) : SchemaView :=
  {| sv_keys := map assignment_key (db_jobDistributionAgent s);
     sv_agents := dom (db_agent s);
     sv_jobs := dom (db_job s);
     sv_records := record_key <$> db_jobDistributionRecord s |}.

(** The calls that write to the store *)
Inductive Call :=
  | CreateDistributionRecord (jobId : string) (agents : list Agent)
  | UpdateResponseCount (distributionId : string)
  | SelectBestAgentAndComplete (distributionId : string) (strategy : Strategy)
  | HandleDistributionTimeout (distributionId : string)
  | TrackAgentExecution (distributionId agent : string)
  | UpdateExecutionStatus (distributionId agent : string)
      (status : ExecutionStatusUpdate)
  | HandleExecutionCompleted (distributionId agent result : string)
      (time : option Z)
  | HandleExecutionFailed (distributionId agent message : string)
      (time : option Z)
  | HandleTimeout (distributionId agent : string)
  | ProcessTask (task : QueueTask)
  | UpdateAgentExecutionStatus (agent : string)
      (request : AgentStatusUpdateRequest).

(** The world after a call has settled, whichever way *)
Definition perform (w : World) (c : Call) : World :=
  match c with
  | CreateDistributionRecord jobId agents =>
      after (createDistributionRecord jobId agents) w
  | UpdateResponseCount d => after (updateResponseCount d) w
  | SelectBestAgentAndComplete d strategy =>
      after (selectBestAgentAndComplete d strategy) w
  | HandleDistributionTimeout d => after (handleDistributionTimeout d) w
  | TrackAgentExecution d a => after (trackAgentExecution d a) w
  | UpdateExecutionStatus d a status =>
      after (updateExecutionStatus d a status) w
  | HandleExecutionCompleted d a result time =>
      after (handleExecutionCompleted d a result time) w
  | HandleExecutionFailed d a message time =>
      after (handleExecutionFailed d a message time) w
  | HandleTimeout d a => after (handleTimeout d a) w
  | ProcessTask task => after (processTask task) w
  | UpdateAgentExecutionStatus a request =>
      fst (updateAgentExecutionStatus a request w)
  end.

(** ** What the services write *)

(** An agent row with the two statistics columns and [@updatedAt] set *)
Definition set_agent_stats (completed : Z) (rate : Q) (now : Z) (a : Agent)
  : Agent :=
  {| agent_id := agent_id a; agentName := agentName a;
     agentAddress := agentAddress a;
     agentClassification := agentClassification a;
     agent_tags := agent_tags a; autoAcceptJobs := autoAcceptJobs a;
     isActive := isActive a; reputation := reputation a;
     agent_successRate := rate; totalJobsCompleted := completed;
     agent_updatedAt := now |}.

(** The columns of an agent and of a job that describe it: all but the
    statistics, the status and [@updatedAt] *)
Definition agent_profile (a : Agent) : Agent := set_agent_stats 0 0 0 a.

Definition job_description (j : Job) : Job :=
  touch_job 0 (set_job_status OPEN j).

(** The row [updateAgentPerformance] writes for an agent *)
Definition upserted (agent : string) (isSuccess : bool) (time : option Z)
    (now : Z) (s : DB) : AgentPerformance :=
  match db_agentPerformance s !! agent with
  | Some current => updatedPerformance current isSuccess time now
  | None => createdPerformance agent isSuccess time now
  end.

(** A performance row whose counters add up *)
Definition performance_consistent (p : AgentPerformance) : Prop :=
  (0 <= completedJobs p)%Z ∧ (0 <= failedJobs p)%Z
  ∧ totalJobs p = (completedJobs p + failedJobs p)%Z
  ∧ (successRate p == inject_Z (completedJobs p) / inject_Z (totalJobs p))%Q.

(** Every performance row is stored under its agent and consistent, and
    the agent row, when there is one, shows the same statistics. *)
Definition performance_holds (s : DB) : Prop :=
  ∀ a p,
    db_agentPerformance s !! a = Some p →
    perf_agentId p = a
    ∧ performance_consistent p
    ∧ ∀ agent, db_agent s !! a = Some agent →
               totalJobsCompleted agent = completedJobs p
               ∧ agent_successRate agent = successRate p.

(** What a run of service calls may have done to a store: it appended at
    most [n] log entries and possibly some assignment rows, and it kept
    the key of every assignment row and distribution record, the profile
    of every agent, the description of every job and the consistency of
    the performance rows. *)
Definition evolved (n : nat) (s s' : DB) : Prop :=
  (∀ a, agent_profile <$> db_agent s' !! a = agent_profile <$> db_agent s !! a)
  ∧ (∀ j, job_description <$> db_job s' !! j
          = job_description <$> db_job s !! j)
  ∧ (∃ entries, db_executionLog s' = db_executionLog s ++ entries
                ∧ (length entries <= n)%nat)
  ∧ (∃ rows,
       length (db_jobDistributionAgent s')
       = length (db_jobDistributionAgent s ++ rows)
       ∧ map assignment_key (db_jobDistributionAgent s')
         = map assignment_key (db_jobDistributionAgent s ++ rows))
  ∧ (∀ d record,
       db_jobDistributionRecord s !! d = Some record →
       ∃ record', db_jobDistributionRecord s' !! d = Some record'
                  ∧ record_key record' = record_key record)
  ∧ (performance_holds s → performance_holds s').

(** ** Availability as a function of the store *)

(** The assignments that keep an agent busy *)
Definition busy_with (agent : string) (r : JobDistributionAgent) : bool :=
  String.eqb (agentId r) agent && status_in [ASSIGNED; WORKING] (workStatus r).

(** An agent that is stored, active, accepts jobs by itself and has no
    assignment to work on *)
Definition available (s : DB) (agent : string) : bool :=
  negb (existsb (busy_with agent) (db_jobDistributionAgent s))
  && match db_agent s !! agent with
     | Some a => isActive a && autoAcceptJobs a
     | None => false
     end.

(** ** Retries *)

(** The delays of [k] retries in a row: each is the one before times the
    multiplier *)
Fixpoint backoff (delay multiplier : Q) (k : nat) : list Q :=
  match k with
  | O => []
  | S k' => delay :: backoff (delay * multiplier) multiplier k'
  end.

(** An operation that sends one request each time it runs and does not
    wait by itself *)
Definition one_request {T} (operation : IO T) : Prop :=
  ∀ net,
    settles (fst (operation net)) = settles net
    ∧ sent (fst (operation net)) = S (sent net)
    ∧ waited (fst (operation net)) = waited net.

(** ** More fixtures *)

Definition demo_task : QueueTask :=
  {| task_jobId := "job-1"; task_jobTitle := "Summarise report" |}.


(** A network on which the first two requests time out *)
Definition demo_wire : Wire :=
  {| settles := fun k =>
       if (k <? 2)%nat
       then Refused (AxiosFailure {| ax_code := Some "ETIMEDOUT";
                                     ax_status := None;
                                     ax_message := "timeout" |})
       else Replied (Some "done");
     sent := 0; waited := [] |}.

Definition demo_retry : RetryConfig :=
  {| maxRetries := 2; retryDelay := 1000; backoffMultiplier := 2;
     retryCondition := Some defaultRetryCondition |}.

(** An operation that lets the failure of its request through *)
Definition post_or_throw : IO (option string) :=
  fun net =>
    match axios_post net with
    | (net', Replied text) => (net', inl text)
    | (net', Refused error) => (net', inr error)
    end.

Definition demo_performance : AgentPerformance :=
  {| perf_agentId := "alice"; totalJobs := 4; completedJobs := 3;
     failedJobs := 1; avgExecutionTime := 2000; successRate := 3 # 4;
     lastUpdated := 0 |}.

(** * Properties *)

(** ** Running a computation *)

Lemma bind_run {A B} (m : M A) (k : A → M B) (w : World) :
  bind m k w =
  match m w with
  | (w', Ok a) => k a w'
  | (w', Err e) => (w', Err e)
  end.
Proof. reflexivity. Qed.

Lemma store_set_store (d : DB) (w : World) : store (set_store d w) = d.
Proof. reflexivity. Qed.

(** ** Opening a distribution *)

Lemma traverse_assignments (d : string) (agents : list Agent) (w : World) :
  ∃ w' rows,
    traverse (fun agent =>
            let* now := new_Date in
            ret (new_assignment d (agent_id agent) now)) agents w
    = (w', Ok rows)
    ∧ store w' = store w
    ∧ Forall2 (fun a r => ∃ t, r = new_assignment d (agent_id a) t) agents rows.
Proof.
  revert w. induction agents as [|a agents IH]; intros w.
  - exists w, []. repeat split. constructor.
  - cbn [traverse]. rewrite bind_run. cbn [new_Date bind ret]. rewrite bind_run.
    match goal with |- context [traverse _ agents ?w1] =>
      destruct (IH w1) as (w' & rows & Hrun & Hst & Hrows) end.
    eexists w', (_ :: rows). rewrite Hrun. cbn.
    repeat split; [exact Hst|]. constructor; eauto.
Qed.

Lemma createMany_appends (data : list JobDistributionAgent) (w : World) :
  match jobDistributionAgent_createMany data w with
  | (w', Ok _) =>
      store w' = set_db_jobDistributionAgent
                   (db_jobDistributionAgent (store w) ++ data) (store w)
  | (_, Err e) => e = UniqueConstraintFailed ∨ e = ForeignKeyConstraintFailed
  end.
Proof.
  revert w. induction data as [|r data IH]; intros w.
  - cbn. destruct (store w); cbn. by rewrite app_nil_r.
  - cbn [jobDistributionAgent_createMany]. rewrite bind_run.
    unfold jobDistributionAgent_insert. rewrite bind_run. cbn [query].
    destruct (db_jobDistributionRecord (store w) !! jobDistributionId r);
      [|by right].
    destruct (db_agent (store w) !! agentId r); [|by right].
    destruct (existsb _ _); [by left|].
    cbn [write].
    match goal with |- context [jobDistributionAgent_createMany data ?w1] =>
      specialize (IH w1);
      destruct (jobDistributionAgent_createMany data w1) as [w' [u|e]] end;
      [|exact IH].
    rewrite IH. cbn. by rewrite <- app_assoc.
Qed.

Lemma same_key_true (d a : string) (r : JobDistributionAgent) :
  same_key d a r = true ↔ jobDistributionId r = d ∧ agentId r = a.
Proof.
  unfold same_key. rewrite andb_true_iff, !String.eqb_eq. reflexivity.
Qed.

Lemma in_distribution_true (d : string) (r : JobDistributionAgent) :
  in_distribution d r = true ↔ jobDistributionId r = d.
Proof. unfold in_distribution. apply String.eqb_eq. Qed.

Lemma createMany_succeeds (d : string) (data : list JobDistributionAgent)
    (w : World) :
  is_Some (db_jobDistributionRecord (store w) !! d) →
  Forall (fun r => jobDistributionId r = d
                   ∧ is_Some (db_agent (store w) !! agentId r)) data →
  NoDup (map agentId data) →
  (∀ r', In r' (db_jobDistributionAgent (store w)) →
         jobDistributionId r' = d → ¬ In (agentId r') (map agentId data)) →
  ∃ w', jobDistributionAgent_createMany data w = (w', Ok tt).
Proof.
  revert w. induction data as [|r data IH]; intros w Hrec Hdata Hnd Hfresh.
  - by exists w.
  - apply Forall_cons in Hdata as [[Hd Hagent] Hdata].
    apply NoDup_cons in Hnd as [Hr Hnd].
    cbn [jobDistributionAgent_createMany]. rewrite bind_run.
    unfold jobDistributionAgent_insert. rewrite bind_run. cbn [query].
    rewrite Hd. destruct Hrec as [rc Hrc]. destruct Hagent as [ag Hag].
    rewrite Hrc, Hag.
    destruct (existsb (same_key d (agentId r))
                (db_jobDistributionAgent (store w))) eqn:Hex.
    + exfalso. apply existsb_exists in Hex as (r' & Hin & Hk).
      apply same_key_true in Hk as [Hd' Ha'].
      apply (Hfresh r' Hin Hd'). rewrite Ha'. left. reflexivity.
    + cbn [write]. apply IH; cbn.
      * eauto.
      * eapply Forall_impl; [exact Hdata|]. cbn. tauto.
      * exact Hnd.
      * intros r' Hin Hd' Hmem. apply in_app_or in Hin as [Hin|[->|[]]].
        -- apply (Hfresh r' Hin Hd'). right. exact Hmem.
        -- apply Hr. apply list_elem_of_In. exact Hmem.
Qed.

Lemma filter_none {A} (f : A → bool) (l : list A) :
  Forall (fun x => f x = false) l → List.filter f l = [].
Proof.
  induction 1 as [|x l Hx _ IH]; [reflexivity|]. cbn. by rewrite Hx.
Qed.

Lemma filter_all {A} (f : A → bool) (l : list A) :
  Forall (fun x => f x = true) l → List.filter f l = l.
Proof.
  induction 1 as [|x l Hx _ IH]; [reflexivity|]. cbn. by rewrite Hx, IH.
Qed.

(** C1, as the code has it.  Opening a distribution for a job with a
    non-empty agent list ends in one of three ways: when the job does not
    exist the call fails with the job-not-found error and the store is
    unchanged; when it exists the transaction is all or nothing, and it
    either commits or rejects with another error.  If it commits, exactly one record was added with
    [totalAgents = assignedCount = length agents] and [responseCount = 0],
    one [ASSIGNED] row per listed agent was appended, the job is
    [DISTRIBUTED], and the number of rows of the new distribution equals
    [totalAgents]; if it rejects, the store is unchanged.  It commits
    whenever the job has no record yet, the drawn identifier is unused and
    the listed agents are stored and pairwise distinct. *)
Theorem createDistributionRecord_opens (w : World) (jobId : string)
    (agents : list Agent) :
  agents ≠ [] →
  references_resolve (store w) →
  match createDistributionRecord jobId agents w, db_job (store w) !! jobId with
  | (w', Err e), None => e = JobNotFound jobId ∧ store w' = store w
  | (w', Err e), Some _ => e ≠ JobNotFound jobId ∧ store w' = store w
  | (w', Ok record), Some job => opened jobId agents job (store w) (store w') record
  | (_, Ok _), None => False
  end
  ∧ (is_Some (db_job (store w) !! jobId) →
     has_record_for_job jobId (db_jobDistributionRecord (store w)) = false →
     db_jobDistributionRecord (store w) !! cuid w (minted w) = None →
     NoDup (map agent_id agents) →
     Forall (fun a => is_Some (db_agent (store w) !! agent_id a)) agents →
     ∃ w' record, createDistributionRecord jobId agents w = (w', Ok record)).
Proof.
  intros _ Hrefs.
  unfold createDistributionRecord. rewrite bind_run.
  unfold job_findUnique. cbn [query].
  destruct (db_job (store w) !! jobId) as [job|] eqn:Hjob; cycle 1.
  { split; [by split|]. intros [? [=]]. }
  unfold transaction. rewrite bind_run.
  unfold jobDistributionRecord_create. rewrite !bind_run.
  cbn [draw_cuid new_Date query bind]. cbn [store].
  set (id := cuid w (minted w)).
  destruct (db_jobDistributionRecord (store w) !! id) eqn:Hid.
  { cbn. split; [by split|]. intros _ _ [=]. }
  destruct (has_record_for_job jobId (db_jobDistributionRecord (store w)))
    eqn:Hhas.
  { cbn. split; [by split|]. intros _ [=]. }
  rewrite Hjob. rewrite bind_run. cbn [write ret store set_store].
  rewrite bind_run.
  match goal with |- context [traverse _ agents ?w1] =>
    destruct (traverse_assignments id agents w1) as (w2 & rows & Hrun & Hst & Hrows)
  end.
  cbn [rec_id]. rewrite Hrun. cbn [store set_store] in Hst.
  rewrite bind_run.
  pose proof (createMany_appends rows w2) as Happ.
  assert (Hold : Forall (fun r => in_distribution id r = false)
                   (db_jobDistributionAgent (store w))).
  { eapply Forall_impl; [exact Hrefs|]. intros r [rc Hrc].
    destruct (in_distribution id r) eqn:Hin; [|reflexivity].
    apply in_distribution_true in Hin. congruence. }
  split.
  - destruct (jobDistributionAgent_createMany rows w2) as [w3 [u|e]];
      [|split; [by destruct Happ as [-> | ->]|reflexivity]].
    rewrite bind_run. unfold job_update. rewrite !bind_run.
    cbn [new_Date query bind]. cbn [store].
    rewrite Happ, Hst.
    cbn [set_db_jobDistributionAgent db_job set_db_jobDistributionRecord].
    rewrite Hjob.
    rewrite bind_run. cbn [write ret store set_store].
    unfold opened. cbn.
    rewrite !lookup_insert_eq.
    split_and!; try done.
    + exists rows. split; [reflexivity|].
      eapply Forall2_impl; [exact Hrows|]. cbn. intros a r [t ->]. done.
    + eexists. reflexivity.
    + intros j Hj. by rewrite lookup_insert_ne.
    + unfold assignments_of. cbn. rewrite List.filter_app.
      rewrite (filter_none _ _ Hold). cbn.
      rewrite filter_all.
      * f_equal. symmetry. eapply Forall2_length. exact Hrows.
      * clear -Hrows. induction Hrows as [|a r ? ? [t ->]]; constructor; auto.
        apply in_distribution_true. reflexivity.
  - intros _ _ _ Hnd Hagents.
    destruct (createMany_succeeds id rows w2) as [w3 Hw3].
    + rewrite Hst. cbn. rewrite lookup_insert_eq. eauto.
    + rewrite Hst. cbn. clear -Hrows Hagents.
      induction Hrows as [|a r ? ? [t ->]]; [constructor|].
      apply Forall_cons in Hagents as [Ha Hagents].
      constructor; [|auto]. cbn. done.
    + replace (map agentId rows) with (map agent_id agents); [exact Hnd|].
      clear -Hrows. induction Hrows as [|a r ? ? [t ->]]; [reflexivity|].
      cbn. by f_equal.
    + rewrite Hst. cbn. intros r' Hin Hd. exfalso.
      rewrite Forall_forall in Hold. apply list_elem_of_In in Hin.
      specialize (Hold r' Hin). apply in_distribution_true in Hd. congruence.
    + rewrite Hw3. rewrite bind_run. unfold job_update. rewrite !bind_run.
      cbn [new_Date query bind]. cbn [store].
      specialize (Happ). rewrite Hw3 in Happ.
      rewrite Happ, Hst. cbn [set_db_jobDistributionAgent db_job
        set_db_jobDistributionRecord]. rewrite Hjob.
      rewrite bind_run. cbn [write ret]. eauto.
Qed.

(** ** The head of a sorted array *)

Lemma Qnegative_minus (a b : Q) : Qnegative (a - b) = true ↔ (a < b)%Q.
Proof.
  unfold Qnegative. rewrite Z.ltb_lt. unfold Qlt, Qminus, Qplus, Qopp. cbn.
  destruct a as [an ad], b as [bn bd]. cbn. nia.
Qed.

Lemma Qnegative_inject_Z (z : Z) : Qnegative (inject_Z z) = true ↔ (z < 0)%Z.
Proof. unfold Qnegative. cbn. apply Z.ltb_lt. Qed.

Section SortHead.
Context {A : Type} (cmp : A → A → Q) (key : A → Q).
Hypothesis cmp_key :
  ∀ a b, Qnegative (cmp a b) = true ↔ (key a < key b)%Q.

Lemma sort_insert_Permutation (x : A) (s : list A) :
  sort_insert cmp x s ≡ₚ x :: s.
Proof.
  induction s as [|y s IH]; [reflexivity|]. cbn [sort_insert].
  destruct (Qnegative (cmp y x)); [|reflexivity].
  rewrite IH. apply Permutation_swap.
Qed.


Lemma sort_insert_sorted (x : A) (s : list A) :
  StronglySorted (fun a b => (key a <= key b)%Q) s →
  StronglySorted (fun a b => (key a <= key b)%Q) (sort_insert cmp x s).
Proof.
  induction 1 as [|y s Hs IH Hy]; cbn [sort_insert].
  - repeat constructor.
  - destruct (Qnegative (cmp y x)) eqn:Hneg.
    + apply cmp_key in Hneg. constructor; [exact IH|].
      apply Forall_forall. intros e He. apply list_elem_of_In in He.
      apply (Permutation_in _ (sort_insert_Permutation x s)) in He.
      destruct He as [<-|He]; [lra|].
      rewrite Forall_forall in Hy. apply Hy, list_elem_of_In, He.
    + assert (Hle : (key x <= key y)%Q).
      { apply Qnot_lt_le. intros Hlt. apply cmp_key in Hlt. congruence. }
      constructor; [by constructor|]. constructor; [exact Hle|].
      eapply Forall_impl; [exact Hy|]. cbn. intros e He. lra.
Qed.

(** ... into ascending order of the key. *)
Lemma Array_sort_sorted (l : list A) :
  StronglySorted (fun a b => (key a <= key b)%Q) (Array_sort cmp l).
Proof.
  induction l as [|x l IH]; [constructor|]. cbn [Array_sort].
  by apply sort_insert_sorted.
Qed.

Lemma head_sort_insert (x : A) (s : list A) :
  head (sort_insert cmp x s)
  = Some match head s with
         | Some y => if Qnegative (cmp y x) then y else x
         | None => x
         end.
Proof. destruct s as [|y s]; cbn; [|destruct (Qnegative _)]; reflexivity. Qed.

(** The element at index 0 after sorting is the first one, in array
    order, among those of least key. *)
Lemma head_Array_sort (l : list A) :
  l ≠ [] →
  ∃ winner before after,
    head (Array_sort cmp l) = Some winner
    ∧ l = before ++ winner :: after
    ∧ (∀ e, In e before → (key winner < key e)%Q)
    ∧ (∀ e, In e after → (key winner <= key e)%Q).
Proof.
  induction l as [|x l IH]; [done|]. intros _.
  cbn [Array_sort]. rewrite head_sort_insert.
  destruct l as [|x' l].
  { exists x, [], []. cbn. repeat split; intros e []. }
  destruct IH as (y & before & after & Hhead & Hl & Hbefore & Hafter); [done|].
  rewrite Hhead.
  destruct (Qnegative (cmp y x)) eqn:Hneg.
  - apply cmp_key in Hneg.
    exists y, (x :: before), after. rewrite Hl. repeat split.
    + intros e [<-|He]; [exact Hneg|auto].
    + exact Hafter.
  - assert (Hle : (key x <= key y)%Q).
    { apply Qnot_lt_le. intros Hlt. apply cmp_key in Hlt. congruence. }
    exists x, [], (x' :: l). repeat split; [intros e []|].
    rewrite Hl. intros e He. apply in_app_or in He as [He|[<-|He]].
    + specialize (Hbefore e He). lra.
    + exact Hle.
    + specialize (Hafter e He). lra.
Qed.

Lemma head_Array_sort_In (l : list A) (x : A) :
  head (Array_sort cmp l) = Some x → In x l.
Proof.
  destruct l as [|y l]; [discriminate|]. intros Hx.
  destruct (head_Array_sort (y :: l)) as (w & b & a & Hw & Hl & _); [done|].
  rewrite Hl. apply in_or_app. right. left. congruence.
Qed.

Lemma head_Array_sort_least (l : list A) (x e : A) :
  head (Array_sort cmp l) = Some x → In e l → (key x <= key e)%Q.
Proof.
  destruct l as [|y l]; [discriminate|]. intros Hx He.
  destruct (head_Array_sort (y :: l)) as (w & b & a & Hw & Hl & Hb & Ha);
    [done|].
  assert (w = x) as -> by congruence.
  rewrite Hl in He. apply in_app_or in He as [He|[<-|He]].
  - specialize (Hb e He). lra.
  - lra.
  - auto.
Qed.
End SortHead.

(** ** Rounding to the nearest double *)

Lemma round_half_even_cases (y : Q) :
  (round_half_even y = Qfloor y ∧ (y - inject_Z (Qfloor y) <= 1 # 2)%Q)
  ∨ (round_half_even y = (Qfloor y + 1)%Z ∧ (1 # 2 <= y - inject_Z (Qfloor y))%Q).
Proof.
  unfold round_half_even.
  destruct (Qcompare_spec (y - inject_Z (Qfloor y)) (1 # 2)) as [H|H|H].
  - destruct (Z.even (Qfloor y)); [left|right]; split; try reflexivity;
      rewrite H; apply Qle_refl.
  - left. split; [reflexivity|]. by apply Qlt_le_weak.
  - right. split; [reflexivity|]. by apply Qlt_le_weak.
Qed.

Lemma round_half_even_near (y : Q) :
  (y - (1 # 2) <= inject_Z (round_half_even y) <= y + (1 # 2))%Q.
Proof.
  pose proof (Qfloor_le y) as Hlo. pose proof (Qlt_floor y) as Hhi.
  rewrite inject_Z_plus in Hhi. change (inject_Z 1) with 1%Q in Hhi.
  destruct (round_half_even_cases y) as [[-> H]|[-> H]];
    rewrite ?inject_Z_plus; change (inject_Z 1) with 1%Q; lra.
Qed.

Lemma round_half_even_Z (n : Z) : round_half_even (inject_Z n) = n.
Proof.
  unfold round_half_even. rewrite Qfloor_Z.
  destruct (Qcompare_spec (inject_Z n - inject_Z n) (1 # 2)) as [H|H|H];
    [lra|reflexivity|lra].
Qed.

Lemma round_half_even_mono (x y : Q) :
  (x <= y)%Q → (round_half_even x <= round_half_even y)%Z.
Proof.
  intros Hxy. pose proof (Qfloor_resp_le _ _ Hxy) as Hfl.
  destruct (Z.eq_dec (Qfloor x) (Qfloor y)) as [Heq|Hne].
  - unfold round_half_even. rewrite <- Heq.
    destruct (Qcompare_spec (x - inject_Z (Qfloor x)) (1 # 2)) as [H|H|H],
             (Qcompare_spec (y - inject_Z (Qfloor x)) (1 # 2)) as [H'|H'|H'];
      try lra; try lia; destruct (Z.even (Qfloor x)); lia.
  - destruct (round_half_even_cases x) as [[-> _]|[-> _]],
             (round_half_even_cases y) as [[-> _]|[-> _]]; lia.
Qed.

Lemma round_half_even_comp (x y : Q) :
  (x == y)%Q → round_half_even x = round_half_even y.
Proof.
  intros H. apply Z.le_antisymm; apply round_half_even_mono; rewrite H;
    apply Qle_refl.
Qed.

Lemma pow2_pos (e : Z) : (0 < 2 ^ e)%Q.
Proof. by apply Qpower_0_lt. Qed.

Lemma pow2_le (n m : Z) : (n <= m)%Z → (2 ^ n <= 2 ^ m)%Q.
Proof. intros H. by apply Qpower_le_compat_l. Qed.

Lemma pow2_lt (n m : Z) : (n < m)%Z → (2 ^ n < 2 ^ m)%Q.
Proof. intros H. by apply Qpower_lt_compat_l. Qed.

Lemma pow2_succ (n : Z) : (2 ^ (n + 1) == 2 * 2 ^ n)%Q.
Proof. rewrite Qpower_plus by done. change (2 ^ 1)%Q with 2%Q. ring. Qed.

Lemma pow2_Z (n : Z) : (0 <= n)%Z → (2 ^ n == inject_Z (2 ^ n))%Q.
Proof. intros H. by rewrite Zpower_Qpower. Qed.

Lemma Qdiv_lt_cross (a b c d : Z) :
  (0 < b)%Z → (0 < d)%Z → (a * d < c * b)%Z →
  (inject_Z a / inject_Z b < inject_Z c / inject_Z d)%Q.
Proof.
  intros Hb Hd H.
  assert (Hb' : (0 < inject_Z b)%Q) by (rewrite <- (Zlt_Qlt 0); lia).
  assert (Hd' : (0 < inject_Z d)%Q) by (rewrite <- (Zlt_Qlt 0); lia).
  apply Qlt_shift_div_l; [exact Hd'|].
  unfold Qdiv. rewrite <- Qmult_assoc, (Qmult_comm (/ _)), Qmult_assoc.
  apply Qlt_shift_div_r; [exact Hb'|].
  rewrite <- !inject_Z_mult, <- Zlt_Qlt. exact H.
Qed.

(** The binary exponent of a positive rational *)
Lemma log2_bracket (a : Q) :
  (0 < a)%Q →
  let k := (Z.log2 (Qnum a) - Z.log2 (Zpos (Qden a)))%Z in
  (2 ^ (k - 1) < a < 2 ^ (k + 1))%Q.
Proof.
  intros Ha. destruct a as [p q]. cbn [Qnum Qden].
  assert (Hp : (0 < p)%Z).
  { unfold Qlt in Ha. cbn in Ha. lia. }
  pose proof (Z.log2_spec p Hp) as [Hp1 Hp2].
  pose proof (Z.log2_spec (Zpos q) (Pos2Z.is_pos q)) as [Hq1 Hq2].
  pose proof (Z.log2_nonneg p) as Hlp.
  pose proof (Z.log2_nonneg (Zpos q)) as Hlq.
  set (lp := Z.log2 p) in *. set (lq := Z.log2 (Zpos q)) in *.
  rewrite Z.pow_succ_r in Hp2, Hq2 by lia.
  assert (HA : (0 < 2 ^ lp)%Z) by (apply Z.pow_pos_nonneg; lia).
  assert (HB : (0 < 2 ^ lq)%Z) by (apply Z.pow_pos_nonneg; lia).
  assert (Hnz : ¬ (2 == 0)%Q) by (intros H; discriminate H).
  rewrite (Qmake_Qdiv p q).
  split.
  - replace (lp - lq - 1)%Z with (lp - (lq + 1))%Z by lia.
    rewrite Qpower_minus by exact Hnz.
    rewrite !pow2_Z by lia. rewrite Z.pow_add_r by lia.
    apply Qdiv_lt_cross; nia.
  - replace (lp - lq + 1)%Z with ((lp + 1) - lq)%Z by lia.
    rewrite Qpower_minus by exact Hnz.
    rewrite !pow2_Z by lia. rewrite Z.pow_add_r by lia.
    apply Qdiv_lt_cross; nia.
Qed.

Lemma ulp_exponent_spec (a : Q) :
  (0 < a)%Q →
  (a < 2 ^ (ulp_exponent a + 53))%Q
  ∧ (-1074 <= ulp_exponent a)%Z
  ∧ (ulp_exponent a = (-1074)%Z ∨ (2 ^ (ulp_exponent a + 52) <= a)%Q).
Proof.
  intros Ha. pose proof (log2_bracket a Ha) as [Hlo Hhi]. cbv zeta in Hlo, Hhi.
  unfold ulp_exponent.
  set (k0 := (Z.log2 (Qnum a) - Z.log2 (Zpos (Qden a)))%Z) in *.
  assert (Hk : ∃ k, (if Qle_bool (2 ^ k0) a then k0 else (k0 - 1)%Z) = k
                    ∧ (2 ^ k <= a < 2 ^ (k + 1))%Q).
  { destruct (Qle_bool (2 ^ k0) a) eqn:Hle.
    - exists k0. apply Qle_bool_iff in Hle. done.
    - exists (k0 - 1)%Z. split; [done|]. split; [by apply Qlt_le_weak|].
      replace (k0 - 1 + 1)%Z with k0 by lia.
      apply Qnot_le_lt. intros H. apply Qle_bool_iff in H. congruence. }
  destruct Hk as (k & -> & Hk1 & Hk2).
  split_and!.
  - eapply Qlt_le_trans; [exact Hk2|]. apply pow2_le. lia.
  - lia.
  - destruct (Z.max_spec (k - 52) (-1074)) as [[_ ->]|[_ ->]]; [by left|].
    right. by replace (k - 52 + 52)%Z with k by lia.
Qed.

Lemma nearest_double_zero (a : Q) : (a == 0)%Q → (nearest_double a == 0)%Q.
Proof.
  intros Ha. unfold nearest_double. generalize (ulp_exponent a). intros e.
  rewrite (round_half_even_comp _ (inject_Z 0)).
  - rewrite round_half_even_Z. ring.
  - rewrite Ha. unfold Qdiv. ring.
Qed.

Lemma nearest_double_scaled (a : Q) :
  (a / 2 ^ ulp_exponent a - (1 # 2) <= nearest_double a / 2 ^ ulp_exponent a
   <= a / 2 ^ ulp_exponent a + (1 # 2))%Q.
Proof.
  unfold nearest_double.
  pose proof (pow2_pos (ulp_exponent a)) as Hpos.
  rewrite Qdiv_mult_l by lra.
  apply round_half_even_near.
Qed.

Lemma round_upto (y : Q) (n : Z) :
  (y <= inject_Z n)%Q → (inject_Z (round_half_even y) <= inject_Z n)%Q.
Proof.
  intros H. rewrite <- Zle_Qle. rewrite <- (round_half_even_Z n).
  by apply round_half_even_mono.
Qed.

Lemma round_from (y : Q) (n : Z) :
  (inject_Z n <= y)%Q → (inject_Z n <= inject_Z (round_half_even y))%Q.
Proof.
  intros H. rewrite <- Zle_Qle. rewrite <- (round_half_even_Z n) at 1.
  by apply round_half_even_mono.
Qed.

Lemma nearest_double_nonneg (a : Q) : (0 <= a)%Q → (0 <= nearest_double a)%Q.
Proof.
  intros Ha. unfold nearest_double.
  pose proof (pow2_pos (ulp_exponent a)) as Hpos.
  apply Qmult_le_0_compat; [|lra].
  change 0%Q with (inject_Z 0). apply round_from.
  apply Qle_shift_div_l; [done|]. change (inject_Z 0) with 0%Q. lra.
Qed.

Lemma nearest_double_mono (a b : Q) :
  (0 < a)%Q → (a <= b)%Q → (nearest_double a <= nearest_double b)%Q.
Proof.
  intros Ha Hab. assert (Hb : (0 < b)%Q) by lra.
  destruct (ulp_exponent_spec a Ha) as (Ha1 & Ha2 & Ha3).
  destruct (ulp_exponent_spec b Hb) as (Hb1 & Hb2 & Hb3).
  unfold nearest_double.
  set (ea := ulp_exponent a) in *. set (eb := ulp_exponent b) in *.
  pose proof (pow2_pos ea) as Hpa. pose proof (pow2_pos eb) as Hpb.
  destruct (Z.lt_trichotomy ea eb) as [Hlt|[Heq|Hgt]].
  - (* a sits in a lower binade *)
    destruct Hb3 as [Hb3|Hb3]; [lia|].
    apply Qle_trans with (2 ^ (ea + 53))%Q.
    + rewrite (Qpower_plus 2 ea 53) by (intros H; discriminate H).
      rewrite (Qmult_comm (2 ^ ea)).
      apply Qmult_le_compat_r; [|lra].
      change (2 ^ 53)%Q with (inject_Z (2 ^ 53)). apply round_upto.
      apply Qle_shift_div_r; [done|].
      change (inject_Z (2 ^ 53)) with (2 ^ 53)%Q.
      rewrite <- (Qpower_plus 2 53 ea) by (intros H; discriminate H).
      rewrite Z.add_comm. lra.
    + apply Qle_trans with (2 ^ (eb + 52))%Q; [apply pow2_le; lia|].
      rewrite (Qpower_plus 2 eb 52) by (intros H; discriminate H).
      rewrite (Qmult_comm (2 ^ eb)).
      apply Qmult_le_compat_r; [|lra].
      change (2 ^ 52)%Q with (inject_Z (2 ^ 52)). apply round_from.
      apply Qle_shift_div_l; [done|].
      change (inject_Z (2 ^ 52)) with (2 ^ 52)%Q.
      rewrite <- (Qpower_plus 2 52 eb) by (intros H; discriminate H).
      rewrite Z.add_comm. lra.
  - rewrite Heq. apply Qmult_le_compat_r; [|lra].
    rewrite <- Zle_Qle. apply round_half_even_mono.
    apply Qmult_le_compat_r; [exact Hab|].
    apply Qinv_le_0_compat. rewrite <- Heq. lra.
  - exfalso. destruct Ha3 as [Ha3|Ha3]; [lia|].
    assert (2 ^ (eb + 53) <= 2 ^ (ea + 52))%Q by (apply pow2_le; lia). lra.
Qed.

Lemma Qle_bool_comp (x y : Q) : (x == y)%Q → Qle_bool 0 x = Qle_bool 0 y.
Proof.
  intros H. destruct (Qle_bool 0 x) eqn:Hx, (Qle_bool 0 y) eqn:Hy; try done.
  - apply Qle_bool_iff in Hx. rewrite H in Hx. apply Qle_bool_iff in Hx.
    congruence.
  - apply Qle_bool_iff in Hy. rewrite <- H in Hy. apply Qle_bool_iff in Hy.
    congruence.
Qed.

(** Rounding depends on the value only. *)
Lemma binary64_comp (x y : Q) : (x == y)%Q → binary64 x = binary64 y.
Proof.
  intros H. unfold binary64.
  by rewrite (Qred_complete _ _ H), (Qle_bool_comp _ _ H).
Qed.

Lemma Qabs_Qred (x : Q) : (Qabs (Qred x) == Qabs x)%Q.
Proof. by rewrite Qred_correct. Qed.

Lemma binary64_value (x : Q) :
  (binary64 x ==
   if Qle_bool 0 x then nearest_double (Qabs (Qred x))
   else - nearest_double (Qabs (Qred x)))%Q.
Proof.
  unfold binary64. destruct (Qle_bool 0 x).
  - apply Qred_correct.
  - apply Qopp_comp, Qred_correct.
Qed.

Lemma binary64_nonneg (x : Q) : (0 <= x)%Q → (0 <= binary64 x)%Q.
Proof.
  intros Hx. rewrite binary64_value, (proj2 (Qle_bool_iff 0 x) Hx).
  apply nearest_double_nonneg, Qabs_nonneg.
Qed.

Lemma binary64_nonpos (x : Q) : (x <= 0)%Q → (binary64 x <= 0)%Q.
Proof.
  intros Hx. rewrite binary64_value.
  destruct (Qle_bool 0 x) eqn:H0.
  - apply Qle_bool_iff in H0.
    rewrite nearest_double_zero; [apply Qle_refl|].
    rewrite Qabs_Qred. rewrite Qabs_pos by done. lra.
  - pose proof (nearest_double_nonneg (Qabs (Qred x)) (Qabs_nonneg _)). lra.
Qed.

(** Rounding keeps the order. *)
Lemma binary64_mono (x y : Q) : (x <= y)%Q → (binary64 x <= binary64 y)%Q.
Proof.
  intros Hxy.
  destruct (Qlt_le_dec x 0) as [Hx|Hx], (Qlt_le_dec y 0) as [Hy|Hy].
  - rewrite !binary64_value.
    assert (Qle_bool 0 x = false) as ->.
    { destruct (Qle_bool 0 x) eqn:H; [|done]. apply Qle_bool_iff in H. lra. }
    assert (Qle_bool 0 y = false) as ->.
    { destruct (Qle_bool 0 y) eqn:H; [|done]. apply Qle_bool_iff in H. lra. }
    apply Qopp_le_compat.
    apply nearest_double_mono.
    + rewrite Qabs_Qred, Qabs_neg by lra. lra.
    + rewrite !Qabs_Qred, !Qabs_neg by lra. lra.
  - apply Qle_trans with 0%Q; [apply binary64_nonpos|apply binary64_nonneg]; lra.
  - lra.
  - rewrite !binary64_value.
    rewrite (proj2 (Qle_bool_iff 0 x) Hx), (proj2 (Qle_bool_iff 0 y) Hy).
    destruct (Qeq_dec x 0) as [H0|H0].
    + rewrite (nearest_double_zero (Qabs (Qred x))).
      * apply nearest_double_nonneg, Qabs_nonneg.
      * rewrite Qabs_Qred, H0. reflexivity.
    + apply nearest_double_mono.
      * rewrite Qabs_Qred, Qabs_pos by done. lra.
      * rewrite !Qabs_Qred, !Qabs_pos by lra. done.
Qed.

Lemma unit_roundoff_pow : (unit_roundoff == 2 ^ (-53))%Q.
Proof. reflexivity. Qed.

Lemma nearest_double_near (a : Q) :
  (0 <= a)%Q →
  (a - (a + 1) * unit_roundoff <= nearest_double a
   <= a + (a + 1) * unit_roundoff)%Q.
Proof.
  intros Ha0. destruct (Qeq_dec a 0) as [H0|H0].
  { rewrite (nearest_double_zero a H0). unfold unit_roundoff. lra. }
  assert (Ha : (0 < a)%Q) by lra.
  destruct (ulp_exponent_spec a Ha) as (_ & H1 & H2).
  pose proof (nearest_double_scaled a) as [Hlo Hhi].
  set (e := ulp_exponent a) in *.
  pose proof (pow2_pos e) as Hpe.
  assert (Hulp : (2 ^ e * (1 # 2) <= (a + 1) * unit_roundoff)%Q).
  { rewrite unit_roundoff_pow. destruct H2 as [->|H2].
    - assert (2 ^ (-1074) * (1 # 2) <= 2 ^ (-53))%Q by (by vm_compute).
      pose proof (pow2_pos (-53)). nra.
    - rewrite (Qpower_plus 2 e 52) in H2 by (intros H; discriminate H).
      assert (2 ^ 52 * (2 ^ (-53)) == 1 # 2)%Q as Hc by reflexivity.
      pose proof (pow2_pos (-53)). pose proof (pow2_pos 52). nra. }
  assert (Hscale : ∀ p q : Q, (p / 2 ^ e <= q / 2 ^ e)%Q → (p <= q)%Q).
  { intros p q H. apply (Qmult_le_r _ _ (/ 2 ^ e)); [|exact H].
    by apply Qinv_lt_0_compat. }
  split.
  - apply Qle_trans with (a - 2 ^ e * (1 # 2))%Q; [lra|].
    apply Hscale. eapply Qle_trans; [|exact Hlo].
    apply Qle_lteq. right. field. lra.
  - apply Qle_trans with (a + 2 ^ e * (1 # 2))%Q; [|lra].
    apply Hscale. eapply Qle_trans; [exact Hhi|].
    apply Qle_lteq. right. field. lra.
Qed.

(** A rounded value is within a relative [2^-53] (and an absolute one in
    the subnormal range) of the exact one. *)
Lemma binary64_near (x B : Q) :
  (Qabs x <= B)%Q →
  (x - (B + 1) * unit_roundoff <= binary64 x <= x + (B + 1) * unit_roundoff)%Q.
Proof.
  intros HB. pose proof (Qabs_nonneg x) as Hn.
  pose proof (nearest_double_near (Qabs (Qred x)) (Qabs_nonneg _)) as Hnear.
  rewrite binary64_value. set (m := nearest_double _) in *.
  rewrite Qabs_Qred in Hnear.
  assert (Hu : (0 < unit_roundoff)%Q) by done.
  destruct (Qle_bool 0 x) eqn:H0.
  - apply Qle_bool_iff in H0.
    rewrite (Qabs_pos x H0) in *. nra.
  - assert (x < 0)%Q as Hx.
    { apply Qnot_le_lt. intros H. apply Qle_bool_iff in H. congruence. }
    rewrite (Qabs_neg x) in * by lra. nra.
Qed.

Lemma nearest_double_of_multiple (y : Q) (n : Z) :
  (y == inject_Z n * 2 ^ ulp_exponent y)%Q → (nearest_double y == y)%Q.
Proof.
  intros Hy. unfold nearest_double.
  pose proof (pow2_pos (ulp_exponent y)) as Hpos.
  rewrite (round_half_even_comp _ (inject_Z n)).
  - rewrite round_half_even_Z. symmetry. exact Hy.
  - generalize dependent (2 ^ ulp_exponent y)%Q. intros p Hy Hpos.
    rewrite Hy. field. lra.
Qed.

(** A rounded value is a double: rounding it again changes nothing. *)
Lemma nearest_double_fixed (a y : Q) :
  (0 <= a)%Q → (y == nearest_double a)%Q → (nearest_double y == y)%Q.
Proof.
  intros Ha0 Hya.
  destruct (Qeq_dec y 0) as [Hz|Hnz].
  { rewrite (nearest_double_zero _ Hz). by rewrite Hz. }
  assert (Ha : (0 < a)%Q).
  { destruct (Qeq_dec a 0) as [H0|H0]; [|lra].
    exfalso. apply Hnz. rewrite Hya. by apply nearest_double_zero. }
  pose proof (nearest_double_nonneg a Ha0) as Hy0.
  assert (Hy : (0 < y)%Q) by lra.
  destruct (ulp_exponent_spec a Ha) as (Ha1 & Ha2 & Ha3).
  destruct (ulp_exponent_spec _ Hy) as (Hy1 & Hy2 & Hy3).
  unfold nearest_double in Hya.
  set (e := ulp_exponent a) in *. set (e' := ulp_exponent y) in *.
  set (m := round_half_even (a / 2 ^ e)) in *.
  pose proof (pow2_pos e) as Hpe. pose proof (pow2_pos e') as Hpe'.
  assert (Hnz2 : ¬ (2 == 0)%Q) by (intros H; discriminate H).
  assert (Hm : (inject_Z m <= inject_Z (2 ^ 53))%Q).
  { apply round_upto. apply Qle_shift_div_r; [done|].
    change (inject_Z (2 ^ 53)) with (2 ^ 53)%Q.
    rewrite <- (Qpower_plus 2 53 e) by done. rewrite Z.add_comm. lra. }
  rewrite <- Zle_Qle in Hm.
  destruct (Z.eq_dec m (2 ^ 53)%Z) as [Hmax|Hlt].
  - (* rounded up to the next power of two *)
    assert (Hy53 : (y == 2 ^ (e + 53))%Q).
    { rewrite Hya, Hmax. rewrite (Qpower_plus 2 e 53) by done.
      change (inject_Z (2 ^ 53)) with (2 ^ 53)%Q. ring. }
    assert (He' : e' = (e + 1)%Z).
    { assert (e + 53 < e' + 53)%Z.
      { apply (Qpower_lt_compat_l_inv 2); [|done]. by rewrite <- Hy53. }
      destruct Hy3 as [Hy3|Hy3]; [lia|].
      assert (e' + 52 <= e + 53)%Z; [|lia].
      apply (Qpower_le_compat_l_inv 2); [|done]. by rewrite <- Hy53. }
    apply (nearest_double_of_multiple y (2 ^ 52)%Z). fold e'. rewrite He', Hy53.
    replace (e + 53)%Z with (52 + (e + 1))%Z by lia.
    rewrite (Qpower_plus 2 52 (e + 1)) by done. reflexivity.
  - assert (He' : (e' <= e)%Z).
    { destruct (Z.le_gt_cases e' e) as [H|H]; [exact H|]. exfalso.
      destruct Hy3 as [Hy3|Hy3]; [lia|].
      assert (Hy' : (y < 2 ^ (e + 53))%Q).
      { rewrite Hya. rewrite (Qpower_plus 2 e 53) by done.
        rewrite (Qmult_comm (2 ^ e)). apply Qmult_lt_compat_r; [done|].
        change (2 ^ 53)%Q with (inject_Z (2 ^ 53)). rewrite <- Zlt_Qlt. lia. }
      assert (2 ^ (e + 53) <= 2 ^ (e' + 52))%Q by (apply pow2_le; lia). lra. }
    apply (nearest_double_of_multiple y (m * 2 ^ (e - e'))%Z). fold e'.
    rewrite Hya, inject_Z_mult, <- pow2_Z by lia.
    rewrite <- Qmult_assoc, <- Qpower_plus by done.
    by replace (e - e' + e')%Z with e by lia.
Qed.

Lemma binary64_idem (x : Q) : (binary64 (binary64 x) == binary64 x)%Q.
Proof.
  set (a := Qabs (Qred x)).
  assert (Ha : (0 <= a)%Q) by apply Qabs_nonneg.
  pose proof (nearest_double_nonneg a Ha) as Hn.
  pose proof (binary64_value x) as Hy. fold a in Hy.
  set (y := binary64 x) in *.
  rewrite (binary64_value y).
  destruct (Qle_bool 0 y) eqn:Hy0.
  - apply Qle_bool_iff in Hy0.
    assert (Hy' : (Qabs (Qred y) == y)%Q).
    { rewrite Qabs_Qred. by apply Qabs_pos. }
    rewrite (nearest_double_fixed a (Qabs (Qred y)) Ha); [exact Hy'|].
    rewrite Hy', Hy. destruct (Qle_bool 0 x); [reflexivity|].
    rewrite Hy in Hy0. lra.
  - assert (Hneg : (y < 0)%Q).
    { apply Qnot_le_lt. intros H. apply Qle_bool_iff in H. congruence. }
    assert (Hy' : (Qabs (Qred y) == - y)%Q).
    { rewrite Qabs_Qred. apply Qabs_neg. lra. }
    destruct (Qle_bool 0 x); [rewrite Hy in Hneg; lra|].
    rewrite (nearest_double_fixed a (Qabs (Qred y)) Ha).
    + rewrite Hy'. ring.
    + rewrite Hy', Hy. ring.
Qed.

(** The constants of [calculateResultScore] are doubles. *)
Lemma binary64_small_integers :
  binary64 0 = 0%Q ∧ binary64 20 = 20%Q ∧ binary64 50 = 50%Q
  ∧ binary64 70 = 70%Q ∧ binary64 100 = 100%Q ∧ binary64 120 = 120%Q
  ∧ binary64 150 = 150%Q ∧ binary64 170 = 170%Q ∧ binary64 3000 = 3000%Q.
Proof. vm_compute. split_and!; reflexivity. Qed.


Lemma first_completed_key (a b : AgentExecutionResult) :
  Qnegative (inject_Z (completedTime a - completedTime b)) = true
  ↔ (inject_Z (completedTime a) < inject_Z (completedTime b))%Q.
Proof. rewrite Qnegative_inject_Z, <- Zlt_Qlt. lia. Qed.

Lemma best_scored_key (a b : AgentExecutionResult) :
  Qnegative (calculateResultScore b - calculateResultScore a) = true
  ↔ (- calculateResultScore a < - calculateResultScore b)%Q.
Proof. rewrite Qnegative_minus. split; intros H; lra. Qed.

(** The two sort keys are read off the row: the agent only adds its
    name. *)
Lemma completedTime_row (agent : Agent) (r : JobDistributionAgent) :
  completedTime (toAgentExecutionResult agent r) = completion_time r.
Proof.
  unfold completedTime, completion_time, truthyZ. cbn [aer_completedAt
    toAgentExecutionResult].
  destruct (completedAt r) as [t|]; [|reflexivity].
  cbn [default]. by destruct (Z.eqb_spec t 0).
Qed.

Lemma calculateResultScore_row (agent : Agent) (r : JobDistributionAgent) :
  calculateResultScore (toAgentExecutionResult agent r) = result_score r.
Proof. reflexivity. Qed.

Lemma traverse_toExecution (rows : list JobDistributionAgent) (w : World) :
  traverse toExecution rows w = (w, executions_of (db_agent (store w)) rows).
Proof.
  induction rows as [|r rows IH]; [reflexivity|].
  cbn [traverse executions_of]. rewrite bind_run.
  unfold toExecution at 1. rewrite bind_run. cbn [query].
  destruct (db_agent (store w) !! agentId r); [|reflexivity].
  cbn [ret]. rewrite bind_run, IH.
  destruct (executions_of _ rows); reflexivity.
Qed.

Lemma selectBestAgentAndComplete_outcome (d : string) (strategy : Strategy)
    (w : World) :
  outcome (selectBestAgentAndComplete d strategy w)
  = select_outcome d strategy (wallclock w (ticks w))
      (wallclock w (S (ticks w))) (store w).
Proof.
  unfold selectBestAgentAndComplete, select_outcome, getDistributionDetail,
    jobDistributionRecord_findUnique.
  run.
  destruct (db_jobDistributionRecord (store w) !! d) as [record|] eqn:Hrec;
    [|reflexivity].
  rewrite traverse_toExecution. fold (assignments_of d (store w)).
  unfold completed_view.
  destruct (executions_of _ _) as [executions|e]; [|reflexivity].
  cbn [agentExecutions dd_jobId].
  destruct (length (List.filter is_completed executions) =? 0)%nat;
    [reflexivity|].
  destruct (selectAgent strategy _) as [winner|]; [|reflexivity].
  unfold jobDistributionRecord_update, job_update,
    jobDistributionAgent_updateMany.
  run. rewrite Hrec. run.
  destruct (db_job (store w) !! rec_jobId record) as [job|]; reflexivity.
Qed.

Lemma NoDup_map_eq {A B} (f : A → B) (l : list A) (x y : A) :
  NoDup (map f l) → In x l → In y l → f x = f y → x = y.
Proof.
  induction l as [|z l IH]; [intros _ []|].
  cbn [map]. rewrite NoDup_cons. intros [Hz Hnd] Hx Hy Hf.
  destruct Hx as [->|Hx], Hy as [->|Hy]; auto.
  - exfalso. apply Hz. rewrite Hf. apply list_elem_of_In, in_map, Hy.
  - exfalso. apply Hz. rewrite <- Hf. apply list_elem_of_In, in_map, Hx.
Qed.

Lemma executions_of_resolved (agents : gmap string Agent)
    (rows : list JobDistributionAgent) :
  Forall (fun r => is_Some (agents !! agentId r)) rows →
  ∃ es, executions_of agents rows = Ok es
        ∧ Forall2 (fun r e => ∃ agent, agents !! agentId r = Some agent
                                       ∧ e = toAgentExecutionResult agent r)
                  rows es.
Proof.
  induction 1 as [|r rows [agent Hr] _ (es & Hes & IH)].
  - exists []. split; [reflexivity|constructor].
  - exists (toAgentExecutionResult agent r :: es). cbn. rewrite Hr, Hes.
    split; [reflexivity|]. constructor; eauto.
Qed.

Lemma Forall2_In_r {A B} (P : A → B → Prop) (l : list A) (k : list B) (y : B) :
  Forall2 P l k → In y k → ∃ x, In x l ∧ P x y.
Proof.
  induction 1 as [|x y' l k Hxy _ IH]; [intros []|].
  intros [->|Hy]; [exists x; split; [by left|done]|].
  destruct (IH Hy) as (x' & Hx' & HP). exists x'. split; [by right|done].
Qed.

Lemma Forall2_In_l {A B} (P : A → B → Prop) (l : list A) (k : list B) (x : A) :
  Forall2 P l k → In x l → ∃ y, In y k ∧ P x y.
Proof.
  induction 1 as [|x' y l k Hxy _ IH]; [intros []|].
  intros [->|Hx]; [exists y; split; [by left|done]|].
  destruct (IH Hx) as (y' & Hy' & HP). exists y'. split; [by right|done].
Qed.

Lemma head_sort_insert_cases {A} (cmp : A → A → Q) (x : A) (s : list A) :
  ∃ y, head (sort_insert cmp x s) = Some y ∧ (y = x ∨ head s = Some y).
Proof.
  destruct s as [|z s]; cbn; [eauto|].
  destruct (Qnegative _); cbn; eauto.
Qed.

Lemma selectAgent_In (strategy : Strategy) (l : list AgentExecutionResult) :
  l ≠ [] → ∃ e, selectAgent strategy l = Some e ∧ In e l.
Proof.
  assert (H : ∀ cmp : AgentExecutionResult → AgentExecutionResult → Q,
             l ≠ [] → ∃ e, head (Array_sort cmp l) = Some e ∧ In e l).
  { intros cmp. induction l as [|x l IH]; [done|]. intros _.
    cbn [Array_sort].
    destruct (head_sort_insert_cases cmp x (Array_sort cmp l))
      as (y & Hy & [->|Hhead]).
    - exists x. split; [done|by left].
    - exists y. split; [done|]. right.
      destruct l as [|x' l]; [discriminate|].
      destruct IH as (e & He & Hin); [done|]. congruence. }
  intros Hne. destruct strategy; cbn [selectAgent]; auto.
Qed.

Lemma status_in_open (s : AgentWorkStatus) :
  status_in [ASSIGNED; WORKING] s = true ↔ s = ASSIGNED ∨ s = WORKING.
Proof. destruct s; cbn; intuition congruence. Qed.

Lemma Forall2_filter {A B} (P : A → B → Prop) (p : A → bool) (q : B → bool)
    (l : list A) (k : list B) :
  (∀ x y, P x y → p x = q y) →
  Forall2 P l k → Forall2 P (List.filter p l) (List.filter q k).
Proof.
  intros Hpq. induction 1 as [|x y l k Hxy _ IH]; [constructor|].
  cbn [List.filter]. rewrite (Hpq x y Hxy).
  destruct (q y); [by constructor|exact IH].
Qed.

(** What winner selection does when the distribution has a [COMPLETED]
    row: the row it selects, by the sort of the strategy, and the store it
    leaves. *)
Lemma selection_commits (w : World) (d : string) (strategy : Strategy)
    (record : JobDistributionRecord) :
  keys_unique (store w) →
  agents_resolve (store w) →
  db_jobDistributionRecord (store w) !! d = Some record →
  is_Some (db_job (store w) !! rec_jobId record) →
  (∃ r, In r (assignments_of d (store w)) ∧ workStatus r = COMPLETED) →
  ∃ w' winner agent job before after,
    selectBestAgentAndComplete d strategy w = (w', Ok tt)
    ∧ completed_rows d (store w) = before ++ winner :: after
    ∧ db_agent (store w) !! agentId winner = Some agent
    ∧ db_job (store w) !! rec_jobId record = Some job
    ∧ store w'
      = resolved d record job (toAgentExecutionResult agent winner)
          (wallclock w (ticks w)) (wallclock w (S (ticks w))) (store w)
    ∧ match strategy with
      | first_completed =>
          (∀ r, In r before → (completion_time winner < completion_time r)%Z)
          ∧ (∀ r, In r after → (completion_time winner <= completion_time r)%Z)
      | best_scored =>
          (∀ r, In r before → (result_score r < result_score winner)%Q)
          ∧ (∀ r, In r after → (result_score r <= result_score winner)%Q)
      end
    ∧ (∃ completedAgents,
         completed_view (db_agent (store w)) (assignments_of d (store w))
         = Ok completedAgents
         ∧ selectAgent strategy completedAgents
           = Some (toAgentExecutionResult agent winner)).
Proof.
  intros Huniq Hagents Hrec [job Hjob] (r0 & Hr0 & Hdone0).
  pose proof (selectBestAgentAndComplete_outcome d strategy w) as Hout.
  unfold select_outcome in Hout. rewrite Hrec in Hout.
  destruct (executions_of_resolved (db_agent (store w)) (assignments_of d (store w)))
    as (es & Hes & Hview).
  { unfold assignments_of. apply Forall_forall. intros r Hr.
    apply list_elem_of_In, filter_In in Hr as [Hr _].
    unfold agents_resolve in Hagents. rewrite Forall_forall in Hagents.
    apply Hagents, list_elem_of_In, Hr. }
  fold (execution_of (db_agent (store w))) in Hview.
  unfold completed_view in Hout. rewrite Hes in Hout.
  assert (Hrows : Forall2 (execution_of (db_agent (store w)))
                    (completed_rows d (store w)) (List.filter is_completed es)).
  { apply Forall2_filter; [|exact Hview].
    intros r e (agent & _ & ->). reflexivity. }
  assert (Hne : List.filter is_completed es ≠ []).
  { intros Hnil. rewrite Hnil in Hrows. apply Forall2_nil_inv_r in Hrows.
    assert (In r0 (completed_rows d (store w))) as Hin.
    { apply filter_In. split; [exact Hr0|]. by rewrite Hdone0. }
    rewrite Hrows in Hin. destruct Hin. }
  cbv zeta in Hout.
  assert (Hlen : (length (List.filter is_completed es) =? 0)%nat = false).
  { destruct (List.filter is_completed es); [done|reflexivity]. }
  rewrite Hlen in Hout.
  assert (Hsort : ∃ winner_e before_e after_e,
            selectAgent strategy (List.filter is_completed es) = Some winner_e
            ∧ List.filter is_completed es = before_e ++ winner_e :: after_e
            ∧ match strategy with
              | first_completed =>
                  (∀ e, In e before_e →
                        (completedTime winner_e < completedTime e)%Z)
                  ∧ (∀ e, In e after_e →
                          (completedTime winner_e <= completedTime e)%Z)
              | best_scored =>
                  (∀ e, In e before_e →
                        (calculateResultScore e
                         < calculateResultScore winner_e)%Q)
                  ∧ (∀ e, In e after_e →
                          (calculateResultScore e
                           <= calculateResultScore winner_e)%Q)
              end).
  { destruct strategy; cbn [selectAgent].
    - destruct (head_Array_sort _ (fun e => inject_Z (completedTime e))
                  first_completed_key _ Hne)
        as (x & bf & af & Hhead & Hl & Hbf & Haf).
      exists x, bf, af. split_and!; [exact Hhead|exact Hl| |].
      + intros e He. rewrite Zlt_Qlt. auto.
      + intros e He. rewrite Zle_Qle. auto.
    - destruct (head_Array_sort _ (fun e => (- calculateResultScore e)%Q)
                  best_scored_key _ Hne)
        as (x & bf & af & Hhead & Hl & Hbf & Haf).
      exists x, bf, af. split_and!; [exact Hhead|exact Hl| |].
      + intros e He. specialize (Hbf e He). cbn beta in Hbf. lra.
      + intros e He. specialize (Haf e He). cbn beta in Haf. lra. }
  destruct Hsort as (winner_e & before_e & after_e & Hsel & Hl & Hkeys).
  rewrite Hl in Hrows.
  apply Forall2_app_inv_r in Hrows as (before & rest & Hbefore & Hrest & Hsplit).
  apply Forall2_cons_inv_r in Hrest as (winner & after & Hwin & Hafter & ->).
  destruct Hwin as (agent & Hagent & ->).
  rewrite Hsel, Hjob in Hout.
  destruct (selectBestAgentAndComplete d strategy w) as [w' res].
  unfold outcome in Hout. cbn [fst snd] in Hout.
  injection Hout as Hstore ->.
  exists w', winner, agent, job, before, after.
  split_and!; try done.
  - destruct strategy; destruct Hkeys as [Hbf Haf]; split; intros r Hr.
    + destruct (Forall2_In_l _ _ _ _ Hbefore Hr) as (e & He & agent' & _ & ->).
      specialize (Hbf _ He). by rewrite !completedTime_row in Hbf.
    + destruct (Forall2_In_l _ _ _ _ Hafter Hr) as (e & He & agent' & _ & ->).
      specialize (Haf _ He). by rewrite !completedTime_row in Haf.
    + destruct (Forall2_In_l _ _ _ _ Hbefore Hr) as (e & He & agent' & _ & ->).
      specialize (Hbf _ He). by rewrite !calculateResultScore_row in Hbf.
    + destruct (Forall2_In_l _ _ _ _ Hafter Hr) as (e & He & agent' & _ & ->).
      specialize (Haf _ He). by rewrite !calculateResultScore_row in Haf.
  - exists (List.filter is_completed es). split; [|exact Hsel].
    unfold completed_view. by rewrite Hes.
Qed.

(** A row among the [COMPLETED] rows of a distribution *)
Lemma completed_rows_In (d : string) (s : DB) (r : JobDistributionAgent) :
  In r (completed_rows d s)
  ↔ In r (db_jobDistributionAgent s) ∧ jobDistributionId r = d
    ∧ workStatus r = COMPLETED.
Proof.
  unfold completed_rows, assignments_of. rewrite !filter_In.
  rewrite in_distribution_true.
  assert (AgentWorkStatus_eqb (workStatus r) COMPLETED = true
          ↔ workStatus r = COMPLETED) by (destruct (workStatus r); done).
  tauto.
Qed.

(** What [resolved] writes, row by row and column by column *)
Lemma resolved_effect (d : string) (record : JobDistributionRecord) (job : Job)
    (agent : Agent) (winner : JobDistributionAgent) (t_job now : Z) (s : DB) :
  NoDup (map assignment_key (db_jobDistributionAgent s)) →
  In winner (db_jobDistributionAgent s) →
  jobDistributionId winner = d →
  workStatus winner = COMPLETED →
  let s' := resolved d record job (toAgentExecutionResult agent winner)
              t_job now s in
  (∃ record',
     db_jobDistributionRecord s' !! d = Some record'
     ∧ assignedAgentId record' = Some (agentId winner)
     ∧ assignedAgentName record' = Some (agentName agent)
     ∧ (rec_id record', rec_jobId record', jobName record',
        matchCriteria record', totalAgents record', assignedCount record',
        responseCount record', rec_createdAt record')
       = (rec_id record, rec_jobId record, jobName record,
          matchCriteria record, totalAgents record, assignedCount record,
          responseCount record, rec_createdAt record))
  ∧ job_status <$> db_job s' !! rec_jobId record = Some JOB_COMPLETED
  ∧ length (db_jobDistributionAgent s') = length (db_jobDistributionAgent s)
  ∧ (∀ i r, db_jobDistributionAgent s !! i = Some r →
            jobDistributionId r = d →
            workStatus r = ASSIGNED ∨ workStatus r = WORKING →
            r ≠ winner
            ∧ ∃ r', db_jobDistributionAgent s' !! i = Some r'
                    ∧ r' = cancel_assignment now r
                    ∧ workStatus r' = CANCELLED
                    ∧ errorMessage r'
                      = Some "Task completed by another agent"%string
                    ∧ completedAt r' = Some now
                    ∧ (jobDistributionId r', agentId r', assignedAt r',
                       executionResult r', startedAt r', progress r',
                       executionTimeMs r', retryCount r')
                      = (jobDistributionId r, agentId r, assignedAt r,
                         executionResult r, startedAt r, progress r,
                         executionTimeMs r, retryCount r))
  ∧ (∀ i r, db_jobDistributionAgent s !! i = Some r →
            is_terminal (workStatus r) = true →
            db_jobDistributionAgent s' !! i = Some r)
  ∧ (∀ i r, db_jobDistributionAgent s !! i = Some r →
            jobDistributionId r ≠ d →
            db_jobDistributionAgent s' !! i = Some r).
Proof.
  intros Huniq Hin Hd Hdone. cbn zeta. unfold resolved.
  cbn [db_job db_jobDistributionRecord db_jobDistributionAgent
       aer_agentId aer_agentName toAgentExecutionResult].
  rewrite !lookup_insert_eq. unfold cancel_losers.
  change (map ?f ?l) with (f <$> l).
  split_and!.
  - eexists. split; [reflexivity|]. by split_and!.
  - reflexivity.
  - by rewrite length_fmap.
  - intros i r Hi Hrd Hopen. split.
    { intros ->. rewrite Hdone in Hopen. by destruct Hopen. }
    rewrite list_lookup_fmap, Hi. cbn [fmap option_fmap option_map].
    rewrite (proj2 (in_distribution_true d r) Hrd).
    rewrite (proj2 (status_in_open _) Hopen).
    destruct (String.eqb_spec (agentId r) (agentId winner)) as [Heq|_].
    + exfalso.
      assert (r = winner) as ->.
      { apply (NoDup_map_eq assignment_key _ _ _ Huniq).
        - apply list_elem_of_In. eapply list_elem_of_lookup_2. exact Hi.
        - exact Hin.
        - unfold assignment_key. by rewrite Hrd, Hd, Heq. }
      rewrite Hdone in Hopen. by destruct Hopen.
    + cbn [negb andb]. eexists. split_and!; reflexivity.
  - intros i r Hi Hterm. rewrite list_lookup_fmap, Hi.
    cbn [fmap option_fmap option_map].
    replace (status_in [ASSIGNED; WORKING] (workStatus r)) with false.
    + by rewrite andb_false_r.
    + by destruct (workStatus r).
  - intros i r Hi Hrd. rewrite list_lookup_fmap, Hi.
    cbn [fmap option_fmap option_map].
    replace (in_distribution d r) with false; [reflexivity|].
    symmetry. apply not_true_is_false. by rewrite in_distribution_true.
Qed.

(** C2.  With at least one [COMPLETED] assignment in the distribution,
    winner selection commits: the record now names the agent of a
    [COMPLETED] assignment in [assignedAgentId] and [assignedAgentName] and
    is otherwise as it was, the job is [COMPLETED], every assignment of the
    distribution that was [ASSIGNED] or [WORKING] is [CANCELLED] with the
    standard message and a [completedAt] stamp, and every assignment in a
    terminal state, like every assignment of another distribution, is as
    it was. *)
Theorem selectBestAgentAndComplete_resolves (w : World) (d : string)
    (strategy : Strategy) (record : JobDistributionRecord) :
  keys_unique (store w) →
  agents_resolve (store w) →
  db_jobDistributionRecord (store w) !! d = Some record →
  is_Some (db_job (store w) !! rec_jobId record) →
  (∃ r, In r (assignments_of d (store w)) ∧ workStatus r = COMPLETED) →
  ∃ w' winner agent now,
    selectBestAgentAndComplete d strategy w = (w', Ok tt)
    ∧ In winner (assignments_of d (store w))
    ∧ workStatus winner = COMPLETED
    ∧ db_agent (store w) !! agentId winner = Some agent
    ∧ (∃ record',
         db_jobDistributionRecord (store w') !! d = Some record'
         ∧ assignedAgentId record' = Some (agentId winner)
         ∧ assignedAgentName record' = Some (agentName agent)
         ∧ (rec_id record', rec_jobId record', jobName record',
            matchCriteria record', totalAgents record', assignedCount record',
            responseCount record', rec_createdAt record')
           = (rec_id record, rec_jobId record, jobName record,
              matchCriteria record, totalAgents record, assignedCount record,
              responseCount record, rec_createdAt record))
    ∧ job_status <$> db_job (store w') !! rec_jobId record = Some JOB_COMPLETED
    ∧ length (db_jobDistributionAgent (store w'))
      = length (db_jobDistributionAgent (store w))
    ∧ (∀ i r, db_jobDistributionAgent (store w) !! i = Some r →
              jobDistributionId r = d →
              workStatus r = ASSIGNED ∨ workStatus r = WORKING →
              r ≠ winner
              ∧ ∃ r', db_jobDistributionAgent (store w') !! i = Some r'
                      ∧ r' = cancel_assignment now r
                      ∧ workStatus r' = CANCELLED
                      ∧ errorMessage r'
                        = Some "Task completed by another agent"%string
                      ∧ completedAt r' = Some now
                      ∧ (jobDistributionId r', agentId r', assignedAt r',
                         executionResult r', startedAt r', progress r',
                         executionTimeMs r', retryCount r')
                        = (jobDistributionId r, agentId r, assignedAt r,
                           executionResult r, startedAt r, progress r,
                           executionTimeMs r, retryCount r))
    ∧ (∀ i r, db_jobDistributionAgent (store w) !! i = Some r →
              is_terminal (workStatus r) = true →
              db_jobDistributionAgent (store w') !! i = Some r)
    ∧ (∀ i r, db_jobDistributionAgent (store w) !! i = Some r →
              jobDistributionId r ≠ d →
              db_jobDistributionAgent (store w') !! i = Some r)
    ∧ (∃ completedAgents,
         completed_view (db_agent (store w)) (assignments_of d (store w))
         = Ok completedAgents
         ∧ selectAgent strategy completedAgents
           = Some (toAgentExecutionResult agent winner)).
Proof.
  intros Huniq Hagents Hrec Hjob Hdone.
  destruct (selection_commits w d strategy record Huniq Hagents Hrec Hjob Hdone)
    as (w' & winner & agent & job & before & after & Hrun & Hsplit & Hagent
        & _ & Hstore & _ & Hview).
  assert (Hwin : In winner (completed_rows d (store w))).
  { rewrite Hsplit. apply in_or_app. right. by left. }
  apply completed_rows_In in Hwin as (Hin & Hd & Hst).
  destruct (resolved_effect d record job agent winner (wallclock w (ticks w))
              (wallclock w (S (ticks w))) (store w) Huniq Hin Hd Hst)
    as (Hr & Hj & Hlen & Hopen & Hterm & Hother).
  rewrite <- Hstore in Hr, Hj, Hlen, Hopen, Hterm, Hother.
  exists w', winner, agent, (wallclock w (S (ticks w))).
  split_and!; try done.
  unfold assignments_of. apply filter_In. split; [exact Hin|].
  by apply in_distribution_true.
Qed.



Lemma find_existsb {A} (p : A → bool) (l : list A) :
  match List.find p l with
  | Some _ => existsb p l = true
  | None => existsb p l = false
  end.
Proof.
  induction l as [|x l IH]; [reflexivity|]. cbn.
  destruct (p x); [reflexivity|exact IH].
Qed.

Lemma timeout_assignment_closed (d : string) (now : Z) (r : JobDistributionAgent) :
  is_open_in d (timeout_assignment now r) = false.
Proof. unfold is_open_in. cbn. apply andb_false_r. Qed.

Lemma sweep_closes (d : string) (now : Z) (rows : list JobDistributionAgent) :
  Forall (fun r => is_open_in d r = false) (sweep d now rows).
Proof.
  induction rows as [|r rows IH]; [constructor|]. cbn. constructor; [|exact IH].
  destruct (is_open_in d r) eqn:Hr; [apply timeout_assignment_closed|exact Hr].
Qed.

Lemma sweep_closed (d : string) (now : Z) (rows : list JobDistributionAgent) :
  Forall (fun r => is_open_in d r = false) rows → sweep d now rows = rows.
Proof.
  unfold sweep.
  induction 1 as [|r rows Hr _ IH]; [reflexivity|]. cbn [map].
  by rewrite Hr, IH.
Qed.

Lemma cancel_losers_closed (d a : string) (now : Z)
    (rows : list JobDistributionAgent) :
  Forall (fun r => is_open_in d r = false) rows →
  cancel_losers d a now rows = rows.
Proof.
  unfold cancel_losers.
  induction 1 as [|r rows Hr _ IH]; [reflexivity|]. cbn [map].
  rewrite IH. f_equal. unfold is_open_in in Hr.
  destruct (in_distribution d r); [|reflexivity].
  destruct (status_in _ _); [discriminate|]. by rewrite andb_false_r.
Qed.

Lemma existsb_completed_sweep (d : string) (now : Z)
    (rows : list JobDistributionAgent) :
  existsb (is_completed_in d) (sweep d now rows)
  = existsb (is_completed_in d) rows.
Proof.
  unfold sweep.
  induction rows as [|r rows IH]; [reflexivity|]. cbn [map existsb].
  rewrite IH. f_equal.
  unfold is_open_in, is_completed_in, in_distribution.
  destruct (String.eqb (jobDistributionId r) d) eqn:Hd;
    [|cbn [andb]; by rewrite Hd].
  destruct (workStatus r) eqn:Hs; cbn; rewrite ?Hd, ?Hs; reflexivity.
Qed.

Lemma assignments_of_swept (d : string) (now : Z) (s : DB) :
  assignments_of d (swept d now s) = sweep d now (assignments_of d s).
Proof.
  unfold assignments_of, swept, sweep.
  cbn [db_jobDistributionAgent set_db_jobDistributionAgent].
  induction (db_jobDistributionAgent s) as [|r rows IH]; [reflexivity|].
  cbn [map List.filter]. rewrite IH.
  assert (Hsame : in_distribution d
                    (if is_open_in d r then timeout_assignment now r else r)
                  = in_distribution d r) by (by destruct (is_open_in d r)).
  rewrite Hsame. by destruct (in_distribution d r).
Qed.

Lemma completed_view_sweep (agents : gmap string Agent) (d : string) (now : Z)
    (rows : list JobDistributionAgent) :
  completed_view agents (sweep d now rows) = completed_view agents rows.
Proof.
  unfold completed_view.
  induction rows as [|r rows IH]; [reflexivity|]. cbn [sweep map executions_of].
  fold (sweep d now rows).
  assert (Hid : agentId (if is_open_in d r then timeout_assignment now r else r)
                = agentId r) by (by destruct (is_open_in d r)).
  rewrite Hid. destruct (agents !! agentId r) as [agent|]; [|reflexivity].
  destruct (executions_of agents (sweep d now rows)) as [es'|e'],
           (executions_of agents rows) as [es|e]; try discriminate; [|exact IH].
  injection IH as IH. f_equal. cbn [List.filter]. rewrite IH.
  unfold is_open_in.
  destruct (in_distribution d r); cbn [andb]; [|reflexivity].
  destruct (workStatus r) eqn:Hs; cbn; unfold is_completed; cbn;
    rewrite ?Hs; reflexivity.
Qed.

Lemma same_up_to_updatedAt_refl (s : DB) : same_up_to_updatedAt s s.
Proof. by repeat split. Qed.

Lemma swept_swept (d : string) (t t' : Z) (s : DB) :
  swept d t' (swept d t s) = swept d t s.
Proof.
  unfold swept. cbn [db_jobDistributionAgent set_db_jobDistributionAgent].
  rewrite (sweep_closed d t'); [|apply sweep_closes].
  by destruct s.
Qed.

Lemma resolved_swept_rows (d : string) (record : JobDistributionRecord)
    (job : Job) (winner : AgentExecutionResult) (t0 t1 t2 : Z) (s : DB) :
  db_jobDistributionAgent (resolved d record job winner t1 t2 (swept d t0 s))
  = sweep d t0 (db_jobDistributionAgent s).
Proof. cbn. apply cancel_losers_closed, sweep_closes. Qed.

Lemma touch_job_insert (jobs : gmap string Job) (k j : string) (t t' : Z)
    (st : JobStatus) (job : Job) :
  touch_job 0 <$>
    <[k := touch_job t' (set_job_status st (touch_job t (set_job_status st job)))]>
      (<[k := touch_job t (set_job_status st job)]> jobs) !! j
  = touch_job 0 <$> <[k := touch_job t (set_job_status st job)]> jobs !! j.
Proof.
  destruct (decide (k = j)) as [->|Hne].
  - by rewrite !lookup_insert_eq.
  - by rewrite !lookup_insert_ne.
Qed.

Lemma waits_for_sweep_same (d : string) (rows : list JobDistributionAgent) :
  waits_for_sweep d rows rows = false.
Proof.
  unfold waits_for_sweep.
  induction rows as [|r rows IH]; [reflexivity|]. cbn [combine existsb fst snd].
  rewrite IH. destruct (workStatus r); cbn; by rewrite andb_false_r.
Qed.

Lemma waits_for_sweep_cancel_losers (d a : string) (now : Z)
    (rows : list JobDistributionAgent) :
  waits_for_sweep d rows (cancel_losers d a now rows)
  = existsb (is_loser_in d a) rows.
Proof.
  unfold waits_for_sweep, cancel_losers.
  induction rows as [|r rows IH]; [reflexivity|].
  cbn [map combine existsb fst snd]. rewrite IH. f_equal.
  unfold is_loser_in, is_open_in.
  destruct (in_distribution d r); cbn [andb]; [|reflexivity].
  destruct (negb (agentId r =? a)%string); cbn [andb].
  - destruct (workStatus r); reflexivity.
  - destruct (workStatus r); reflexivity.
Qed.

Lemma select_outcome_Err (d : string) (strategy : Strategy) (t1 t2 : Z)
    (s s' : DB) (e : Error) :
  select_outcome d strategy t1 t2 s = (s', Err e) → s' = s.
Proof.
  unfold select_outcome.
  repeat match goal with
         | |- context [match ?x with _ => _ end] => destruct x
         end; by intros [= <- _].
Qed.

Lemma handleDistributionTimeout_outcome (d : string) (w : World) :
  outcome (handleDistributionTimeout d w)
  = timeout_outcome d (wallclock w (ticks w)) (wallclock w (S (ticks w)))
      (wallclock w (S (S (ticks w)))) (store w).
Proof.
  unfold handleDistributionTimeout, sweepAssignments, timeout_outcome,
    jobDistributionRecord_findUnique, jobDistributionAgent_updateMany,
    jobDistributionAgent_findFirst, job_update.
  run.
  destruct (db_jobDistributionRecord (store w) !! d) as [record|];
    [|reflexivity].
  run. fold (sweep d (wallclock w (ticks w)) (db_jobDistributionAgent (store w))).
  match goal with |- context [List.find ?p ?l] =>
    pose proof (find_existsb p l) as Hfind; destruct (List.find p l) end;
    fold (is_completed_in d) in Hfind;
    rewrite existsb_completed_sweep in Hfind; rewrite Hfind.
  - match goal with |- context [selectBestAgentAndComplete _ _ ?w1] =>
      pose proof (selectBestAgentAndComplete_outcome d first_completed w1)
        as Hsel;
      destruct (selectBestAgentAndComplete d first_completed w1) as [w2 res]
    end.
    unfold outcome in Hsel. cbn [fst snd store set_store ticks wallclock] in Hsel.
    rewrite <- Hsel. destruct res as [u|e].
    + destruct (waits_for_sweep _ _ _); reflexivity.
    + symmetry in Hsel. apply select_outcome_Err in Hsel. unfold outcome.
      cbn [fst snd]. by rewrite Hsel.
  - run. destruct (db_job (store w) !! rec_jobId record); reflexivity.
Qed.

Lemma assignments_of_cancel_losers (d a : string) (now : Z)
    (rows : list JobDistributionAgent) :
  List.filter (in_distribution d) (cancel_losers d a now rows)
  = cancel_losers d a now (List.filter (in_distribution d) rows).
Proof.
  induction rows as [|r rows IH]; [reflexivity|].
  cbn [cancel_losers map List.filter]. fold (cancel_losers d a now rows).
  destruct (in_distribution d r) eqn:Hd; cbn [andb].
  - destruct (negb (agentId r =? a)%string
              && status_in [ASSIGNED; WORKING] (workStatus r)) eqn:Hc.
    + change (in_distribution d (cancel_assignment now r))
        with (in_distribution d r). rewrite Hd.
      cbn [map]. rewrite Hd. cbn [andb]. rewrite Hc. by rewrite IH.
    + rewrite Hd. cbn [map]. rewrite Hd. cbn [andb]. rewrite Hc.
      by rewrite IH.
  - rewrite Hd. exact IH.
Qed.

Lemma completed_view_cancel_losers (agents : gmap string Agent) (d a : string)
    (now : Z) (rows : list JobDistributionAgent) :
  completed_view agents (cancel_losers d a now rows)
  = completed_view agents rows.
Proof.
  unfold completed_view.
  induction rows as [|r rows IH]; [reflexivity|].
  cbn [cancel_losers map executions_of]. fold (cancel_losers d a now rows).
  set (c := in_distribution d r && negb (agentId r =? a)%string
            && status_in [ASSIGNED; WORKING] (workStatus r)).
  assert (Hid : agentId (if c then cancel_assignment now r else r) = agentId r)
    by (by destruct c).
  rewrite Hid. destruct (agents !! agentId r) as [agent|]; [|reflexivity].
  destruct (executions_of agents (cancel_losers d a now rows)) as [es'|e'],
           (executions_of agents rows) as [es|e]; try discriminate; [|exact IH].
  injection IH as IH. f_equal. cbn [List.filter]. rewrite IH.
  subst c.
  destruct (in_distribution d r); cbn [andb]; [|reflexivity].
  destruct (negb (agentId r =? a)%string); cbn [andb]; [|reflexivity].
  destruct (workStatus r) eqn:Hs; cbn; unfold is_completed; cbn;
    rewrite ?Hs; reflexivity.
Qed.

Lemma cancel_losers_cancel_losers (d a : string) (t t' : Z)
    (rows : list JobDistributionAgent) :
  cancel_losers d a t' (cancel_losers d a t rows) = cancel_losers d a t rows.
Proof.
  unfold cancel_losers. rewrite map_map. apply map_ext. intros r.
  destruct (in_distribution d r && negb (agentId r =? a)%string
            && status_in [ASSIGNED; WORKING] (workStatus r)) eqn:Hc.
  - change (in_distribution d (cancel_assignment t r)
            && negb (agentId (cancel_assignment t r) =? a)%string
            && status_in [ASSIGNED; WORKING]
                 (workStatus (cancel_assignment t r)))
      with (in_distribution d r && negb (agentId r =? a)%string && false).
    by rewrite andb_false_r.
  - by rewrite Hc.
Qed.

Lemma existsb_completed_cancel_losers (d a : string) (now : Z)
    (rows : list JobDistributionAgent) :
  existsb (is_completed_in d) (cancel_losers d a now rows)
  = existsb (is_completed_in d) rows.
Proof.
  unfold cancel_losers.
  induction rows as [|r rows IH]; [reflexivity|]. cbn [map existsb].
  rewrite IH. f_equal. unfold is_completed_in, in_distribution.
  destruct (String.eqb (jobDistributionId r) d) eqn:Hd;
    [|cbn [andb]; by rewrite Hd].
  cbn [andb]. destruct (negb (agentId r =? a)%string); cbn [andb];
    [|by rewrite Hd].
  destruct (workStatus r) eqn:Hs; cbn; rewrite ?Hd, ?Hs; reflexivity.
Qed.

(** A selected execution is that of a [COMPLETED] row. *)
Lemma completed_view_row (agents : gmap string Agent)
    (rows : list JobDistributionAgent) (completed : list AgentExecutionResult)
    (e : AgentExecutionResult) :
  completed_view agents rows = Ok completed →
  In e completed →
  ∃ r, In r rows ∧ agentId r = aer_agentId e ∧ workStatus r = COMPLETED.
Proof.
  unfold completed_view. revert completed.
  induction rows as [|r rows IH]; intros completed; cbn [executions_of].
  - by intros [= <-] [].
  - destruct (agents !! agentId r) as [agent|]; [|discriminate].
    destruct (executions_of agents rows) as [es|]; [|discriminate].
    intros [= <-]. cbn [List.filter]. unfold is_completed at 1.
    cbn [aer_workStatus toAgentExecutionResult].
    destruct (AgentWorkStatus_eqb (workStatus r) COMPLETED) eqn:Hs.
    + intros [<-|He].
      * exists r. split_and!; [by left|reflexivity|by destruct (workStatus r)].
      * destruct (IH _ eq_refl He) as (r' & Hin & Hr'). exists r'.
        split; [by right|exact Hr'].
    + intros He. destruct (IH _ eq_refl He) as (r' & Hin & Hr'). exists r'.
      split; [by right|exact Hr'].
Qed.

(** Under the unique key, once the losers of a [COMPLETED] row are
    cancelled no row of the distribution is open. *)
Lemma cancel_losers_closes (d : string) (now : Z)
    (rows : list JobDistributionAgent) (r0 : JobDistributionAgent) :
  NoDup (map assignment_key rows) →
  In r0 rows →
  jobDistributionId r0 = d →
  workStatus r0 = COMPLETED →
  Forall (fun r => is_open_in d r = false) (cancel_losers d (agentId r0) now rows).
Proof.
  intros Hnd Hin0 Hd0 Hs0. unfold cancel_losers. apply Forall_map, Forall_forall.
  intros r Hr. apply list_elem_of_In in Hr. cbn beta.
  destruct (in_distribution d r && negb (agentId r =? agentId r0)%string
            && status_in [ASSIGNED; WORKING] (workStatus r)) eqn:Hc.
  { unfold is_open_in. cbn. apply andb_false_r. }
  destruct (is_open_in d r) eqn:Hopen; [|reflexivity]. exfalso.
  unfold is_open_in in Hopen. apply andb_true_iff in Hopen as [Hd Hst].
  rewrite Hd, Hst, andb_true_r in Hc. cbn [andb] in Hc.
  apply negb_false_iff, String.eqb_eq in Hc.
  apply in_distribution_true in Hd.
  assert (r = r0) as ->.
  { apply (NoDup_map_eq assignment_key rows); try done.
    unfold assignment_key. by rewrite Hd, Hd0, Hc. }
  rewrite Hs0 in Hst. discriminate.
Qed.

(** The branches of the sweep are decided by the store alone; the clock
    only supplies the stamps. *)
Lemma timeout_outcome_branches (d : string) (t0 t1 t2 : Z) (s : DB) :
  timeout_outcome d t0 t1 t2 s =
  match db_jobDistributionRecord s !! d with
  | None => (s, Err (DistributionNotFound d))
  | Some record =>
      if existsb (is_completed_in d) (db_jobDistributionAgent s)
      then
        match completed_view (db_agent s) (assignments_of d s) with
        | Err e => (s, Err e)
        | Ok completedAgents =>
            if (length completedAgents =? 0)%nat
            then (swept d t0 s, Ok tt)
            else
              match selectAgent first_completed completedAgents with
              | None => (s, Err TypeError)
              | Some winner =>
                  match db_job s !! rec_jobId record with
                  | None => (s, Err RecordToUpdateNotFound)
                  | Some job =>
                      if existsb (is_loser_in d (aer_agentId winner))
                           (db_jobDistributionAgent s)
                      then (resolved d record job winner t1 t2 s,
                            Err TransactionExpired)
                      else (resolved d record job winner t1 t2 (swept d t0 s),
                            Ok tt)
                  end
              end
        end
      else
        match db_job s !! rec_jobId record with
        | None => (s, Err RecordToUpdateNotFound)
        | Some job =>
            (set_db_job
               (<[rec_jobId record :=
                    touch_job t1 (set_job_status EXPIRED job)]> (db_job s))
               (swept d t0 s), Ok tt)
        end
  end.
Proof.
  unfold timeout_outcome.
  destruct (db_jobDistributionRecord s !! d) as [record|] eqn:Hrec;
    [|reflexivity].
  destruct (existsb _ _); [|reflexivity].
  unfold select_outcome. rewrite Hrec.
  destruct (completed_view _ _) as [completed|e]; [|reflexivity].
  destruct (length completed =? 0)%nat.
  { by rewrite waits_for_sweep_same. }
  destruct (selectAgent _ _) as [winner|]; [|reflexivity].
  destruct (db_job s !! rec_jobId record) as [job|]; [|reflexivity].
  cbn [resolved db_jobDistributionAgent].
  rewrite waits_for_sweep_cancel_losers.
  destruct (existsb _ _); [reflexivity|].
  f_equal. unfold resolved, swept, set_db_jobDistributionAgent.
  cbn [db_job db_agent db_jobDistributionRecord db_jobDistributionAgent
       db_agentPerformance db_executionLog].
  f_equal. symmetry. apply cancel_losers_closed, sweep_closes.
Qed.

Local Ltac settled_again :=
  eexists _, _; split; [reflexivity|];
  split; [by left|apply same_up_to_updatedAt_refl].

Lemma timeout_outcome_idempotent (d : string) (t0 t1 t2 t0' t1' t2' : Z)
    (s : DB) :
  keys_unique s →
  ∃ s2 r2,
    timeout_outcome d t0' t1' t2' (fst (timeout_outcome d t0 t1 t2 s))
    = (s2, r2)
    ∧ (r2 = snd (timeout_outcome d t0 t1 t2 s)
       ∨ (snd (timeout_outcome d t0 t1 t2 s) = Err TransactionExpired
          ∧ r2 = Ok tt))
    ∧ same_up_to_updatedAt s2 (fst (timeout_outcome d t0 t1 t2 s)).
Proof.
  intros Huniq.
  rewrite (timeout_outcome_branches d t0 t1 t2 s).
  destruct (db_jobDistributionRecord s !! d) as [record|] eqn:Hrec; cycle 1.
  { cbn [fst snd]. rewrite timeout_outcome_branches, Hrec.
    settled_again. }
  destruct (existsb (is_completed_in d) (db_jobDistributionAgent s)) eqn:Hex.
  - destruct (completed_view (db_agent s) (assignments_of d s))
      as [completed|e] eqn:Hview; cycle 1.
    { cbn [fst snd]. rewrite timeout_outcome_branches, Hrec, Hex, Hview.
      settled_again. }
    destruct (length completed =? 0)%nat eqn:Hlen.
    { cbn [fst snd]. rewrite timeout_outcome_branches.
      change (db_jobDistributionRecord (swept d t0 s))
        with (db_jobDistributionRecord s).
      change (db_agent (swept d t0 s)) with (db_agent s).
      change (db_jobDistributionAgent (swept d t0 s))
        with (sweep d t0 (db_jobDistributionAgent s)).
      rewrite Hrec, existsb_completed_sweep, Hex, assignments_of_swept,
        completed_view_sweep, Hview, Hlen, swept_swept.
      settled_again. }
    destruct (selectAgent first_completed completed) as [winner|] eqn:Hsel;
      cycle 1.
    { cbn [fst snd]. rewrite timeout_outcome_branches, Hrec, Hex, Hview, Hlen, Hsel.
      settled_again. }
    destruct (db_job s !! rec_jobId record) as [job|] eqn:Hjob; cycle 1.
    { cbn [fst snd].
      rewrite timeout_outcome_branches, Hrec, Hex, Hview, Hlen, Hsel, Hjob.
      settled_again. }
    (* the rows the first run leaves have no open row of [d] *)
    assert (Hclosed : ∀ s1,
              db_jobDistributionAgent s1
              = (if existsb (is_loser_in d (aer_agentId winner))
                      (db_jobDistributionAgent s)
                 then cancel_losers d (aer_agentId winner) t2
                        (db_jobDistributionAgent s)
                 else sweep d t0 (db_jobDistributionAgent s)) →
              Forall (fun r => is_open_in d r = false)
                     (db_jobDistributionAgent s1)).
    { intros s1 ->. destruct (existsb (is_loser_in _ _) _); [|apply sweep_closes].
      assert (Hin : In winner completed).
      { destruct (selectAgent_In first_completed completed) as (e & He & Hin).
        - intros ->. discriminate.
        - congruence. }
      destruct (completed_view_row _ _ _ _ Hview Hin) as (r0 & Hr0 & Hid & Hs0).
      unfold assignments_of in Hr0. apply filter_In in Hr0 as [Hr0 Hd0].
      apply in_distribution_true in Hd0. rewrite <- Hid.
      by apply cancel_losers_closes. }
    set (s1 := fst (if existsb (is_loser_in d (aer_agentId winner))
                         (db_jobDistributionAgent s)
                    then (resolved d record job winner t1 t2 s,
                          Err TransactionExpired)
                    else (resolved d record job winner t1 t2 (swept d t0 s),
                          Ok tt))).
    assert (Hrows1 : db_jobDistributionAgent s1
              = (if existsb (is_loser_in d (aer_agentId winner))
                      (db_jobDistributionAgent s)
                 then cancel_losers d (aer_agentId winner) t2
                        (db_jobDistributionAgent s)
                 else sweep d t0 (db_jobDistributionAgent s))).
    { subst s1. destruct (existsb (is_loser_in _ _) _); cbn [fst].
      - reflexivity.
      - apply resolved_swept_rows. }
    specialize (Hclosed s1 Hrows1).
    assert (Hrec1 : db_jobDistributionRecord s1 !! d
                    = Some (set_assignedAgent (aer_agentId winner)
                              (aer_agentName winner) record)).
    { subst s1. destruct (existsb (is_loser_in _ _) _); apply lookup_insert_eq. }
    assert (Hjob1 : db_job s1 !! rec_jobId record
                    = Some (touch_job t1 (set_job_status JOB_COMPLETED job))).
    { subst s1. destruct (existsb (is_loser_in _ _) _); apply lookup_insert_eq. }
    assert (Hag1 : db_agent s1 = db_agent s).
    { subst s1. by destruct (existsb (is_loser_in _ _) _). }
    assert (Hex1 : existsb (is_completed_in d) (db_jobDistributionAgent s1) = true).
    { rewrite Hrows1. destruct (existsb (is_loser_in _ _) _).
      - by rewrite existsb_completed_cancel_losers.
      - by rewrite existsb_completed_sweep. }
    assert (Hview1 : completed_view (db_agent s1) (assignments_of d s1)
                     = Ok completed).
    { rewrite Hag1. unfold assignments_of. rewrite Hrows1.
      destruct (existsb (is_loser_in _ _) _).
      - by rewrite assignments_of_cancel_losers, completed_view_cancel_losers.
      - change (List.filter (in_distribution d)
                  (sweep d t0 (db_jobDistributionAgent s)))
          with (assignments_of d (swept d t0 s)).
        by rewrite assignments_of_swept, completed_view_sweep. }
    assert (Hnolosers : existsb (is_loser_in d (aer_agentId winner))
                          (db_jobDistributionAgent s1) = false).
    { apply not_true_is_false. intros H.
      apply existsb_exists in H as (r & Hr & Hl).
      rewrite Forall_forall in Hclosed. apply list_elem_of_In in Hr.
      specialize (Hclosed r Hr). unfold is_loser_in in Hl.
      by rewrite Hclosed in Hl. }
    rewrite timeout_outcome_branches, Hrec1, Hex1, Hview1, Hlen, Hsel.
    cbn [rec_jobId set_assignedAgent]. rewrite Hjob1, Hnolosers.
    eexists _, _. split; [reflexivity|]. split.
    { subst s1. destruct (existsb (is_loser_in _ _) _); cbn [snd]; auto. }
    unfold same_up_to_updatedAt.
    cbn [resolved swept db_job db_agent db_jobDistributionRecord
         db_jobDistributionAgent db_agentPerformance db_executionLog
         set_db_jobDistributionAgent rec_jobId set_assignedAgent].
    rewrite (sweep_closed d t0' _ Hclosed), (cancel_losers_closed _ _ _ _ Hclosed).
    split_and!; try reflexivity.
    + apply map_eq. intros k. destruct (decide (k = d)) as [->|Hk].
      * by rewrite lookup_insert_eq, Hrec1.
      * by rewrite lookup_insert_ne.
    + intros j. destruct (decide (j = rec_jobId record)) as [->|Hj].
      * by rewrite lookup_insert_eq, Hjob1.
      * by rewrite lookup_insert_ne.
  - destruct (db_job s !! rec_jobId record) as [job|] eqn:Hjob; cycle 1.
    { cbn [fst snd]. rewrite timeout_outcome_branches, Hrec, Hex, Hjob.
      settled_again. }
    cbn [fst snd]. rewrite timeout_outcome_branches.
    cbn [db_job db_agent db_jobDistributionRecord db_jobDistributionAgent
         set_db_job swept set_db_jobDistributionAgent].
    rewrite Hrec, existsb_completed_sweep, Hex, lookup_insert_eq.
    eexists _, _. split; [reflexivity|]. split; [by left|].
    unfold same_up_to_updatedAt, swept.
    cbn [db_job db_agent db_jobDistributionRecord db_jobDistributionAgent
         db_agentPerformance db_executionLog set_db_jobDistributionAgent
         set_db_job].
    split_and!; try reflexivity.
    + apply sweep_closed, sweep_closes.
    + intros j. apply touch_job_insert.
Qed.

(** C4.  Running the timeout sweep a second time leaves the distribution
    records, all assignment rows, agents, performance rows and logs exactly
    as the first run left them; a job row differs at most in its
    [@updatedAt] stamp, so every job status is unchanged.  The second run
    settles as the first did, except after a first run whose transaction
    expired while the nested selection committed: the second run then
    resolves.  The store satisfies the unique key of the assignment
    rows. *)
Theorem handleDistributionTimeout_idempotent (d : string) (w : World) :
  keys_unique (store w) →
  let (w1, r1) := handleDistributionTimeout d w in
  let (w2, r2) := handleDistributionTimeout d w1 in
  db_jobDistributionRecord (store w2) = db_jobDistributionRecord (store w1)
  ∧ db_jobDistributionAgent (store w2) = db_jobDistributionAgent (store w1)
  ∧ (∀ j, job_status <$> db_job (store w2) !! j
          = job_status <$> db_job (store w1) !! j)
  ∧ same_up_to_updatedAt (store w2) (store w1)
  ∧ (r2 = r1 ∨ (r1 = Err TransactionExpired ∧ r2 = Ok tt)).
Proof.
  intros Huniq.
  pose proof (handleDistributionTimeout_outcome d w) as H1.
  destruct (handleDistributionTimeout d w) as [w1 r1].
  pose proof (handleDistributionTimeout_outcome d w1) as H2.
  destruct (handleDistributionTimeout d w1) as [w2 r2].
  unfold outcome in H1, H2. cbn [fst snd] in H1, H2.
  destruct (timeout_outcome_idempotent d
              (wallclock w (ticks w)) (wallclock w (S (ticks w)))
              (wallclock w (S (S (ticks w))))
              (wallclock w1 (ticks w1)) (wallclock w1 (S (ticks w1)))
              (wallclock w1 (S (S (ticks w1)))) (store w) Huniq)
    as (s2 & r2' & Hrun & Hres & Hsame).
  rewrite <- H1 in Hrun, Hres, Hsame. cbn [fst snd] in Hrun, Hres, Hsame.
  rewrite <- H2 in Hrun. injection Hrun as Hs2 Hr2. subst s2 r2'.
  destruct Hsame as (Hrecs & Hrows & Hrest).
  split_and!; try done.
  intros j. destruct Hrest as (_ & _ & _ & Hjobs). specialize (Hjobs j).
  destruct (db_job (store w2) !! j) as [j2|], (db_job (store w1) !! j) as [j1|];
    cbn [fmap option_fmap option_map] in *; try done.
  assert (Hj : touch_job 0 j2 = touch_job 0 j1) by congruence.
  f_equal. exact (f_equal job_status Hj).
Qed.

Lemma updateExecutionStatus_run (d a : string) (status : ExecutionStatusUpdate)
    (w : World) :
  existsb (same_key d a) (db_jobDistributionAgent (store w)) = true →
  fits_int4 (esu_progress status) = true →
  fits_int4 (esu_executionTimeMs status) = true →
  ∃ w',
    updateExecutionStatus d a status w = (w', Ok tt)
    ∧ db_jobDistributionAgent (store w')
      = map (fun r => if same_key d a r
                      then apply_update status (update_stamp status w) r
                      else r)
            (db_jobDistributionAgent (store w))
    ∧ db_job (store w') = db_job (store w)
    ∧ db_agent (store w') = db_agent (store w)
    ∧ db_jobDistributionRecord (store w') = db_jobDistributionRecord (store w)
    ∧ db_agentPerformance (store w') = db_agentPerformance (store w).
Proof.
  intros Hex Hp Ht.
  unfold updateExecutionStatus, update_stamp, jobDistributionAgent_update,
    logExecutionEvent, jobDistributionRecord_findUnique, executionLog_create.
  destruct (is_terminal (esu_workStatus status)); run; rewrite Hex;
    cbn [forallb]; rewrite Hp, Ht; cbn [andb]; run;
    destruct (db_jobDistributionRecord (store w) !! d); run;
    eexists; split_and!; reflexivity.
Qed.

(** A value beyond 32 bits is rejected before anything is written. *)
Lemma updateExecutionStatus_out_of_range (d a : string)
    (status : ExecutionStatusUpdate) (w : World) :
  existsb (same_key d a) (db_jobDistributionAgent (store w)) = true →
  fits_int4 (esu_progress status) = false
  ∨ fits_int4 (esu_executionTimeMs status) = false →
  ∃ w',
    updateExecutionStatus d a status w = (w', Err ValueOutOfRange)
    ∧ store w' = store w.
Proof.
  intros Hex Hout.
  assert (Hfits : forallb fits_int4
                    [esu_progress status; esu_executionTimeMs status] = false).
  { cbn [forallb]. destruct Hout as [-> | ->]; [reflexivity|].
    by rewrite andb_false_r. }
  unfold updateExecutionStatus, jobDistributionAgent_update.
  destruct (is_terminal (esu_workStatus status)); run; rewrite Hex, Hfits;
    eexists; split; reflexivity.
Qed.



(** C8 fails on the code: after alice was selected, [dist-1] has two
    assignments that left [ASSIGNED] (alice [COMPLETED], bob [CANCELLED]),
    and [updateResponseCount] stores 1. *)
Lemma cancelled_not_counted :
  let w' := after (updateResponseCount "dist-1") demo_selected in
  count_status left_assigned (assignments_of "dist-1" (store w')) = 2%Z
  ∧ responseCount <$> db_jobDistributionRecord (store w') !! "dist-1"
    = Some 1%Z.
Proof. vm_compute. split; reflexivity. Qed.

Lemma filter_filter_and {A} (p q : A → bool) (l : list A) :
  List.filter p (List.filter q l) = List.filter (fun x => q x && p x) l.
Proof.
  induction l as [|x l IH]; [reflexivity|]. cbn.
  destruct (q x); cbn; [destruct (p x)|]; by rewrite IH.
Qed.

Lemma count_status_split (rows : list JobDistributionAgent) :
  count_status left_assigned rows
  = (count_status (status_in [WORKING; COMPLETED; FAILED]) rows
     + count_status (status_in [IDLE; CANCELLED; TIMEOUT]) rows)%Z.
Proof.
  unfold count_status.
  induction rows as [|r rows IH]; [reflexivity|]. cbn [List.filter].
  destruct (workStatus r);
    cbn [left_assigned status_in existsb AgentWorkStatus_eqb negb orb length]
      in IH |- *;
    lia.
Qed.

(** C8, as the code has it.  For an existing distribution,
    [updateResponseCount] stores in the record's [responseCount] the number
    of its assignments that are [WORKING], [COMPLETED] or [FAILED]: the
    assignments that left [ASSIGNED], less those that are [CANCELLED],
    [TIMEOUT] or [IDLE].  The record's other columns, the other records
    and the other tables are as they were. *)
Theorem updateResponseCount_counts (w : World) (d : string)
    (record : JobDistributionRecord) :
  db_jobDistributionRecord (store w) !! d = Some record →
  ∃ w' n record',
    updateResponseCount d w = (w', Ok tt)
    ∧ n = count_status (status_in [WORKING; COMPLETED; FAILED])
            (assignments_of d (store w))
    ∧ n = (count_status left_assigned (assignments_of d (store w))
           - count_status (status_in [IDLE; CANCELLED; TIMEOUT])
               (assignments_of d (store w)))%Z
    ∧ db_jobDistributionRecord (store w') !! d = Some record'
    ∧ responseCount record' = n
    ∧ (rec_id record', rec_jobId record', jobName record', matchCriteria record')
      = (rec_id record, rec_jobId record, jobName record, matchCriteria record)
    ∧ (totalAgents record', assignedCount record', rec_createdAt record',
       assignedAgentId record', assignedAgentName record')
      = (totalAgents record, assignedCount record, rec_createdAt record,
         assignedAgentId record, assignedAgentName record)
    ∧ (∀ d', d' ≠ d →
             db_jobDistributionRecord (store w') !! d'
             = db_jobDistributionRecord (store w) !! d')
    ∧ db_jobDistributionAgent (store w') = db_jobDistributionAgent (store w)
    ∧ db_job (store w') = db_job (store w)
    ∧ db_agent (store w') = db_agent (store w)
    ∧ db_agentPerformance (store w') = db_agentPerformance (store w)
    ∧ db_executionLog (store w') = db_executionLog (store w).
Proof.
  intros Hrec.
  unfold updateResponseCount, jobDistributionAgent_count,
    jobDistributionRecord_update.
  run. rewrite Hrec. run.
  eexists _, _, _. split; [reflexivity|]. run. rewrite lookup_insert_eq.
  assert (Hn : Z.of_nat (length (List.filter
                 (fun r => in_distribution d r
                           && status_in [WORKING; COMPLETED; FAILED] (workStatus r))
                 (db_jobDistributionAgent (store w))))
               = count_status (status_in [WORKING; COMPLETED; FAILED])
                   (assignments_of d (store w))).
  { unfold count_status, assignments_of. by rewrite filter_filter_and. }
  rewrite Hn. split_and!; try reflexivity.
  - rewrite count_status_split. lia.
  - intros d' Hd'. by rewrite lookup_insert_ne.
Qed.

Lemma truthyZ_nonzero (ms : Z) : ms ≠ 0%Z → truthyZ (Some ms) = Some ms.
Proof. intros H. unfold truthyZ. by destruct (Z.eqb_spec ms 0). Qed.







(** ** The score of a result, operation by operation *)

Lemma fadd_mono (a b a' b' : Q) :
  (a <= a')%Q → (b <= b')%Q → (fadd a b <= fadd a' b')%Q.
Proof. intros Ha Hb. apply binary64_mono. lra. Qed.

Lemma fadd_near (a b B : Q) :
  (- B <= a + b <= B)%Q →
  (a + b - (B + 1) * unit_roundoff <= fadd a b
   <= a + b + (B + 1) * unit_roundoff)%Q.
Proof. intros H. apply binary64_near. by apply Qabs_Qle_condition. Qed.

(** Adding a bonus to a double does not lower it. *)
Lemma fadd_bonus (s c : Q) :
  (binary64 s == s)%Q → (0 <= c)%Q → (s <= fadd s c)%Q.
Proof.
  intros Hs Hc. rewrite <- Hs at 1. apply binary64_mono. lra.
Qed.

Lemma fadd_double (a b : Q) : (binary64 (fadd a b) == fadd a b)%Q.
Proof. apply binary64_idem. Qed.

Lemma timeScore_nonneg (ms : Z) : (0 <= timeScore ms)%Q.
Proof. apply Q.le_max_l. Qed.

Lemma timeScore_antitone (ms1 ms2 : Z) :
  (ms1 <= ms2)%Z → (timeScore ms2 <= timeScore ms1)%Q.
Proof.
  intros H. unfold timeScore, fsub, fdiv. apply Q.max_le_compat_l.
  apply binary64_mono.
  assert (H1 : (binary64 (inject_Z ms1 / 1000) <= binary64 (inject_Z ms2 / 1000))%Q).
  { apply binary64_mono. rewrite Zle_Qle in H. unfold Qdiv.
    change (/ 1000)%Q with (1 # 1000)%Q. lra. }
  set (a1 := binary64 (inject_Z ms1 / 1000)) in *.
  set (a2 := binary64 (inject_Z ms2 / 1000)) in *.
  assert (H2 : (binary64 (a1 / 60) <= binary64 (a2 / 60))%Q).
  { apply binary64_mono. unfold Qdiv. change (/ 60)%Q with (1 # 60)%Q. lra. }
  lra.
Qed.

(** From 50 minutes on the speed bonus is exactly 0. *)
Lemma timeScore_saturates (ms : Z) :
  (3000000 <= ms)%Z → (timeScore ms == 0)%Q.
Proof.
  intros H. unfold timeScore, fsub, fdiv. apply Q.max_l.
  destruct binary64_small_integers as (H0 & _ & H50 & _ & _ & _ & _ & _ & H3000).
  assert (H1 : (3000 <= binary64 (inject_Z ms / 1000))%Q).
  { rewrite <- H3000. apply binary64_mono. rewrite Zle_Qle in H.
    change (inject_Z 3000000) with (3000000 # 1)%Q in H. unfold Qdiv.
    change (/ 1000)%Q with (1 # 1000)%Q. lra. }
  set (a1 := binary64 (inject_Z ms / 1000)) in *.
  assert (H2 : (50 <= binary64 (a1 / 60))%Q).
  { rewrite <- H50 at 1. apply binary64_mono. unfold Qdiv.
    change (/ 60)%Q with (1 # 60)%Q. lra. }
  rewrite <- H0. apply binary64_mono. lra.
Qed.

Lemma timeScore_range (ms : Z) :
  (0 <= ms)%Z → (0 <= timeScore ms <= 50)%Q.
Proof.
  intros H. split; [apply timeScore_nonneg|].
  unfold timeScore, fsub, fdiv. apply Q.max_lub; [lra|].
  destruct binary64_small_integers as (_ & _ & H50 & _).
  assert (H1 : (0 <= binary64 (inject_Z ms / 1000))%Q).
  { apply binary64_nonneg. rewrite Zle_Qle in H. unfold Qdiv.
    change (/ 1000)%Q with (1 # 1000)%Q. change (inject_Z 0) with 0%Q in H. lra. }
  set (a1 := binary64 (inject_Z ms / 1000)) in *.
  assert (H2 : (0 <= binary64 (a1 / 60))%Q).
  { apply binary64_nonneg. unfold Qdiv. change (/ 60)%Q with (1 # 60)%Q. lra. }
  rewrite <- H50 at 2. apply binary64_mono. lra.
Qed.

(** For a time that fits 32 bits the rounded speed bonus is the exact one
    up to rounding. *)
Lemma timeScore_near (ms : Z) :
  is_int4 ms = true →
  (speedBonus (Some ms) - 107500 * unit_roundoff <= timeScore ms
   <= speedBonus (Some ms) + 107500 * unit_roundoff)%Q
  ∧ (timeScore ms <= 35844)%Q.
Proof.
  intros Hms. unfold is_int4 in Hms.
  apply andb_true_iff in Hms as [Hlo Hhi].
  apply Z.leb_le in Hlo, Hhi. rewrite Zle_Qle in Hlo, Hhi.
  change (inject_Z (-2147483648)) with (-2147483648 # 1)%Q in Hlo.
  change (inject_Z 2147483647) with (2147483647 # 1)%Q in Hhi.
  unfold timeScore, speedBonus, fsub, fdiv.
  set (x := inject_Z ms) in *.
  pose proof (binary64_near (x / 1000) 2147484) as H1.
  set (a1 := binary64 (x / 1000)) in *.
  pose proof (binary64_near (a1 / 60) 35792) as H2.
  set (a2 := binary64 (a1 / 60)) in *.
  pose proof (binary64_near (50 - a2) 35843) as H3.
  set (a3 := binary64 (50 - a2)) in *.
  unfold unit_roundoff in *. unfold Qdiv in *.
  change (/ 1000)%Q with (1 # 1000)%Q in *.
  change (/ 60)%Q with (1 # 60)%Q in *.
  change (/ 60000)%Q with (1 # 60000)%Q in *.
  assert (H1' := H1 ltac:(apply Qabs_Qle_condition; lra)).
  assert (H2' := H2 ltac:(apply Qabs_Qle_condition; lra)).
  assert (H3' := H3 ltac:(apply Qabs_Qle_condition; lra)).
  clear H1 H2 H3.
  destruct (Q.max_spec 0 a3) as [[? ->]|[? ->]],
           (Q.max_spec 0 (50 - x * (1 # 60000))) as [[? ->]|[? ->]];
    split; lra.
Qed.

Lemma contentScore_range (n : nat) : (0 <= contentScore n <= 20)%Q.
Proof.
  unfold contentScore, fdiv. split; [|apply Q.le_min_l].
  apply Q.min_glb; [lra|]. apply binary64_nonneg.
  assert (0 <= inject_Z (Z.of_nat n))%Q by (rewrite <- (Zle_Qle 0); lia).
  unfold Qdiv. change (/ 100)%Q with (1 # 100)%Q. lra.
Qed.

Lemma contentScore_mono (n1 n2 : nat) :
  (n1 <= n2)%nat → (contentScore n1 <= contentScore n2)%Q.
Proof.
  intros H. unfold contentScore, fdiv. apply Q.min_le_compat_l.
  apply binary64_mono.
  assert (inject_Z (Z.of_nat n1) <= inject_Z (Z.of_nat n2))%Q
    by (rewrite <- Zle_Qle; lia).
  unfold Qdiv. change (/ 100)%Q with (1 # 100)%Q. lra.
Qed.

(** From 2000 characters on the content bonus is exactly 20. *)
Lemma contentScore_saturates (n : nat) :
  (2000 <= n)%nat → (contentScore n == 20)%Q.
Proof.
  intros H. unfold contentScore, fdiv. apply Q.min_l.
  destruct binary64_small_integers as (_ & H20 & _).
  rewrite <- H20 at 1. apply binary64_mono.
  assert (H' : (2000 <= Z.of_nat n)%Z) by lia.
  rewrite Zle_Qle in H'. change (inject_Z 2000) with (2000 # 1)%Q in H'.
  unfold Qdiv. change (/ 100)%Q with (1 # 100)%Q. lra.
Qed.

Lemma contentScore_near (n : nat) :
  (Qmin 20 (inject_Z (Z.of_nat n) / 100) - 21 * unit_roundoff
   <= contentScore n
   <= Qmin 20 (inject_Z (Z.of_nat n) / 100) + 21 * unit_roundoff)%Q.
Proof.
  destruct (le_lt_dec 2000 n) as [Hbig|Hsmall].
  - rewrite (contentScore_saturates n Hbig).
    assert (Hq : (Qmin 20 (inject_Z (Z.of_nat n) / 100) == 20)%Q).
    { apply Q.min_l. assert (H' : (2000 <= Z.of_nat n)%Z) by lia.
      rewrite Zle_Qle in H'. change (inject_Z 2000) with (2000 # 1)%Q in H'.
      unfold Qdiv. change (/ 100)%Q with (1 # 100)%Q. lra. }
    rewrite Hq. unfold unit_roundoff. lra.
  - unfold contentScore, fdiv.
    assert (H0 : (0 <= inject_Z (Z.of_nat n))%Q) by (rewrite <- (Zle_Qle 0); lia).
    assert (H1 : (inject_Z (Z.of_nat n) <= 2000)%Q).
    { change 2000%Q with (inject_Z 2000). rewrite <- Zle_Qle. lia. }
    pose proof (binary64_near (inject_Z (Z.of_nat n) / 100) 20) as Hn.
    set (x := inject_Z (Z.of_nat n)) in *.
    set (c := binary64 (x / 100)) in *.
    unfold unit_roundoff in *. unfold Qdiv in *.
    change (/ 100)%Q with (1 # 100)%Q in *.
    assert (Hn' := Hn ltac:(apply Qabs_Qle_condition; lra)). clear Hn.
    destruct (Q.min_spec 20 c) as [[? ->]|[? ->]],
             (Q.min_spec 20 (x * (1 # 100))) as [[? ->]|[? ->]]; lra.
Qed.

Lemma base_score : fadd 0 100 = 100%Q.
Proof. vm_compute. reflexivity. Qed.

(** The score in the words of the source: the base, then the two
    bonuses, each added with a rounding *)
Lemma calculateResultScore_steps (e : AgentExecutionResult) :
  calculateResultScore e
  = let base :=
      if AgentWorkStatus_eqb (aer_workStatus e) COMPLETED then 100%Q else 0%Q in
    let timed :=
      match truthyZ (aer_executionTimeMs e) with
      | Some ms => fadd base (timeScore ms)
      | None => base
      end in
    match truthyS (aer_executionResult e) with
    | Some result =>
        if (0 <? length_utf16 result)%nat
        then fadd timed (contentScore (length_utf16 result))
        else timed
    | None => timed
    end.
Proof.
  unfold calculateResultScore. rewrite base_score. reflexivity.
Qed.

(** The score of a [COMPLETED] execution is the formula, up to the
    rounding of its operations. *)
Lemma calculateResultScore_near (e : AgentExecutionResult) :
  aer_workStatus e = COMPLETED →
  aer_executionTimeMs e ≠ Some 0%Z →
  fits_int4 (aer_executionTimeMs e) = true →
  (Qabs (calculateResultScore e
         - (100 + speedBonus (aer_executionTimeMs e)
            + contentBonus (aer_executionResult e)))
   <= rounding_slack)%Q.
Proof.
  intros Hdone Htime Hfits. rewrite calculateResultScore_steps, Hdone.
  cbn [AgentWorkStatus_eqb]. cbv zeta.
  (* the score after the speed bonus *)
  assert (Htimed : ∃ timed,
            match truthyZ (aer_executionTimeMs e) with
            | Some ms => fadd 100 (timeScore ms)
            | None => 100%Q
            end = timed
            ∧ (100 + speedBonus (aer_executionTimeMs e) - 150000 * unit_roundoff
               <= timed
               <= 100 + speedBonus (aer_executionTimeMs e)
                  + 150000 * unit_roundoff)%Q
            ∧ (100 <= timed <= 35946)%Q).
  { eexists. split; [reflexivity|].
    destruct (aer_executionTimeMs e) as [ms|]; cbn [truthyZ].
    - destruct (Z.eqb_spec ms 0) as [->|_]; [done|].
      destruct (timeScore_near ms Hfits) as [Hnear Hmax].
      pose proof (timeScore_nonneg ms) as H0.
      pose proof (fadd_near 100 (timeScore ms) 35944) as Hadd.
      assert (Hlow : (100 <= fadd 100 (timeScore ms))%Q).
      { apply fadd_bonus; [|exact H0].
        destruct binary64_small_integers as (_ & _ & _ & _ & -> & _).
        reflexivity. }
      set (t := timeScore ms) in *. set (b := speedBonus (Some ms)) in *.
      set (s := fadd 100 t) in *.
      unfold unit_roundoff in *.
      assert (Hadd' := Hadd ltac:(lra)). clear Hadd. split; lra.
    - cbn [speedBonus]. unfold unit_roundoff. split; lra. }
  destruct Htimed as (timed & -> & Htimed & Hrange).
  assert (Hcontent : ∀ n, resultLength (aer_executionResult e) = n →
            (Qabs (fadd timed (contentScore n)
                   - (100 + speedBonus (aer_executionTimeMs e)
                      + contentBonus (aer_executionResult e)))
             <= rounding_slack)%Q).
  { intros n Hn. unfold contentBonus. rewrite Hn.
    pose proof (contentScore_near n) as Hnear.
    pose proof (contentScore_range n) as Hc.
    pose proof (fadd_near timed (contentScore n) 35966) as Hadd.
    set (c := contentScore n) in *. set (s := fadd timed c) in *.
    set (C := Qmin 20 (inject_Z (Z.of_nat n) / 100)) in *.
    set (b := speedBonus (aer_executionTimeMs e)) in *.
    unfold unit_roundoff, rounding_slack in *.
    assert (Hadd' := Hadd ltac:(lra)). clear Hadd.
    apply Qabs_Qle_condition. split; lra. }
  assert (Hnone : resultLength (aer_executionResult e) = 0%nat →
            (Qabs (timed
                   - (100 + speedBonus (aer_executionTimeMs e)
                      + contentBonus (aer_executionResult e)))
             <= rounding_slack)%Q).
  { intros Hn. unfold contentBonus. rewrite Hn.
    assert (Hz : (Qmin 20 (inject_Z (Z.of_nat 0) / 100) == 0)%Q)
      by (by vm_compute).
    rewrite Hz. set (b := speedBonus (aer_executionTimeMs e)) in *.
    unfold unit_roundoff, rounding_slack in *.
    apply Qabs_Qle_condition. split; lra. }
  destruct (aer_executionResult e) as [result|]; cbn [truthyS];
    [|by apply Hnone].
  destruct (String.eqb_spec result "") as [->|_]; [by apply Hnone|].
  destruct (0 <? length_utf16 result)%nat eqn:Hlen.
  - by apply Hcontent.
  - apply Hnone. cbn [resultLength]. apply Nat.ltb_ge in Hlen. lia.
Qed.

(** C6 fails on the code: a [COMPLETED] execution for which no
    [executionTimeMs] was recorded (what [distributeToAgents] produces)
    and that returned a 2-character result scores 100.02, below 101; the
    formula of the claim gives more than the code's score for every time
    below 50 minutes, and 150.02 for the time 0, which the code also
    scores 100.02. *)
Lemma untimed_execution_earns_no_speed_bonus :
  (calculateResultScore (completed_execution "alice" None "ok") < 101)%Q
  ∧ (∀ ms, (ms < 3000000)%Z →
           (calculateResultScore (completed_execution "alice" None "ok")
            < claimedResultScore ms 2)%Q)
  ∧ (calculateResultScore (completed_execution "alice" (Some 0%Z) "ok")
     < 101)%Q
  ∧ (claimedResultScore 0 2 == 150 + (2 # 100))%Q
  ∧ ¬ (Qabs (calculateResultScore (completed_execution "alice" (Some 0%Z) "ok")
             - claimedResultScore 0 2) <= rounding_slack)%Q.
Proof.
  assert (Hcode : (calculateResultScore (completed_execution "alice" None "ok")
                   < 101)%Q) by (by vm_compute).
  split; [exact Hcode|].
  split; cycle 1.
  { split; [by vm_compute|]. split; [by vm_compute|].
    vm_compute. intros H. by apply H. }
  intros ms Hms.
  assert (Hcode' : (calculateResultScore (completed_execution "alice" None "ok")
                    < 100 + (2 # 100) + (1 # 60000))%Q) by (by vm_compute).
  assert (Hcontent : (Qmin 20 (inject_Z (Z.of_nat 2) / 100) == 2 # 100)%Q)
    by (by vm_compute).
  unfold claimedResultScore. rewrite Hcontent.
  assert (Hpos : (1 # 60000 <= 50 - inject_Z ms / 60000)%Q).
  { assert (Hms' : (ms <= 2999999)%Z) by lia. rewrite Zle_Qle in Hms'.
    change (inject_Z 2999999) with (2999999 # 1)%Q in Hms'.
    unfold Qdiv. change (/ 60000)%Q with (1 # 60000)%Q. lra. }
  pose proof (Q.le_max_r 0 (50 - inject_Z ms / 60000)) as Hmax.
  set (score := calculateResultScore _) in *. lra.
Qed.

Lemma speedBonus_saturates (ms : Z) :
  (3000000 <= ms)%Z → (speedBonus (Some ms) == 0)%Q.
Proof.
  intros Hms. unfold speedBonus. apply Q.max_l. rewrite Zle_Qle in Hms.
  change (inject_Z 3000000) with (3000000 # 1)%Q in Hms.
  unfold Qdiv. change (/ 60000)%Q with (1 # 60000)%Q. lra.
Qed.

Lemma contentBonus_saturates (s : string) :
  (2000 <= length_utf16 s)%nat → (contentBonus (Some s) == 20)%Q.
Proof.
  intros Hlen. unfold contentBonus, resultLength. apply Q.min_l.
  assert (H : (2000 <= Z.of_nat (length_utf16 s))%Z) by lia.
  rewrite Zle_Qle in H. change (inject_Z 2000) with (2000 # 1)%Q in H.
  unfold Qdiv. change (/ 100)%Q with (1 # 100)%Q. lra.
Qed.

Lemma truthyZ_fixed (x : option Z) : x ≠ Some 0%Z → truthyZ x = x.
Proof.
  destruct x as [z|]; [|done]. cbn. intros H.
  destruct (Z.eqb_spec z 0) as [->|_]; done.
Qed.

Lemma contentBonus_truthy (x : option string) :
  contentBonus (truthyS x) = contentBonus x.
Proof.
  destruct x as [s|]; [|done]. cbn [truthyS].
  by destruct (String.eqb_spec s "") as [->|_].
Qed.

(** The score of a stored [COMPLETED] row, up to rounding *)
Lemma result_score_near (r : JobDistributionAgent) :
  workStatus r = COMPLETED →
  executionTimeMs r ≠ Some 0%Z →
  fits_int4 (executionTimeMs r) = true →
  (Qabs (result_score r
         - (100 + speedBonus (executionTimeMs r)
            + contentBonus (executionResult r)))
   <= rounding_slack)%Q.
Proof.
  intros Hdone Htime Hfits.
  pose proof (calculateResultScore_near (toAgentExecutionResult nobody r)) as H.
  cbn [aer_workStatus aer_executionTimeMs aer_executionResult
       toAgentExecutionResult] in H.
  rewrite (truthyZ_fixed _ Htime), contentBonus_truthy in H. by apply H.
Qed.

(** Both bonuses saturated: the score is exactly 120. *)
Lemma result_score_saturated (r : JobDistributionAgent) (ms : Z) (s : string) :
  workStatus r = COMPLETED →
  executionTimeMs r = Some ms →
  (3000000 <= ms)%Z →
  executionResult r = Some s →
  (2000 <= length_utf16 s)%nat →
  (result_score r == 120)%Q.
Proof.
  intros Hdone Htime Hms Hres Hlen. unfold result_score.
  rewrite calculateResultScore_steps.
  cbn [aer_workStatus aer_executionTimeMs aer_executionResult
       toAgentExecutionResult].
  rewrite Hdone, Htime, Hres. cbn [AgentWorkStatus_eqb]. cbv zeta.
  assert (ms ≠ 0%Z) as Hnz by lia.
  rewrite !truthyZ_nonzero by done.
  assert (Hne : s ≠ "") by (intros ->; cbn in Hlen; lia).
  assert (Htruthy : truthyS (truthyS (Some s)) = Some s).
  { cbn. destruct (String.eqb_spec s ""); [done|]. cbn.
    by destruct (String.eqb_spec s ""). }
  rewrite Htruthy.
  assert ((0 <? length_utf16 s)%nat = true) as -> by (apply Nat.ltb_lt; lia).
  destruct binary64_small_integers as (_ & _ & _ & _ & H100 & H120 & _).
  unfold fadd.
  rewrite (binary64_comp (100 + timeScore ms) 100)
    by (rewrite (timeScore_saturates ms Hms); ring).
  rewrite H100.
  rewrite (binary64_comp (100 + contentScore (length_utf16 s)) 120)
    by (rewrite (contentScore_saturates _ Hlen); ring).
  by rewrite H120.
Qed.

(** C6, as the code has it.  The score of a [COMPLETED] assignment whose
    stored [executionTimeMs] is absent or not zero is
    100 + speed bonus + content bonus up to the rounding of doubles, where
    the speed bonus is [max(0, 50 - executionTimeMs / 60000)] for a
    recorded time (0 from 50 minutes on) and 0 for an absent one, and the
    content bonus is [min(20, length / 100)] of the result text (20 from
    2000 characters on, 0 without a result).  Under [best_scored],
    selection records as winner the agent of the [COMPLETED] assignment
    with the highest computed score, the first such in table order;
    10000 ms with 500 characters beats 600000 ms with 50 characters in
    either order. *)
Theorem best_scored_selects_highest (w : World) (d : string)
    (record : JobDistributionRecord) :
  keys_unique (store w) →
  agents_resolve (store w) →
  db_jobDistributionRecord (store w) !! d = Some record →
  is_Some (db_job (store w) !! rec_jobId record) →
  (∃ r, In r (assignments_of d (store w)) ∧ workStatus r = COMPLETED) →
  (∀ r, workStatus r = COMPLETED →
        executionTimeMs r ≠ Some 0%Z →
        fits_int4 (executionTimeMs r) = true →
        (Qabs (result_score r
               - (100 + speedBonus (executionTimeMs r)
                  + contentBonus (executionResult r)))
         <= rounding_slack)%Q)
  ∧ (∀ ms, (3000000 <= ms)%Z →
           (speedBonus (Some ms) == 0)%Q ∧ (timeScore ms == 0)%Q)
  ∧ (∀ s, (2000 <= length_utf16 s)%nat →
          (contentBonus (Some s) == 20)%Q
          ∧ (contentScore (length_utf16 s) == 20)%Q)
  ∧ (∀ r ms s, workStatus r = COMPLETED →
               executionTimeMs r = Some ms → (3000000 <= ms)%Z →
               executionResult r = Some s → (2000 <= length_utf16 s)%nat →
               (result_score r == 120)%Q)
  ∧ (∃ w' winner before after,
       selectBestAgentAndComplete d best_scored w = (w', Ok tt)
       ∧ completed_rows d (store w) = before ++ winner :: after
       ∧ recorded_winner d w' = Some (agentId winner)
       ∧ jobDistributionId winner = d
       ∧ workStatus winner = COMPLETED
       ∧ (∀ r, In r before → (result_score r < result_score winner)%Q)
       ∧ (∀ r, In r after → (result_score r <= result_score winner)%Q))
  ∧ (∀ agents, agents = [alice; bob] ∨ agents = [bob; alice] →
       ∃ A B,
         assignment "dist-1" "alice" (demo_results agents) = Some A
         ∧ assignment "dist-1" "bob" (demo_results agents) = Some B
         ∧ (Qabs (result_score A - (100 + (50 - (1 # 6)) + 5))
            <= rounding_slack)%Q
         ∧ (result_score B == 100 + 40 + (1 # 2))%Q
         ∧ recorded_winner "dist-1"
             (after (selectBestAgentAndComplete "dist-1" best_scored)
                (demo_results agents))
           = Some "alice").
Proof.
  intros Huniq Hagents Hrec Hjob Hdone. split_and!.
  - apply result_score_near.
  - intros ms Hms. split; [by apply speedBonus_saturates|].
    by apply timeScore_saturates.
  - intros s Hs. split; [by apply contentBonus_saturates|].
    by apply contentScore_saturates.
  - apply result_score_saturated.
  - destruct (selection_commits w d best_scored record Huniq Hagents Hrec
                Hjob Hdone)
      as (w' & winner & agent & job & before & after & Hrun & Hsplit & Hagent
          & _ & Hstore & [Hbefore Hafter] & _).
    assert (Hwin : In winner (completed_rows d (store w))).
    { rewrite Hsplit. apply in_or_app. right. by left. }
    apply completed_rows_In in Hwin as (Hin & Hd & Hst).
    exists w', winner, before, after. split_and!; try done.
    unfold recorded_winner. rewrite Hstore. cbn. by rewrite lookup_insert_eq.
  - intros agents [-> | ->]; eexists _, _;
      (split; [vm_compute; reflexivity|]);
      (split; [vm_compute; reflexivity|]);
      (split; [by vm_compute|]);
      (split; [by vm_compute|]); vm_compute; reflexivity.
Qed.

(** Two results that the exact formula ties at 150 and the doubles tell
    apart: 600 ms with 1 character scores 150, 4800 ms with 8 characters
    scores [150 + 2^-45], and [best_scored] selects the second although it
    comes later. *)
Lemma best_scored_follows_doubles :
  let A := completed_execution "A" (Some 600%Z) (text 1) in
  let B := completed_execution "B" (Some 4800%Z) (text 8) in
  (claimedResultScore 600 1 == claimedResultScore 4800 8)%Q
  ∧ (calculateResultScore A == 150)%Q
  ∧ (calculateResultScore B == 150 + (1 # 35184372088832))%Q
  ∧ selectAgent best_scored [A; B] = Some B.
Proof. vm_compute. split_and!; reflexivity. Qed.


Lemma Set_of_size (l : list string) :
  length (Set_of l) = size (tagSet l).
Proof.
  unfold Set_of, tagSet.
  rewrite <- (size_list_to_set (C := gset string) (nodup String.string_dec l)).
  - f_equal. apply set_eq. intros x. rewrite !elem_of_list_to_set.
    rewrite !list_elem_of_In. apply nodup_In.
  - apply NoDup_ListNoDup, NoDup_nodup.
Qed.

Lemma Set_has_In (s : list string) (x : string) :
  Set_has s x = true ↔ In x s.
Proof.
  unfold Set_has. rewrite existsb_exists. split.
  - intros (y & Hy & Heq). apply String.eqb_eq in Heq. by subst.
  - intros Hx. exists x. split; [exact Hx|apply String.eqb_refl].
Qed.

Lemma intersection_size (agentTags jobTags : list string) :
  length (Set_of (List.filter (Set_has (Set_of agentTags)) (Set_of jobTags)))
  = size (tagSet jobTags ∩ tagSet agentTags).
Proof.
  rewrite Set_of_size. f_equal. unfold tagSet. apply set_eq. intros x.
  rewrite elem_of_intersection, !elem_of_list_to_set, !list_elem_of_In.
  rewrite filter_In, Set_has_In. unfold Set_of. rewrite !nodup_In. tauto.
Qed.

Lemma skillLevelBonus_range (agent : Agent) (job : Job) :
  (0 <= skillLevelBonus agent job <= 2 # 10)%Q.
Proof.
  unfold skillLevelBonus.
  destruct (String.eqb _ _); [split; [discriminate|apply Qle_refl]|].
  destruct (_ || _); split; discriminate.
Qed.

Lemma calculateSkillMatch_capped (agent : Agent) (job : Job) :
  (calculateSkillMatch agent job
   == Qmin 1 (tagRatio agent job + skillLevelBonus agent job))%Q.
Proof.
  unfold calculateSkillMatch, tagRatio. rewrite intersection_size, !Set_of_size.
  destruct (decide (size (tagSet (job_tags job)) = 0%nat)) as [Hz|Hnz].
  - rewrite Hz. cbn [Nat.eqb]. symmetry. apply Q.min_l.
    pose proof (skillLevelBonus_range agent job). lra.
  - apply Nat.eqb_neq in Hnz. rewrite Hnz. fold (skillLevelBonus agent job).
    apply Q.min_comm.
Qed.


(** C10.  The scorer leaves the interval its own comments give.  The
    comments of [calculateAgentScore] and of the [AgentScore] interface
    put every factor in (0-1); [Math.min(agent.reputation / 5.0, 1.0)] has
    no lower bound and the success rate is taken as stored.  With
    reputation -5 the composite score is -0.10, and with success rate 3 it
    is 1.50. *)
Lemma score_leaves_unit_interval :
  (∃ q, score_of disreputable demo_job demo_world = Some q
        ∧ (q == - (1 # 10))%Q ∧ ¬ in_unit q)
  ∧ (∃ q, score_of overrated demo_job demo_world = Some q
          ∧ (q == 15 # 10)%Q ∧ ¬ in_unit q).
Proof.
  split; eexists; (split; [vm_compute; reflexivity|]);
    (split; [vm_compute; reflexivity|]); unfold in_unit; intros [H1 H2].
  - vm_compute in H1. apply H1. reflexivity.
  - vm_compute in H2. apply H2. reflexivity.
Qed.

Lemma tagRatio_range (agent : Agent) (job : Job) : in_unit (tagRatio agent job).
Proof.
  unfold in_unit, tagRatio.
  destruct (decide _) as [?|Hnz]; [split; discriminate|].
  set (J := tagSet (job_tags job)) in *.
  set (A := tagSet (agent_tags agent)).
  assert (Hsub : (size (J ∩ A) <= size J)%nat).
  { apply subseteq_size, intersection_subseteq_l. }
  assert (Hpos : (0 < inject_Z (Z.of_nat (size J)))%Q).
  { change 0%Q with (inject_Z 0). rewrite <- Zlt_Qlt. lia. }
  split.
  - apply Qle_shift_div_l; [exact Hpos|]. rewrite Qmult_0_l.
    change 0%Q with (inject_Z 0). rewrite <- Zle_Qle. lia.
  - apply Qle_shift_div_r; [exact Hpos|]. rewrite Qmult_1_l.
    rewrite <- Zle_Qle. lia.
Qed.

Lemma calculateSkillMatch_range (agent : Agent) (job : Job) :
  in_unit (calculateSkillMatch agent job).
Proof.
  unfold in_unit. rewrite (calculateSkillMatch_capped agent job).
  pose proof (tagRatio_range agent job) as [Hlo Hhi].
  pose proof (skillLevelBonus_range agent job) as [Hb _].
  split; [apply Q.min_glb; lra|apply Q.le_min_l].
Qed.

Lemma availabilitySteps_range (n : Z) : in_unit (availabilitySteps n).
Proof.
  unfold in_unit, availabilitySteps.
  repeat match goal with |- context [if ?b then _ else _] => destruct b end;
    split; discriminate.
Qed.

Lemma calculateAvailabilityScore_run (a : string) (w : World) :
  ∃ w' q, calculateAvailabilityScore a w = (w', Ok q) ∧ in_unit q
          ∧ store w' = store w.
Proof.
  unfold calculateAvailabilityScore, jobDistributionAgent_count. run.
  eexists _, _. split_and!; [reflexivity| |reflexivity].
  apply availabilitySteps_range.
Qed.

(** Where the scorer keeps to the interval.  For an agent whose stored
    reputation is not negative and whose stored success rate lies in
    [0, 1], scoring succeeds, the four factors lie in [0, 1], the composite
    score is their sum weighted 0.35 / 0.25 / 0.25 / 0.15, and it lies in
    [0, 1]. *)
Theorem calculateAgentScore_in_unit (w : World) (agent : Agent) (job : Job) :
  (0 <= reputation agent)%Q →
  in_unit (agent_successRate agent) →
  ∃ w' s,
    calculateAgentScore agent job w = (w', Ok s)
    ∧ f_skillMatch (factors s) = calculateSkillMatch agent job
    ∧ f_reputation (factors s) = Qmin (reputation agent / 5) 1
    ∧ f_successRate (factors s) = agent_successRate agent
    ∧ in_unit (f_skillMatch (factors s))
    ∧ in_unit (f_reputation (factors s))
    ∧ in_unit (f_successRate (factors s))
    ∧ in_unit (f_availability (factors s))
    ∧ (score s == (35 # 100) * f_skillMatch (factors s)
                  + (25 # 100) * f_reputation (factors s)
                  + (25 # 100) * f_successRate (factors s)
                  + (15 # 100) * f_availability (factors s))%Q
    ∧ in_unit (score s).
Proof.
  intros Hrep Hrate.
  destruct (calculateAvailabilityScore_run (agent_id agent) w)
    as (w' & q & Hrun & Hq & _).
  unfold calculateAgentScore. cbv [bind]. rewrite Hrun. cbv [ret].
  eexists _, _. split; [reflexivity|]. cbn [factors score f_skillMatch
    f_reputation f_successRate f_availability].
  pose proof (calculateSkillMatch_range agent job) as Hskill.
  assert (Hr : in_unit (Qmin (reputation agent / 5) 1)).
  { split; [|apply Q.le_min_r]. apply Q.min_glb; [|discriminate].
    apply Qle_shift_div_l; [reflexivity|]. lra. }
  split_and!; try done.
  - ring.
  - unfold in_unit in *. lra.
Qed.

(** ** The theorems at the fixtures *)

Lemma agents_resolve_checked (s : DB) :
  forallb (fun r => match db_agent s !! agentId r with
                    | Some _ => true
                    | None => false
                    end) (db_jobDistributionAgent s) = true →
  agents_resolve s.
Proof.
  intros H. apply Forall_forall. intros r Hr.
  rewrite forallb_forall in H. apply list_elem_of_In in Hr.
  specialize (H r Hr). destruct (db_agent s !! agentId r); [eauto|discriminate].
Qed.

Lemma completed_row_exists (rows : list JobDistributionAgent) :
  existsb (fun r => AgentWorkStatus_eqb (workStatus r) COMPLETED) rows = true →
  ∃ r, In r rows ∧ workStatus r = COMPLETED.
Proof.
  intros H. apply existsb_exists in H as (r & Hin & Hr). exists r.
  split; [exact Hin|]. by destruct (workStatus r).
Qed.

Lemma keys_unique_checked (s : DB) :
  bool_decide (NoDup (map assignment_key (db_jobDistributionAgent s))) = true →
  keys_unique s.
Proof. apply bool_decide_eq_true_1. Qed.

(** C1 fails on the code as an either/or: [job-1] is stored and already has
    the distribution [dist-1]; opening it once more does not fail with the
    job-not-found error, and it writes nothing either: the unique key on
    [jobId] rejects the new record and the transaction is undone. *)
Lemma second_opening_is_rejected :
  is_Some (db_job (store demo_opened) !! "job-1")
  ∧ [alice; bob] ≠ []
  ∧ ∃ w', createDistributionRecord "job-1" [alice; bob] demo_opened
          = (w', Err UniqueConstraintFailed)
          ∧ UniqueConstraintFailed ≠ JobNotFound "job-1"
          ∧ store w' = store demo_opened.
Proof.
  split; [eexists; vm_compute; reflexivity|].
  split; [discriminate|].
  eexists. split; [vm_compute; reflexivity|]. split; [discriminate|].
  vm_compute. reflexivity.
Qed.

Lemma createDistributionRecord_opens_demo :
  [alice; bob] ≠ []
  ∧ references_resolve (store demo_world)
  ∧ ∃ w' record,
      createDistributionRecord "job-1" [alice; bob] demo_world = (w', Ok record).
Proof.
  assert (H1 : [alice; bob] ≠ []) by discriminate.
  assert (H2 : references_resolve (store demo_world)) by constructor.
  split; [exact H1|]. split; [exact H2|].
  destruct (createDistributionRecord_opens demo_world "job-1" [alice; bob] H1 H2)
    as [_ Hcommit].
  apply Hcommit.
  - exists demo_job. vm_compute. reflexivity.
  - vm_compute. reflexivity.
  - vm_compute. reflexivity.
  - apply NoDup_cons. split; [|apply NoDup_singleton].
    intros H. apply list_elem_of_In in H. destruct H as [H|[]]. discriminate.
  - constructor; [exists alice; vm_compute; reflexivity|].
    constructor; [exists bob; vm_compute; reflexivity|]. constructor.
Defined.

Lemma selectBestAgentAndComplete_resolves_demo :
  ∃ w' winner record',
    selectBestAgentAndComplete "dist-1" first_completed demo_delivered
    = (w', Ok tt)
    ∧ db_jobDistributionRecord (store w') !! "dist-1" = Some record'
    ∧ assignedAgentId record' = Some (agentId winner)
    ∧ job_status <$> db_job (store w') !! "job-1" = Some JOB_COMPLETED.
Proof.
  destruct (selectBestAgentAndComplete_resolves demo_delivered "dist-1"
              first_completed demo_record)
    as (w' & winner & agent & now & Hrun & _ & _ & _
        & (record' & Hrec & Hid & _) & Hjob & _).
  - apply keys_unique_checked. vm_compute. reflexivity.
  - apply agents_resolve_checked. vm_compute. reflexivity.
  - vm_compute. reflexivity.
  - eexists. vm_compute. reflexivity.
  - apply completed_row_exists. vm_compute. reflexivity.
  - exists w', winner, record'. split_and!; [exact Hrun|exact Hrec|exact Hid|].
    exact Hjob.
Defined.


Lemma handleDistributionTimeout_idempotent_demo :
  keys_unique (store demo_delivered)
  ∧ let (w1, r1) := handleDistributionTimeout "dist-1" demo_delivered in
    let (w2, r2) := handleDistributionTimeout "dist-1" w1 in
    db_jobDistributionAgent (store w2) = db_jobDistributionAgent (store w1)
    ∧ (r2 = r1 ∨ (r1 = Err TransactionExpired ∧ r2 = Ok tt)).
Proof.
  assert (H : keys_unique (store demo_delivered))
    by (apply keys_unique_checked; vm_compute; reflexivity).
  split; [exact H|].
  pose proof (handleDistributionTimeout_idempotent "dist-1" demo_delivered H)
    as Hthm.
  destruct (handleDistributionTimeout "dist-1" demo_delivered) as [w1 r1].
  destruct (handleDistributionTimeout "dist-1" w1) as [w2 r2].
  destruct Hthm as (_ & Hrows & _ & _ & Hres). split; [exact Hrows|exact Hres].
Defined.


Lemma best_scored_selects_highest_demo :
  ∃ w' winner,
    selectBestAgentAndComplete "dist-1" best_scored (demo_results [bob; alice])
    = (w', Ok tt)
    ∧ recorded_winner "dist-1" w' = Some (agentId winner)
    ∧ workStatus winner = COMPLETED.
Proof.
  destruct (best_scored_selects_highest (demo_results [bob; alice]) "dist-1"
              demo_record)
    as (_ & _ & _ & _ & (w' & winner & before & after & Hrun & _ & Hrec & _
                         & Hdone & _) & _).
  - apply keys_unique_checked. vm_compute. reflexivity.
  - apply agents_resolve_checked. vm_compute. reflexivity.
  - vm_compute. reflexivity.
  - eexists. vm_compute. reflexivity.
  - apply completed_row_exists. vm_compute. reflexivity.
  - exists w', winner. split_and!; [exact Hrun|exact Hrec|exact Hdone].
Defined.


Lemma updateResponseCount_counts_demo :
  ∃ w' record',
    updateResponseCount "dist-1" demo_delivered = (w', Ok tt)
    ∧ db_jobDistributionRecord (store w') !! "dist-1" = Some record'
    ∧ responseCount record' = 2%Z.
Proof.
  destruct (updateResponseCount_counts demo_delivered "dist-1" demo_record)
    as (w' & n & record' & Hrun & Hn & _ & Hrec & Hcount & _).
  - vm_compute. reflexivity.
  - exists w', record'. split_and!; [exact Hrun|exact Hrec|].
    rewrite Hcount, Hn. vm_compute. reflexivity.
Defined.


Lemma calculateAgentScore_in_unit_demo :
  ∃ w' s, calculateAgentScore alice demo_job demo_world = (w', Ok s)
          ∧ in_unit (score s).
Proof.
  destruct (calculateAgentScore_in_unit demo_world alice demo_job)
    as (w' & s & Hrun & _ & _ & _ & _ & _ & _ & _ & _ & Hunit).
  - vm_compute. discriminate.
  - split; vm_compute; discriminate.
  - exists w', s. split; [exact Hrun|exact Hunit].
Defined.

(** * Further properties of the services *)

(** ** Selection without a completed assignment *)

Lemma executions_of_status (agents : gmap string Agent)
    (rows : list JobDistributionAgent) (es : list AgentExecutionResult) :
  executions_of agents rows = Ok es →
  map aer_workStatus es = map workStatus rows
  ∧ map aer_agentId es = map agentId rows
  ∧ map aer_distributionId es = map jobDistributionId rows.
Proof.
  revert es. induction rows as [|r rows IH]; intros es; cbn.
  - by intros [= <-].
  - destruct (agents !! agentId r) as [agent|]; [|discriminate].
    destruct (executions_of agents rows) as [es'|]; [|discriminate].
    intros [= <-]. destruct (IH es' eq_refl) as (H1 & H2 & H3).
    cbn. by rewrite H1, H2, H3.
Qed.

Lemma filter_is_completed_none (es : list AgentExecutionResult) :
  Forall (fun s => s ≠ COMPLETED) (map aer_workStatus es) →
  List.filter is_completed es = [].
Proof.
  intros H. apply filter_none. rewrite Forall_map in H.
  eapply Forall_impl; [exact H|]. intros e He. unfold is_completed. cbn in He.
  by destruct (aer_workStatus e).
Qed.

Lemma agents_resolve_assignments (d : string) (s : DB) :
  agents_resolve s →
  Forall (fun r => is_Some (db_agent s !! agentId r)) (assignments_of d s).
Proof.
  unfold agents_resolve, assignments_of. rewrite !Forall_forall.
  intros H r Hr. apply H. apply list_elem_of_In in Hr.
  apply filter_In in Hr as [Hr _]. by apply list_elem_of_In.
Qed.

(** X1.  Selecting a winner when no assignment of the distribution is
    [COMPLETED] does nothing: the call resolves and the world, clock
    included, is as before.  For an unknown distribution it rejects with
    the not-found error, again without a write. *)
Theorem selectBestAgentAndComplete_without_completion (w : World) (d : string)
    (strategy : Strategy) :
  agents_resolve (store w) →
  Forall (fun r => workStatus r ≠ COMPLETED) (assignments_of d (store w)) →
  selectBestAgentAndComplete d strategy w
  = (w, match db_jobDistributionRecord (store w) !! d with
        | Some _ => Ok tt
        | None => Err (DistributionNotFound d)
        end).
Proof.
  intros Hagents Hnone.
  unfold selectBestAgentAndComplete, getDistributionDetail,
    jobDistributionRecord_findUnique.
  rewrite !bind_run. cbn [query].
  destruct (db_jobDistributionRecord (store w) !! d) as [record|];
    [|reflexivity].
  rewrite !bind_run. cbn [query]. rewrite bind_run, traverse_toExecution.
  fold (assignments_of d (store w)).
  destruct (executions_of_resolved (db_agent (store w))
              (assignments_of d (store w))) as (es & Hes & _).
  { by apply agents_resolve_assignments. }
  rewrite Hes. cbn [ret agentExecutions].
  rewrite filter_is_completed_none; [reflexivity|].
  destruct (executions_of_status _ _ _ Hes) as (-> & _).
  by rewrite Forall_map.
Qed.

(** ** What the timeout sweep leaves *)

Lemma executions_of_filter_completed (agents : gmap string Agent)
    (rows : list JobDistributionAgent) (es : list AgentExecutionResult) :
  executions_of agents rows = Ok es →
  length (List.filter is_completed es)
  = length (List.filter
              (fun r => AgentWorkStatus_eqb (workStatus r) COMPLETED) rows).
Proof.
  revert es. induction rows as [|r rows IH]; intros es; cbn.
  - by intros [= <-].
  - destruct (agents !! agentId r) as [agent|]; [|discriminate].
    destruct (executions_of agents rows) as [es'|]; [|discriminate].
    intros [= <-]. cbn. unfold is_completed at 1. cbn.
    destruct (AgentWorkStatus_eqb (workStatus r) COMPLETED); cbn;
      by rewrite (IH es' eq_refl).
Qed.

Lemma existsb_filter_length {A} (p : A → bool) (l : list A) :
  existsb p l = negb (length (List.filter p l) =? 0)%nat.
Proof.
  induction l as [|x l IH]; [reflexivity|]. cbn.
  destruct (p x); cbn; [reflexivity|exact IH].
Qed.

Lemma completed_view_length (d : string) (s : DB)
    (completed : list AgentExecutionResult) :
  completed_view (db_agent s) (assignments_of d s) = Ok completed →
  (length completed =? 0)%nat
  = negb (existsb (is_completed_in d) (db_jobDistributionAgent s)).
Proof.
  unfold completed_view.
  destruct (executions_of _ _) as [es|] eqn:Hes; [|discriminate].
  intros [= <-]. rewrite (executions_of_filter_completed _ _ _ Hes).
  unfold assignments_of. rewrite filter_filter_and.
  rewrite existsb_filter_length, negb_involutive. reflexivity.
Qed.

Lemma completed_view_Err (agents : gmap string Agent)
    (rows : list JobDistributionAgent) (e : Error) :
  completed_view agents rows = Err e → e = TypeError.
Proof.
  unfold completed_view.
  induction rows as [|r rows IH]; cbn [executions_of]; [discriminate|].
  destruct (agents !! agentId r); [|by intros [= <-]].
  destruct (executions_of agents rows); [discriminate|].
  intros [= <-]. by apply IH.
Qed.

(** Under the unique key an open row of a distribution is a loser to every
    [COMPLETED] row of it. *)
Lemma open_is_loser (d : string) (rows : list JobDistributionAgent)
    (r0 r : JobDistributionAgent) :
  NoDup (map assignment_key rows) →
  In r0 rows → jobDistributionId r0 = d → workStatus r0 = COMPLETED →
  In r rows → is_open_in d r = true →
  is_loser_in d (agentId r0) r = true.
Proof.
  intros Hnd Hin0 Hd0 Hs0 Hin Hopen. unfold is_loser_in. rewrite Hopen.
  cbn [andb]. apply negb_true_iff, not_true_is_false. intros Heq.
  apply String.eqb_eq in Heq.
  unfold is_open_in in Hopen. apply andb_true_iff in Hopen as [Hd Hst].
  apply in_distribution_true in Hd.
  assert (r = r0) as ->.
  { apply (NoDup_map_eq assignment_key rows); try done.
    unfold assignment_key. by rewrite Hd, Hd0, Heq. }
  rewrite Hs0 in Hst. discriminate.
Qed.

Lemma sweep_lookup (d : string) (now : Z) (rows : list JobDistributionAgent)
    (i : nat) (r : JobDistributionAgent) :
  rows !! i = Some r →
  sweep d now rows !! i
  = Some (if is_open_in d r then timeout_assignment now r else r).
Proof.
  intros Hi. unfold sweep. change (map ?f ?l) with (f <$> l).
  by rewrite list_lookup_fmap, Hi.
Qed.

Lemma cancel_losers_lookup (d a : string) (now : Z)
    (rows : list JobDistributionAgent) (i : nat) (r : JobDistributionAgent) :
  rows !! i = Some r →
  cancel_losers d a now rows !! i
  = Some (if is_loser_in d a r then cancel_assignment now r else r).
Proof.
  intros Hi. unfold cancel_losers. change (map ?f ?l) with (f <$> l).
  rewrite list_lookup_fmap, Hi. cbn [fmap option_fmap option_map].
  unfold is_loser_in, is_open_in.
  by rewrite <- !andb_assoc,
    (andb_comm (status_in _ _) (negb _)).
Qed.

(** X2.  Under the unique key of the assignments a timeout sweep ends in
    one of three ways.  It resolves: every row is where it was, every row
    of the distribution that was [ASSIGNED] or [WORKING] is [TIMEOUT] with
    the message of the sweep and the first clock reading in [completedAt],
    its other columns and every other row as before; the job is
    [COMPLETED] when the distribution had a [COMPLETED] assignment and
    [EXPIRED] when it had none, and in the first case no row was open, so
    no row changed.  It rejects because its transaction expired: the
    distribution had a [COMPLETED] row and an open one, and the store is
    the one the selection committed: the open rows are [CANCELLED] with the
    message of the selection, none is [TIMEOUT], the record names the
    winner and the job is [COMPLETED].  It rejects for another reason and
    the store is as it was. *)
Theorem handleDistributionTimeout_closes (w : World) (d : string) :
  keys_unique (store w) →
  match handleDistributionTimeout d w with
  | (w', Ok _) =>
      ∃ record,
        db_jobDistributionRecord (store w) !! d = Some record
        ∧ length (db_jobDistributionAgent (store w'))
          = length (db_jobDistributionAgent (store w))
        ∧ (∀ i r, db_jobDistributionAgent (store w) !! i = Some r →
             ∃ r', db_jobDistributionAgent (store w') !! i = Some r'
                   ∧ if is_open_in d r
                     then workStatus r' = TIMEOUT
                          ∧ completedAt r' = Some (wallclock w (ticks w))
                          ∧ errorMessage r'
                            = Some "Task execution timeout"%string
                          ∧ (jobDistributionId r', agentId r', assignedAt r',
                             executionResult r', startedAt r', progress r',
                             executionTimeMs r', retryCount r')
                            = (jobDistributionId r, agentId r, assignedAt r,
                               executionResult r, startedAt r, progress r,
                               executionTimeMs r, retryCount r)
                          ∧ existsb (is_completed_in d)
                              (db_jobDistributionAgent (store w)) = false
                     else r' = r)
        ∧ job_status <$> db_job (store w') !! rec_jobId record
          = Some (if existsb (is_completed_in d)
                       (db_jobDistributionAgent (store w))
                  then JOB_COMPLETED else EXPIRED)
        ∧ db_agent (store w') = db_agent (store w)
        ∧ db_agentPerformance (store w') = db_agentPerformance (store w)
        ∧ db_executionLog (store w') = db_executionLog (store w)
  | (w', Err TransactionExpired) =>
      ∃ record winner,
        db_jobDistributionRecord (store w) !! d = Some record
        ∧ In winner (db_jobDistributionAgent (store w))
        ∧ is_completed_in d winner = true
        ∧ existsb (is_open_in d) (db_jobDistributionAgent (store w)) = true
        ∧ length (db_jobDistributionAgent (store w'))
          = length (db_jobDistributionAgent (store w))
        ∧ (∀ i r, db_jobDistributionAgent (store w) !! i = Some r →
             ∃ r', db_jobDistributionAgent (store w') !! i = Some r'
                   ∧ if is_open_in d r
                     then workStatus r' = CANCELLED
                          ∧ completedAt r'
                            = Some (wallclock w (S (S (ticks w))))
                          ∧ errorMessage r'
                            = Some "Task completed by another agent"%string
                          ∧ (jobDistributionId r', agentId r', assignedAt r',
                             executionResult r', startedAt r', progress r',
                             executionTimeMs r', retryCount r')
                            = (jobDistributionId r, agentId r, assignedAt r,
                               executionResult r, startedAt r, progress r,
                               executionTimeMs r, retryCount r)
                     else r' = r)
        ∧ assignedAgentId <$> db_jobDistributionRecord (store w') !! d
          = Some (Some (agentId winner))
        ∧ job_status <$> db_job (store w') !! rec_jobId record
          = Some JOB_COMPLETED
        ∧ db_agent (store w') = db_agent (store w)
        ∧ db_agentPerformance (store w') = db_agentPerformance (store w)
        ∧ db_executionLog (store w') = db_executionLog (store w)
  | (w', Err _) => store w' = store w
  end.
Proof.
  intros Huniq.
  pose proof (handleDistributionTimeout_outcome d w) as Hout.
  rewrite timeout_outcome_branches in Hout.
  destruct (handleDistributionTimeout d w) as [w' r]. unfold outcome in Hout.
  cbn [fst snd] in Hout.
  destruct (db_jobDistributionRecord (store w) !! d) as [record|] eqn:Hrec;
    [|by injection Hout as -> ->].
  destruct (existsb (is_completed_in d) (db_jobDistributionAgent (store w)))
    eqn:Hex.
  - destruct (completed_view (db_agent (store w)) (assignments_of d (store w)))
      as [completed|e] eqn:Hview.
    2: { apply completed_view_Err in Hview as ->. by injection Hout as -> ->. }
    rewrite (completed_view_length _ _ _ Hview), Hex in Hout. cbn [negb] in Hout.
    destruct (selectAgent first_completed completed) as [winner|] eqn:Hsel;
      [|by injection Hout as -> ->].
    destruct (db_job (store w) !! rec_jobId record) as [job|];
      [|by injection Hout as -> ->].
    assert (Hne : completed ≠ []).
    { intros ->. pose proof (completed_view_length _ _ _ Hview) as Hlen.
      rewrite Hex in Hlen. discriminate Hlen. }
    destruct (selectAgent_In first_completed completed Hne)
      as (e & He & Hin). rewrite Hsel in He. injection He as <-.
    clear Hsel. rename Hin into Hsel.
    destruct (completed_view_row _ _ _ _ Hview Hsel) as (r0 & Hin0 & Hid0 & Hs0).
    unfold assignments_of in Hin0. apply filter_In in Hin0 as [Hin0 Hd0].
    pose proof Hd0 as Hd0'. apply in_distribution_true in Hd0'.
    assert (Hloser : ∀ i x, db_jobDistributionAgent (store w) !! i = Some x →
              is_loser_in d (aer_agentId winner) x = is_open_in d x).
    { intros i x Hi. destruct (is_open_in d x) eqn:Hopen.
      - rewrite <- Hid0. apply (open_is_loser d _ r0 x Huniq); try done.
        apply list_elem_of_In. eapply list_elem_of_lookup_2. exact Hi.
      - unfold is_loser_in. by rewrite Hopen. }
    destruct (existsb (is_loser_in d (aer_agentId winner))
                (db_jobDistributionAgent (store w))) eqn:Hlos.
    + injection Hout as Hst Hr. subst r. exists record, r0. rewrite Hst.
      split_and!; try reflexivity; try done.
      * unfold is_completed_in. rewrite Hd0, Hs0. reflexivity.
      * apply existsb_exists in Hlos as (x & Hx & Hl). apply existsb_exists.
        exists x. split; [exact Hx|]. unfold is_loser_in in Hl.
        by apply andb_true_iff in Hl as [? _].
      * cbn. unfold cancel_losers. apply length_map.
      * intros i x Hi. cbn [resolved db_jobDistributionAgent].
        rewrite (cancel_losers_lookup _ _ _ _ _ _ Hi), (Hloser i x Hi).
        eexists. split; [reflexivity|].
        destruct (is_open_in d x); [|reflexivity]. by split_and!.
      * cbn. rewrite lookup_insert_eq. cbn. by rewrite Hid0.
      * cbn. by rewrite lookup_insert_eq.
    + injection Hout as Hst Hr. subst r. exists record. rewrite Hst.
      assert (Hclosed : ∀ i x, db_jobDistributionAgent (store w) !! i = Some x →
                is_open_in d x = false).
      { intros i x Hi. rewrite <- (Hloser i x Hi).
        destruct (is_loser_in d (aer_agentId winner) x) eqn:Hl; [|reflexivity].
        assert (Hsome : existsb (is_loser_in d (aer_agentId winner))
                          (db_jobDistributionAgent (store w)) = true).
        { apply existsb_exists. exists x. split; [|exact Hl].
          apply list_elem_of_In. eapply list_elem_of_lookup_2. exact Hi. }
        congruence. }
      split_and!; try reflexivity.
      * rewrite resolved_swept_rows. unfold sweep. apply length_map.
      * intros i x Hi. rewrite resolved_swept_rows.
        rewrite (sweep_lookup _ _ _ _ _ Hi), (Hclosed i x Hi).
        eexists. split; reflexivity.
      * cbn. by rewrite lookup_insert_eq.
  - destruct (db_job (store w) !! rec_jobId record) as [job|];
      [|by injection Hout as -> ->].
    injection Hout as Hst Hr. subst r. exists record.
    rewrite Hst. split_and!; try reflexivity.
    + cbn. unfold sweep. apply length_map.
    + intros i x Hi. cbn [swept set_db_job set_db_jobDistributionAgent
                            db_jobDistributionAgent].
      rewrite (sweep_lookup _ _ _ _ _ Hi).
      eexists. split; [reflexivity|].
      destruct (is_open_in d x); [|reflexivity]. by split_and!.
    + cbn. by rewrite lookup_insert_eq.
Qed.

(** ** Selecting twice *)

Lemma select_outcome_idempotent (d : string) (strategy : Strategy)
    (t1 t2 t1' t2' : Z) (s : DB) :
  ∃ s2,
    select_outcome d strategy t1' t2' (fst (select_outcome d strategy t1 t2 s))
    = (s2, snd (select_outcome d strategy t1 t2 s))
    ∧ same_up_to_updatedAt s2 (fst (select_outcome d strategy t1 t2 s)).
Proof.
  unfold select_outcome at 2 3 4.
  destruct (db_jobDistributionRecord s !! d) as [record|] eqn:Hrec; cycle 1.
  { cbn [fst snd]. unfold select_outcome. rewrite Hrec.
    eauto using same_up_to_updatedAt_refl. }
  destruct (completed_view (db_agent s) (assignments_of d s))
    as [completed|e] eqn:Hview; cycle 1.
  { cbn [fst snd]. unfold select_outcome. rewrite Hrec, Hview.
    eauto using same_up_to_updatedAt_refl. }
  destruct (length completed =? 0)%nat eqn:Hlen.
  { cbn [fst snd]. unfold select_outcome. rewrite Hrec, Hview, Hlen.
    eauto using same_up_to_updatedAt_refl. }
  destruct (selectAgent strategy completed) as [winner|] eqn:Hsel; cycle 1.
  { cbn [fst snd]. unfold select_outcome. rewrite Hrec, Hview, Hlen, Hsel.
    eauto using same_up_to_updatedAt_refl. }
  destruct (db_job s !! rec_jobId record) as [job|] eqn:Hjob; cycle 1.
  { cbn [fst snd]. unfold select_outcome.
    rewrite Hrec, Hview, Hlen, Hsel, Hjob.
    eauto using same_up_to_updatedAt_refl. }
  cbn [fst snd].
  set (s1 := resolved d record job winner t1 t2 s).
  assert (Hrec1 : db_jobDistributionRecord s1 !! d
                  = Some (set_assignedAgent (aer_agentId winner)
                            (aer_agentName winner) record))
    by apply lookup_insert_eq.
  assert (Hjob1 : db_job s1 !! rec_jobId record
                  = Some (touch_job t1 (set_job_status JOB_COMPLETED job)))
    by apply lookup_insert_eq.
  assert (Hof : assignments_of d s1
                = cancel_losers d (aer_agentId winner) t2 (assignments_of d s))
    by apply assignments_of_cancel_losers.
  unfold select_outcome. rewrite Hrec1, Hof.
  change (db_agent s1) with (db_agent s).
  rewrite completed_view_cancel_losers, Hview, Hlen, Hsel.
  cbn [rec_jobId set_assignedAgent]. rewrite Hjob1.
  eexists. split; [reflexivity|].
  unfold same_up_to_updatedAt, resolved.
  cbn [db_job db_agent db_jobDistributionRecord db_jobDistributionAgent
       db_agentPerformance db_executionLog rec_jobId set_assignedAgent].
  split_and!; try reflexivity.
  - subst s1. unfold resolved. cbn. by rewrite insert_insert_eq.
  - subst s1. cbn. apply cancel_losers_cancel_losers.
  - intros j. subst s1. cbn. apply touch_job_insert.
Qed.

(** X3.  Selecting a winner a second time settles as the first call did,
    names the same winner and cancels nothing more: the distribution
    records, all assignment rows, agents, performance rows and logs are
    as the first call left them, and a job row differs at most in its
    [@updatedAt] stamp. *)
Theorem selectBestAgentAndComplete_idempotent (d : string)
    (strategy : Strategy) (w : World) :
  let (w1, r1) := selectBestAgentAndComplete d strategy w in
  let (w2, r2) := selectBestAgentAndComplete d strategy w1 in
  r2 = r1
  ∧ db_jobDistributionRecord (store w2) = db_jobDistributionRecord (store w1)
  ∧ db_jobDistributionAgent (store w2) = db_jobDistributionAgent (store w1)
  ∧ (∀ j, job_status <$> db_job (store w2) !! j
          = job_status <$> db_job (store w1) !! j)
  ∧ same_up_to_updatedAt (store w2) (store w1).
Proof.
  pose proof (selectBestAgentAndComplete_outcome d strategy w) as H1.
  destruct (selectBestAgentAndComplete d strategy w) as [w1 r1].
  pose proof (selectBestAgentAndComplete_outcome d strategy w1) as H2.
  destruct (selectBestAgentAndComplete d strategy w1) as [w2 r2].
  unfold outcome in H1, H2. cbn [fst snd] in H1, H2.
  destruct (select_outcome_idempotent d strategy
              (wallclock w (ticks w)) (wallclock w (S (ticks w)))
              (wallclock w1 (ticks w1)) (wallclock w1 (S (ticks w1)))
              (store w)) as (s2 & Heq & Hsame).
  rewrite <- H1 in Heq, Hsame. cbn [fst snd] in Heq, Hsame.
  rewrite <- H2 in Heq. injection Heq as Hs2 Hr. subst s2.
  destruct Hsame as (Hrecs & Hrows & Hag & Hperf & Hlog & Hjobs).
  split_and!; try done.
  intros j. specialize (Hjobs j).
  destruct (db_job (store w2) !! j) as [j2|], (db_job (store w1) !! j) as [j1|];
    cbn in *; try done.
  assert (Hj : touch_job 0 j2 = touch_job 0 j1) by congruence.
  f_equal. exact (f_equal job_status Hj).
Qed.

(** ** The schema's constraints along the services' writes *)

Lemma existsb_same_key (d a : string) (rows : list JobDistributionAgent) :
  existsb (same_key d a) rows = false →
  ¬ In (d, a) (map assignment_key rows).
Proof.
  intros Hex Hin. apply in_map_iff in Hin as (r & Hk & Hin).
  assert (existsb (same_key d a) rows = true); [|congruence].
  apply existsb_exists. exists r. split; [exact Hin|].
  apply same_key_true. unfold assignment_key in Hk. by injection Hk.
Qed.

Lemma createMany_checked (data : list JobDistributionAgent) (w w' : World) :
  jobDistributionAgent_createMany data w = (w', Ok tt) →
  Forall (fun r =>
            is_Some (db_jobDistributionRecord (store w) !! jobDistributionId r)
            ∧ is_Some (db_agent (store w) !! agentId r)) data
  ∧ (NoDup (map assignment_key (db_jobDistributionAgent (store w))) →
     NoDup (map assignment_key (db_jobDistributionAgent (store w) ++ data))).
Proof.
  revert w. induction data as [|r data IH]; intros w.
  - intros _. split; [constructor|]. by rewrite app_nil_r.
  - cbn [jobDistributionAgent_createMany]. rewrite bind_run.
    unfold jobDistributionAgent_insert. rewrite bind_run. cbn [query].
    destruct (db_jobDistributionRecord (store w) !! jobDistributionId r)
      as [rc|] eqn:Hrc; [|discriminate].
    destruct (db_agent (store w) !! agentId r) as [ag|] eqn:Hag;
      [|discriminate].
    destruct (existsb _ _) eqn:Hex; [discriminate|].
    cbn [write]. intros Hrun. apply IH in Hrun as [Hfk Hnd].
    cbn in Hfk, Hnd. split.
    + constructor; [by rewrite Hrc, Hag|exact Hfk].
    + intros Hold. rewrite <- app_assoc in Hnd. cbn in Hnd. apply Hnd.
      rewrite map_app. cbn. apply NoDup_app. split_and!.
      * exact Hold.
      * intros k Hk Hk'. apply list_elem_of_singleton in Hk'. subst k.
        apply list_elem_of_In in Hk. by apply existsb_same_key in Hex.
      * apply NoDup_singleton.
Qed.

Lemma has_record_for_job_insert (jobId id : string)
    (record : JobDistributionRecord) (t : gmap string JobDistributionRecord) :
  rec_jobId record = jobId →
  has_record_for_job jobId (<[id := record]> t) = true.
Proof.
  intros Hj. unfold has_record_for_job. apply existsb_exists.
  exists (id, record). split.
  - apply list_elem_of_In, elem_of_map_to_list, lookup_insert_eq.
  - cbn. by apply String.eqb_eq.
Qed.

Lemma has_record_for_job_true (jobId : string)
    (t : gmap string JobDistributionRecord) :
  has_record_for_job jobId t = true
  ↔ ∃ id record, t !! id = Some record ∧ rec_jobId record = jobId.
Proof.
  unfold has_record_for_job. rewrite existsb_exists. split.
  - intros ([id record] & Hin & Heq). exists id, record. split.
    + by apply elem_of_map_to_list, list_elem_of_In.
    + by apply String.eqb_eq.
  - intros (id & record & Hin & Heq). exists (id, record). split.
    + by apply list_elem_of_In, elem_of_map_to_list.
    + by apply String.eqb_eq.
Qed.

(** What a committed [createDistributionRecord] read and wrote *)
Lemma createDistributionRecord_Ok (w w' : World) (jobId : string)
    (agents : list Agent) (record : JobDistributionRecord) :
  createDistributionRecord jobId agents w = (w', Ok record) →
  ∃ job rows t,
    db_job (store w) !! jobId = Some job
    ∧ rec_id record = cuid w (minted w)
    ∧ rec_jobId record = jobId
    ∧ db_jobDistributionRecord (store w) !! rec_id record = None
    ∧ has_record_for_job jobId (db_jobDistributionRecord (store w)) = false
    ∧ Forall2 (fun a r => ∃ t, r = new_assignment (rec_id record) (agent_id a) t)
              agents rows
    ∧ Forall (fun r => is_Some (db_agent (store w) !! agentId r)) rows
    ∧ (NoDup (map assignment_key (db_jobDistributionAgent (store w))) →
       NoDup (map assignment_key (db_jobDistributionAgent (store w) ++ rows)))
    ∧ store w'
      = {| db_job := <[jobId := touch_job t (set_job_status DISTRIBUTED job)]>
                       (db_job (store w));
           db_agent := db_agent (store w);
           db_jobDistributionRecord :=
             <[rec_id record := record]> (db_jobDistributionRecord (store w));
           db_jobDistributionAgent := db_jobDistributionAgent (store w) ++ rows;
           db_agentPerformance := db_agentPerformance (store w);
           db_executionLog := db_executionLog (store w) |}
    ∧ record
      = {| rec_id := cuid w (minted w); rec_jobId := jobId;
           jobName := jobTitle job;
           matchCriteria :=
             {| mc_tags := job_tags job; mc_category := job_category job;
                mc_skillLevel := skillLevel job;
                mc_maxBudget := truthyQ (maxBudget job);
                mc_autoAcceptJobs := true; mc_isActive := true |};
           totalAgents := Z.of_nat (length agents);
           assignedCount := Z.of_nat (length agents); responseCount := 0;
           rec_createdAt := wallclock w (ticks w); assignedAgentId := None;
           assignedAgentName := None |}.
Proof.
  unfold createDistributionRecord. rewrite bind_run.
  unfold job_findUnique. cbn [query].
  destruct (db_job (store w) !! jobId) as [job|] eqn:Hjob; [|discriminate].
  unfold transaction. rewrite bind_run.
  unfold jobDistributionRecord_create. rewrite !bind_run.
  cbn [draw_cuid new_Date query bind]. cbn [store].
  set (id := cuid w (minted w)).
  destruct (db_jobDistributionRecord (store w) !! id) eqn:Hid; [discriminate|].
  destruct (has_record_for_job jobId (db_jobDistributionRecord (store w)))
    eqn:Hhas; [discriminate|].
  rewrite Hjob. rewrite bind_run. cbn [write ret store set_store].
  rewrite bind_run.
  match goal with |- context [traverse _ agents ?w1] =>
    destruct (traverse_assignments id agents w1) as (w2 & rows & Hrun & Hst & Hrows)
  end.
  cbn [rec_id]. rewrite Hrun. cbn [store set_store] in Hst.
  rewrite bind_run.
  pose proof (createMany_appends rows w2) as Happ.
  pose proof (createMany_checked rows w2) as Hchk.
  destruct (jobDistributionAgent_createMany rows w2) as [w3 [[]|e]];
    [|discriminate].
  destruct (Hchk w3 eq_refl) as [Hfk Hnd]. clear Hchk.
  rewrite bind_run. unfold job_update. rewrite !bind_run.
  cbn [new_Date query bind]. cbn [store].
  rewrite Happ, Hst.
  cbn [set_db_jobDistributionAgent db_job set_db_jobDistributionRecord].
  rewrite Hjob.
  rewrite bind_run. cbn [write ret store set_store].
  intros [= <- <-]. cbn [rec_id rec_jobId store].
  rewrite Hst in Hfk, Hnd. cbn in Hfk, Hnd.
  exists job, rows. eexists. split_and!; try done.
  eapply Forall_impl; [exact Hfk|]. cbn. tauto.
Qed.

(** X4.  A job is opened once.  After [createDistributionRecord] has
    committed for a job, every further call for that job, whatever the
    agents, rejects with the unique-constraint error of
    [JobDistributionRecord.jobId] and leaves the store as the first call
    left it. *)
Theorem createDistributionRecord_once (w w1 : World) (jobId : string)
    (agents agents' : list Agent) (record : JobDistributionRecord) :
  createDistributionRecord jobId agents w = (w1, Ok record) →
  ∃ w2,
    createDistributionRecord jobId agents' w1 = (w2, Err UniqueConstraintFailed)
    ∧ store w2 = store w1.
Proof.
  intros Hrun.
  apply createDistributionRecord_Ok in Hrun
    as (job & rows & t & Hjob & Hid & Hjid & Hfresh & Hhas & _ & _ & _ & Hst
        & _).
  unfold createDistributionRecord. rewrite bind_run.
  unfold job_findUnique. cbn [query]. rewrite Hst. cbn [db_job].
  rewrite lookup_insert_eq.
  unfold transaction. rewrite bind_run.
  unfold jobDistributionRecord_create. rewrite !bind_run.
  cbn [draw_cuid new_Date query bind]. cbn [store].
  rewrite Hst. cbn [db_jobDistributionRecord].
  destruct (_ !! cuid w1 (minted w1)).
  { cbn. eauto. }
  rewrite (has_record_for_job_insert jobId); [|exact Hjid].
  cbn. eauto.
Qed.

Lemma schema_view_holds (s s' : DB) :
  schema_view s' = schema_view s → schema_holds s → schema_holds s'.
Proof.
  unfold schema_view. intros [= Hkeys Hagents Hjobs Hrecs].
  assert (Hrec : ∀ id, record_key <$> db_jobDistributionRecord s' !! id
                       = record_key <$> db_jobDistributionRecord s !! id).
  { intros id. by rewrite <- !lookup_fmap, Hrecs. }
  assert (Hjob : ∀ id, is_Some (db_job s' !! id) ↔ is_Some (db_job s !! id)).
  { intros id. by rewrite <- !elem_of_dom, Hjobs. }
  assert (Hagent : ∀ id, is_Some (db_agent s' !! id)
                         ↔ is_Some (db_agent s !! id)).
  { intros id. by rewrite <- !elem_of_dom, Hagents. }
  assert (Hsome : ∀ id, is_Some (db_jobDistributionRecord s' !! id)
                        ↔ is_Some (db_jobDistributionRecord s !! id)).
  { intros id. specialize (Hrec id).
    destruct (db_jobDistributionRecord s' !! id),
             (db_jobDistributionRecord s !! id); cbn in Hrec; try done;
      split; eauto. }
  assert (Hrows : ∀ P : string * string → Prop,
            Forall (fun r => P (assignment_key r)) (db_jobDistributionAgent s) →
            Forall (fun r => P (assignment_key r)) (db_jobDistributionAgent s')).
  { intros P. rewrite <- !(Forall_map assignment_key P), Hkeys. done. }
  intros (Hk & Hr & Ha & Hrr & Hone). split_and!.
  - unfold keys_unique. by rewrite Hkeys.
  - apply (Hrows (fun k => is_Some (db_jobDistributionRecord s' !! k.1))).
    eapply Forall_impl; [exact Hr|]. intros r. cbn. apply Hsome.
  - apply (Hrows (fun k => is_Some (db_agent s' !! k.2))).
    eapply Forall_impl; [exact Ha|]. intros r. cbn. apply Hagent.
  - intros id record' Hl. pose proof (Hrec id) as Hid. rewrite Hl in Hid.
    destruct (db_jobDistributionRecord s !! id) as [record|] eqn:Hl';
      [|done].
    injection Hid as Hid Hjid. destruct (Hrr id record Hl') as [Hi Hj].
    split; [congruence|]. apply Hjob. by rewrite Hjid.
  - intros id1 id2 r1' r2' H1 H2 Heq.
    pose proof (Hrec id1) as Hid1. pose proof (Hrec id2) as Hid2.
    rewrite H1 in Hid1. rewrite H2 in Hid2.
    destruct (db_jobDistributionRecord s !! id1) as [r1|] eqn:Hl1; [|done].
    destruct (db_jobDistributionRecord s !! id2) as [r2|] eqn:Hl2; [|done].
    injection Hid1 as _ Hj1. injection Hid2 as _ Hj2.
    apply (Hone id1 id2 r1 r2 Hl1 Hl2). congruence.
Qed.

Lemma view_rows (s : DB) (f : JobDistributionAgent → JobDistributionAgent) :
  (∀ r, assignment_key (f r) = assignment_key r) →
  schema_view (set_db_jobDistributionAgent (map f (db_jobDistributionAgent s)) s)
  = schema_view s.
Proof.
  intros Hf. unfold schema_view. cbn. f_equal.
  rewrite map_map. apply map_ext. exact Hf.
Qed.

Lemma dom_insert_job (jobs : gmap string Job) (k : string) (j j' : Job) :
  jobs !! k = Some j → dom (<[k := j']> jobs) = dom jobs.
Proof. intros H. apply dom_insert_lookup_L. eauto. Qed.

Lemma fmap_insert_record (t : gmap string JobDistributionRecord) (d : string)
    (record record' : JobDistributionRecord) :
  t !! d = Some record →
  record_key record' = record_key record →
  record_key <$> <[d := record']> t = record_key <$> t.
Proof.
  intros Hl Hk. rewrite fmap_insert. apply insert_id.
  by rewrite lookup_fmap, Hl, Hk.
Qed.

Lemma view_resolved (d : string) (record : JobDistributionRecord) (job : Job)
    (winner : AgentExecutionResult) (t1 t2 : Z) (s : DB) :
  db_jobDistributionRecord s !! d = Some record →
  db_job s !! rec_jobId record = Some job →
  schema_view (resolved d record job winner t1 t2 s) = schema_view s.
Proof.
  intros Hrec Hjob. unfold schema_view, resolved. cbn. f_equal.
  - unfold cancel_losers. rewrite map_map. apply map_ext. intros r.
    by destruct (_ && _).
  - by eapply dom_insert_job.
  - by eapply fmap_insert_record.
Qed.

Lemma view_swept (d : string) (now : Z) (s : DB) :
  schema_view (swept d now s) = schema_view s.
Proof.
  apply view_rows. intros r. by destruct (is_open_in d r).
Qed.

Lemma view_select_outcome (d : string) (strategy : Strategy) (t1 t2 : Z)
    (s : DB) :
  schema_view (fst (select_outcome d strategy t1 t2 s)) = schema_view s.
Proof.
  unfold select_outcome.
  destruct (db_jobDistributionRecord s !! d) as [record|] eqn:Hrec;
    [|reflexivity].
  destruct (completed_view _ _); [|reflexivity].
  destruct (_ =? _)%nat; [reflexivity|].
  destruct (selectAgent _ _); [|reflexivity].
  destruct (db_job s !! rec_jobId record) eqn:Hjob; [|reflexivity].
  by apply view_resolved.
Qed.

Lemma view_timeout_outcome (d : string) (t0 t1 t2 : Z) (s : DB) :
  schema_view (fst (timeout_outcome d t0 t1 t2 s)) = schema_view s.
Proof.
  rewrite timeout_outcome_branches.
  destruct (db_jobDistributionRecord s !! d) as [record|] eqn:Hrec;
    [|reflexivity].
  destruct (existsb _ _).
  - destruct (completed_view _ _); [|reflexivity].
    destruct (_ =? _)%nat; [apply view_swept|].
    destruct (selectAgent _ _); [|reflexivity].
    destruct (db_job s !! rec_jobId record) eqn:Hjob; [|reflexivity].
    destruct (existsb (is_loser_in _ _) _); cbn [fst].
    + by apply view_resolved.
    + rewrite view_resolved; [apply view_swept|exact Hrec|exact Hjob].
  - destruct (db_job s !! rec_jobId record) eqn:Hjob; [|reflexivity].
    cbn [fst]. transitivity (schema_view (swept d t0 s)); [|apply view_swept].
    unfold schema_view. cbn. f_equal. by eapply dom_insert_job.
Qed.

Lemma updateExecutionStatus_missing (d a : string)
    (status : ExecutionStatusUpdate) (w : World) :
  existsb (same_key d a) (db_jobDistributionAgent (store w)) = false →
  ∃ w', updateExecutionStatus d a status w = (w', Err RecordToUpdateNotFound)
        ∧ store w' = store w.
Proof.
  intros Hex. unfold updateExecutionStatus, jobDistributionAgent_update.
  destruct (is_terminal (esu_workStatus status)); run; rewrite Hex;
    eexists; split; reflexivity.
Qed.

(** An update either is rejected, and then writes nothing, or finds its row
    and values that fit their columns. *)
Lemma updateExecutionStatus_cases (d a : string)
    (status : ExecutionStatusUpdate) (w : World) :
  (∃ w' e, updateExecutionStatus d a status w = (w', Err e)
           ∧ store w' = store w)
  ∨ (existsb (same_key d a) (db_jobDistributionAgent (store w)) = true
     ∧ fits_int4 (esu_progress status) = true
     ∧ fits_int4 (esu_executionTimeMs status) = true).
Proof.
  destruct (existsb (same_key d a) (db_jobDistributionAgent (store w))) eqn:Hex.
  - destruct (fits_int4 (esu_progress status)) eqn:Hp.
    + destruct (fits_int4 (esu_executionTimeMs status)) eqn:Ht.
      * by right.
      * left. destruct (updateExecutionStatus_out_of_range d a status w Hex)
          as (w' & Hrun & Hst); [by right|]. eauto.
    + left. destruct (updateExecutionStatus_out_of_range d a status w Hex)
        as (w' & Hrun & Hst); [by left|]. eauto.
  - left. destruct (updateExecutionStatus_missing d a status w Hex)
      as (w' & Hrun & Hst). eauto.
Qed.

Lemma view_updateExecutionStatus (d a : string) (status : ExecutionStatusUpdate)
    (w : World) :
  schema_view (store (after (updateExecutionStatus d a status) w))
  = schema_view (store w).
Proof.
  unfold after.
  destruct (updateExecutionStatus_cases d a status w)
    as [(w' & e & -> & Hst)|(Hex & Hp & Ht)].
  - cbn [fst]. by rewrite Hst.
  - destruct (updateExecutionStatus_run d a status w Hex Hp Ht)
      as (w' & -> & Hrows & Hjob & Hag & Hrec & _).
    cbn [fst]. unfold schema_view. rewrite Hrows, Hjob, Hag, Hrec. f_equal.
    rewrite map_map. apply map_ext. intros r. by destruct (same_key d a r).
Qed.

Lemma view_updateAgentPerformance (a : string) (isSuccess : bool)
    (time : option Z) (w : World) :
  schema_view (store (after (updateAgentPerformance a isSuccess time) w))
  = schema_view (store w).
Proof.
  unfold after, updateAgentPerformance, agent_update_stats. run.
  destruct (db_agentPerformance (store w) !! a) as [p|]; run;
    destruct (db_agent (store w) !! a) as [ag|] eqn:Hag; run;
    try reflexivity;
    unfold schema_view; cbn; f_equal; apply dom_insert_lookup_L; eauto.
Qed.

Lemma after_bind {A B} (m : M A) (k : A → M B) (w : World) :
  after (bind m k) w
  = match m w with
    | (w', Ok a) => after (k a) w'
    | (w', Err _) => w'
    end.
Proof. unfold after, bind. by destruct (m w) as [w' [x|e]]. Qed.

Lemma view_then {A B} (m : M A) (k : A → M B) (w : World) :
  (∀ w, schema_view (store (after m w)) = schema_view (store w)) →
  (∀ x w, schema_view (store (after (k x) w)) = schema_view (store w)) →
  schema_view (store (after (bind m k) w)) = schema_view (store w).
Proof.
  intros Hm Hk. rewrite after_bind. specialize (Hm w). unfold after in Hm.
  destruct (m w) as [w' [x|e]]; cbn [fst] in Hm; [|exact Hm].
  by rewrite Hk.
Qed.

Lemma view_jobDistributionAgent_update (d a : string)
    (ints : list (option Z))
    (f : JobDistributionAgent → JobDistributionAgent) (w : World) :
  (∀ r, assignment_key (f r) = assignment_key r) →
  schema_view (store (after (jobDistributionAgent_update d a ints f) w))
  = schema_view (store w).
Proof.
  intros Hf. unfold after, jobDistributionAgent_update. run.
  destruct (existsb _ _); run; [|reflexivity].
  destruct (forallb _ _); run; [|reflexivity].
  apply view_rows. intros r. destruct (same_key d a r); [apply Hf|reflexivity].
Qed.

Lemma view_job_update (id : string) (f : Job → Job) (w : World) :
  schema_view (store (after (job_update id f) w)) = schema_view (store w).
Proof.
  unfold after, job_update. run.
  destruct (db_job (store w) !! id) eqn:Hjob; run; [|reflexivity].
  unfold schema_view. cbn. f_equal. by eapply dom_insert_job.
Qed.

Lemma view_updateResponseCount (d : string) (w : World) :
  schema_view (store (after (updateResponseCount d) w)) = schema_view (store w).
Proof.
  unfold after, updateResponseCount, jobDistributionAgent_count,
    jobDistributionRecord_update. run.
  destruct (db_jobDistributionRecord (store w) !! d) eqn:Hrec; run;
    [|reflexivity].
  unfold schema_view. cbn. f_equal. by eapply fmap_insert_record.
Qed.

Lemma view_processTask (task : QueueTask) (w : World) :
  schema_view (store (after (processTask task) w)) = schema_view (store w).
Proof.
  unfold processTask, jobDistributionRecord_findFirst, job_findUnique.
  rewrite after_bind. cbn [query].
  destruct (snd <$> _); [reflexivity|].
  rewrite after_bind. cbn [query].
  destruct (db_job (store w) !! task_jobId task); [|reflexivity].
  apply view_then; [apply view_job_update|reflexivity].
Qed.

Lemma createDistributionRecord_Err (w w' : World) (jobId : string)
    (agents : list Agent) (e : Error) :
  createDistributionRecord jobId agents w = (w', Err e) → store w' = store w.
Proof.
  unfold createDistributionRecord. rewrite bind_run.
  unfold job_findUnique. cbn [query].
  destruct (db_job (store w) !! jobId); [|by intros [= <- _]].
  unfold transaction.
  match goal with |- context [match ?m w with _ => _ end] =>
    destruct (m w) as [w1 [x|e1]] end; [discriminate|].
  by intros [= <- _].
Qed.

Lemma schema_createDistributionRecord (jobId : string) (agents : list Agent)
    (w : World) :
  schema_holds (store w) →
  schema_holds (store (after (createDistributionRecord jobId agents) w)).
Proof.
  intros Hs. unfold after.
  destruct (createDistributionRecord jobId agents w) as [w' [record|e]] eqn:Hrun;
    cbn [fst]; cycle 1.
  { apply createDistributionRecord_Err in Hrun. by rewrite Hrun. }
  apply createDistributionRecord_Ok in Hrun
    as (job & rows & t & Hjob & Hid & Hjid & Hfresh & Hhas & Hrows & Hfk & Hnd
        & Hst & _).
  destruct Hs as (Hk & Hr & Ha & Hrr & Hone). rewrite Hst.
  unfold schema_holds, keys_unique, references_resolve, agents_resolve,
    records_resolve, one_record_per_job.
  cbn [db_job db_agent db_jobDistributionRecord db_jobDistributionAgent].
  split_and!.
  - by apply Hnd.
  - apply Forall_app. split.
    + eapply Forall_impl; [exact Hr|]. intros r [rc Hrc].
      destruct (decide (jobDistributionId r = rec_id record)) as [->|Hne].
      * rewrite lookup_insert_eq. eauto.
      * rewrite lookup_insert_ne; eauto.
    + clear -Hrows. induction Hrows as [|a r ? ? [t ->]]; constructor; auto.
      cbn. rewrite lookup_insert_eq. eauto.
  - apply Forall_app. split; [exact Ha|exact Hfk].
  - intros id rc Hl. destruct (decide (id = rec_id record)) as [->|Hne].
    + rewrite lookup_insert_eq in Hl. injection Hl as <-.
      split; [reflexivity|]. rewrite Hjid, lookup_insert_eq. eauto.
    + rewrite lookup_insert_ne in Hl by done.
      destruct (Hrr id rc Hl) as [Hi [j Hj]]. split; [exact Hi|].
      destruct (decide (rec_jobId rc = jobId)) as [->|Hne'].
      * rewrite lookup_insert_eq. eauto.
      * rewrite lookup_insert_ne; eauto.
  - assert (Hnew : ∀ id rc, db_jobDistributionRecord (store w) !! id = Some rc →
                            rec_jobId rc ≠ jobId).
    { intros id rc Hl Heq.
      assert (has_record_for_job jobId (db_jobDistributionRecord (store w))
              = true); [|congruence].
      apply has_record_for_job_true. eauto. }
    intros id1 id2 r1 r2 H1 H2 Heq.
    destruct (decide (id1 = rec_id record)) as [->|Hne1],
             (decide (id2 = rec_id record)) as [->|Hne2]; [done|..].
    + rewrite lookup_insert_eq in H1. injection H1 as <-.
      rewrite lookup_insert_ne in H2 by done.
      exfalso. apply (Hnew id2 r2 H2). congruence.
    + rewrite lookup_insert_eq in H2. injection H2 as <-.
      rewrite lookup_insert_ne in H1 by done.
      exfalso. apply (Hnew id1 r1 H1). congruence.
    + rewrite lookup_insert_ne in H1, H2 by done. eauto.
Qed.

Lemma schema_perform (w : World) (c : Call) :
  schema_holds (store w) → schema_holds (store (perform w c)).
Proof.
  destruct c; cbn [perform];
    [apply schema_createDistributionRecord|
     apply schema_view_holds..].
  - apply view_updateResponseCount.
  - pose proof (selectBestAgentAndComplete_outcome distributionId strategy w)
      as H. unfold outcome in H. unfold after.
    replace (store (selectBestAgentAndComplete distributionId strategy w).1)
      with (select_outcome distributionId strategy (wallclock w (ticks w))
              (wallclock w (S (ticks w))) (store w)).1 by (by rewrite <- H).
    apply view_select_outcome.
  - pose proof (handleDistributionTimeout_outcome distributionId w) as H.
    unfold outcome in H. unfold after.
    replace (store (handleDistributionTimeout distributionId w).1)
      with (timeout_outcome distributionId (wallclock w (ticks w))
              (wallclock w (S (ticks w))) (wallclock w (S (S (ticks w))))
              (store w)).1 by (by rewrite <- H).
    apply view_timeout_outcome.
  - unfold trackAgentExecution. apply view_then.
    + intros w0. apply view_updateExecutionStatus.
    + intros _ w0. rewrite after_bind. cbn [new_Date].
      by rewrite view_jobDistributionAgent_update.
  - apply view_updateExecutionStatus.
  - unfold handleExecutionCompleted. apply view_then.
    + intros w0. apply view_updateExecutionStatus.
    + intros _ w0. apply view_updateAgentPerformance.
  - unfold handleExecutionFailed. apply view_then.
    + intros w0. apply view_updateExecutionStatus.
    + intros _ w0. apply view_updateAgentPerformance.
  - unfold handleTimeout. apply view_then.
    + intros w0. apply view_updateExecutionStatus.
    + intros _ w0. apply view_updateAgentPerformance.
  - apply view_processTask.
  - unfold updateAgentExecutionStatus.
    match goal with |- context [match ?m w with _ => _ end] =>
      assert (Hv : schema_view (store (after m w)) = schema_view (store w));
      [|unfold after in Hv; by destruct (m w) as [w' [x|e]]] end.
    apply view_then.
    + intros w0. apply view_updateExecutionStatus.
    + intros _ w0. apply view_updateResponseCount.
Qed.

(** X5.  The services keep the constraints of the schema.  From a store
    in which assignment keys are unique, every assignment resolves to its
    distribution and its agent, every distribution record is stored under
    its [id] with a job that exists, and no two records share a job, any
    sequence of service calls, resolved or rejected, leads to a store in
    which all of this holds again. *)
Theorem services_keep_schema (calls : list Call) (w : World) :
  schema_holds (store w) →
  schema_holds (store (fold_left perform calls w)).
Proof.
  revert w. induction calls as [|c calls IH]; intros w Hs; [exact Hs|].
  cbn [fold_left]. apply IH. by apply schema_perform.
Qed.

(** ** Reading a distribution back *)

Lemma new_rows_in_distribution (id : string) (agents : list Agent)
    (rows : list JobDistributionAgent) :
  Forall2 (fun a r => ∃ t, r = new_assignment id (agent_id a) t) agents rows →
  Forall (fun r => in_distribution id r = true) rows.
Proof.
  induction 1 as [|a r ? ? [t ->]]; constructor; auto.
  apply in_distribution_true. reflexivity.
Qed.

Lemma unresolved_not_in_distribution (id : string) (s : DB) :
  references_resolve s →
  db_jobDistributionRecord s !! id = None →
  Forall (fun r => in_distribution id r = false) (db_jobDistributionAgent s).
Proof.
  intros Hrefs Hid. eapply Forall_impl; [exact Hrefs|]. intros r [rc Hrc].
  destruct (in_distribution id r) eqn:Hin; [|reflexivity].
  apply in_distribution_true in Hin. congruence.
Qed.

(** X6.  A distribution that was just opened reads back as it was
    written: [getDistributionDetail] on the new record's id resolves,
    without a write, to a detail with the job, [totalAgents] equal to the
    number of agents, no response and no winner, and one [ASSIGNED]
    execution per agent, in the order the agents were given.  The name in
    each execution is the name stored for the agent's id. *)
Theorem getDistributionDetail_after_create (w w' : World) (jobId : string)
    (agents : list Agent) (record : JobDistributionRecord) :
  references_resolve (store w) →
  createDistributionRecord jobId agents w = (w', Ok record) →
  ∃ detail,
    getDistributionDetail (rec_id record) w' = (w', Ok (Some detail))
    ∧ dd_id detail = rec_id record
    ∧ dd_jobId detail = jobId
    ∧ dd_totalAgents detail = Z.of_nat (length agents)
    ∧ dd_assignedCount detail = Z.of_nat (length agents)
    ∧ dd_responseCount detail = 0%Z
    ∧ dd_assignedAgentId detail = None
    ∧ dd_assignedAgentName detail = None
    ∧ Forall2 (fun a e =>
                 aer_agentId e = agent_id a
                 ∧ aer_distributionId e = rec_id record
                 ∧ aer_workStatus e = ASSIGNED
                 ∧ aer_executionResult e = None
                 ∧ aer_startedAt e = None
                 ∧ aer_completedAt e = None
                 ∧ ∃ stored, db_agent (store w) !! agent_id a = Some stored
                             ∧ aer_agentName e = agentName stored)
              agents (agentExecutions detail).
Proof.
  intros Hrefs Hrun.
  apply createDistributionRecord_Ok in Hrun
    as (job & rows & t & Hjob & Hid & Hjid & Hfresh & Hhas & Hrows & Hfk & _
        & Hst & Hrecord).
  unfold getDistributionDetail, jobDistributionRecord_findUnique.
  rewrite !bind_run. cbn [query]. rewrite Hst.
  cbn [db_jobDistributionRecord db_jobDistributionAgent].
  rewrite lookup_insert_eq, !bind_run. cbn [query].
  rewrite bind_run, traverse_toExecution, Hst.
  cbn [db_jobDistributionRecord db_jobDistributionAgent db_agent].
  rewrite List.filter_app.
  rewrite (filter_none _ _ (unresolved_not_in_distribution _ _ Hrefs Hfresh)).
  rewrite (filter_all _ _ (new_rows_in_distribution _ _ _ Hrows)).
  cbn [app].
  destruct (executions_of_resolved (db_agent (store w)) rows Hfk)
    as (es & -> & Hes).
  cbn [ret]. eexists. split; [reflexivity|].
  cbn [dd_id dd_jobId dd_totalAgents dd_assignedCount dd_responseCount
       dd_assignedAgentId dd_assignedAgentName agentExecutions].
  assert (Hfields : rec_jobId record = jobId
                    ∧ totalAgents record = Z.of_nat (length agents)
                    ∧ assignedCount record = Z.of_nat (length agents)
                    ∧ responseCount record = 0%Z
                    ∧ assignedAgentId record = None
                    ∧ assignedAgentName record = None)
    by (by rewrite Hrecord).
  destruct Hfields as (-> & -> & -> & -> & -> & ->).
  split_and!; try reflexivity.
  clear -Hrows Hes. revert es Hes.
  induction Hrows as [|a r agents rows [t ->] _ IH]; intros es Hes.
  - inversion Hes. constructor.
  - inversion Hes as [|? e ? es' (stored & Hstored & ->) Hes']; subst.
    constructor; [|by apply IH].
    cbn in Hstored. cbn. split_and!; try done. eauto.
Qed.

(** ** What each service leaves alone *)

Lemma updateAgentPerformance_effect (a : string) (isSuccess : bool)
    (time : option Z) (w : World) :
  let p := upserted a isSuccess time (wallclock w (ticks w)) (store w) in
  store (after (updateAgentPerformance a isSuccess time) w)
  = {| db_job := db_job (store w);
       db_agent :=
         match db_agent (store w) !! a with
         | Some agent =>
             <[a := set_agent_stats (completedJobs p) (successRate p)
                      (wallclock w (S (ticks w))) agent]> (db_agent (store w))
         | None => db_agent (store w)
         end;
       db_jobDistributionRecord := db_jobDistributionRecord (store w);
       db_jobDistributionAgent := db_jobDistributionAgent (store w);
       db_agentPerformance := <[a := p]> (db_agentPerformance (store w));
       db_executionLog := db_executionLog (store w) |}.
Proof.
  unfold after, updateAgentPerformance, agent_update_stats, upserted. run.
  destruct (db_agentPerformance (store w) !! a) as [p|]; run;
    destruct (db_agent (store w) !! a) as [ag|]; run; reflexivity.
Qed.

(** The log entry of a status update *)
Lemma updateExecutionStatus_log (d a : string) (status : ExecutionStatusUpdate)
    (w : World) :
  db_executionLog (store (after (updateExecutionStatus d a status) w))
  = db_executionLog (store w)
    ++ (if existsb (same_key d a) (db_jobDistributionAgent (store w))
           && forallb fits_int4
                [esu_progress status; esu_executionTimeMs status]
        then match db_jobDistributionRecord (store w) !! d with
             | Some record =>
                 [{| log_jobId := rec_jobId record; log_agentId := a;
                     eventType := esu_workStatus status;
                     eventData :=
                       {| ev_progress := esu_progress status;
                          ev_errorMessage := esu_errorMessage status;
                          ev_executionTimeMs := esu_executionTimeMs status |};
                     log_createdAt :=
                       wallclock w (if is_terminal (esu_workStatus status)
                                    then S (ticks w) else ticks w) |}]
             | None => []
             end
        else []).
Proof.
  unfold after, updateExecutionStatus, jobDistributionAgent_update,
    logExecutionEvent, jobDistributionRecord_findUnique, executionLog_create.
  destruct (is_terminal (esu_workStatus status)); run;
    destruct (existsb _ _); run; rewrite ?app_nil_r; try reflexivity;
    destruct (forallb _ _); run; rewrite ?app_nil_r; try reflexivity;
    destruct (db_jobDistributionRecord (store w) !! d); run;
    rewrite ?app_nil_r; reflexivity.
Qed.

Lemma updateExecutionStatus_frame (d a : string) (status : ExecutionStatusUpdate)
    (w : World) :
  let w' := after (updateExecutionStatus d a status) w in
  db_job (store w') = db_job (store w)
  ∧ db_agent (store w') = db_agent (store w)
  ∧ db_jobDistributionRecord (store w') = db_jobDistributionRecord (store w)
  ∧ db_agentPerformance (store w') = db_agentPerformance (store w).
Proof.
  cbn zeta. unfold after.
  destruct (updateExecutionStatus_cases d a status w)
    as [(w' & e & -> & Hst)|(Hex & Hp & Ht)].
  - cbn [fst]. by rewrite Hst.
  - destruct (updateExecutionStatus_run d a status w Hex Hp Ht)
      as (w' & -> & _ & Hjob & Hag & Hrec & Hperf). done.
Qed.

Lemma select_outcome_frame (d : string) (strategy : Strategy) (t1 t2 : Z)
    (s : DB) :
  let s' := fst (select_outcome d strategy t1 t2 s) in
  db_agent s' = db_agent s
  ∧ db_agentPerformance s' = db_agentPerformance s
  ∧ db_executionLog s' = db_executionLog s
  ∧ ∀ j, job_description <$> db_job s' !! j = job_description <$> db_job s !! j.
Proof.
  cbn zeta. unfold select_outcome.
  destruct (db_jobDistributionRecord s !! d) as [record|]; [|done].
  destruct (completed_view _ _); [|done].
  destruct (_ =? _)%nat; [done|].
  destruct (selectAgent _ _); [|done].
  destruct (db_job s !! rec_jobId record) as [job|] eqn:Hjob; [|done].
  cbn. split_and!; try done. intros j.
  destruct (decide (j = rec_jobId record)) as [->|Hne].
  - by rewrite lookup_insert_eq, Hjob.
  - by rewrite lookup_insert_ne.
Qed.

Lemma timeout_outcome_frame (d : string) (t0 t1 t2 : Z) (s : DB) :
  let s' := fst (timeout_outcome d t0 t1 t2 s) in
  db_agent s' = db_agent s
  ∧ db_agentPerformance s' = db_agentPerformance s
  ∧ db_executionLog s' = db_executionLog s
  ∧ ∀ j, job_description <$> db_job s' !! j = job_description <$> db_job s !! j.
Proof.
  cbn zeta. rewrite timeout_outcome_branches.
  destruct (db_jobDistributionRecord s !! d) as [record|]; [|done].
  destruct (existsb _ _).
  - destruct (completed_view _ _); [|done].
    destruct (_ =? _)%nat; [done|].
    destruct (selectAgent _ _); [|done].
    destruct (db_job s !! rec_jobId record) as [job|] eqn:Hjob; [|done].
    destruct (existsb (is_loser_in _ _) _);
      (cbn; split_and!; try done; intros j;
       destruct (decide (j = rec_jobId record)) as [->|Hne];
       [by rewrite lookup_insert_eq, Hjob|by rewrite lookup_insert_ne]).
  - destruct (db_job s !! rec_jobId record) as [job|] eqn:Hjob; [|done].
    cbn. split_and!; try done. intros j.
    destruct (decide (j = rec_jobId record)) as [->|Hne].
    + by rewrite lookup_insert_eq, Hjob.
    + by rewrite lookup_insert_ne.
Qed.

Lemma job_update_effect (id : string) (f : Job → Job) (w : World) :
  store (after (job_update id f) w)
  = match db_job (store w) !! id with
    | Some j =>
        set_db_job (<[id := touch_job (wallclock w (ticks w)) (f j)]>
                      (db_job (store w))) (store w)
    | None => store w
    end.
Proof.
  unfold after, job_update. run.
  destruct (db_job (store w) !! id); reflexivity.
Qed.

Lemma processTask_effect (task : QueueTask) (w : World) :
  processTask task w
  = match db_job (store w) !! task_jobId task with
    | Some j =>
        if has_record_for_job (task_jobId task)
             (db_jobDistributionRecord (store w))
        then (w, Ok tt)
        else (after (job_update (task_jobId task) (set_job_status DISTRIBUTED))
                w, Ok tt)
    | None => (w, Ok tt)
    end.
Proof.
  unfold processTask, jobDistributionRecord_findFirst, job_findUnique,
    has_record_for_job, after, job_update. run.
  pose proof (find_existsb
                (fun kv : string * JobDistributionRecord =>
                   (rec_jobId kv.2 =? task_jobId task)%string)
                (map_to_list (db_jobDistributionRecord (store w)))) as Hfind.
  destruct (List.find _ _) as [kv|]; cbn [fmap option_fmap option_map];
    rewrite Hfind;
    destruct (db_job (store w) !! task_jobId task) eqn:Hjob;
    cbn [store]; rewrite ?Hjob; reflexivity.
Qed.

Lemma updateResponseCount_effect (d : string) (w : World) :
  updateResponseCount d w
  = match db_jobDistributionRecord (store w) !! d with
    | Some record =>
        (set_store
           (set_db_jobDistributionRecord
              (<[d := set_responseCount
                        (count_status (status_in [WORKING; COMPLETED; FAILED])
                           (assignments_of d (store w))) record]>
                 (db_jobDistributionRecord (store w))) (store w)) w, Ok tt)
    | None => (w, Err RecordToUpdateNotFound)
    end.
Proof.
  unfold updateResponseCount, jobDistributionAgent_count,
    jobDistributionRecord_update, count_status, assignments_of. run.
  rewrite filter_filter_and.
  destruct (db_jobDistributionRecord (store w) !! d); reflexivity.
Qed.

(** ** Runs of service calls *)

Lemma evolved_refl (s : DB) : evolved 0 s s.
Proof.
  unfold evolved. split_and!; try done.
  - exists []. by rewrite app_nil_r.
  - exists []. by rewrite app_nil_r.
  - eauto.
Qed.

Lemma evolved_trans (n m : nat) (s1 s2 s3 : DB) :
  evolved n s1 s2 → evolved m s2 s3 → evolved (n + m) s1 s3.
Proof.
  intros (Ha & Hj & (e1 & Hl1 & Hn) & (r1 & Hlen1 & Hk1) & Hr1 & Hp1)
         (Ha' & Hj' & (e2 & Hl2 & Hm) & (r2 & Hlen2 & Hk2) & Hr2 & Hp2).
  unfold evolved. split_and!.
  - intros a. by rewrite Ha', Ha.
  - intros j. by rewrite Hj', Hj.
  - exists (e1 ++ e2). rewrite Hl2, Hl1, <- app_assoc. split; [done|].
    rewrite length_app. lia.
  - exists (r1 ++ r2). split.
    + rewrite Hlen2, !length_app, Hlen1, !length_app. lia.
    + rewrite Hk2, !map_app, Hk1, !map_app, <- app_assoc. done.
  - intros d record Hl. destruct (Hr1 d record Hl) as (record' & Hl' & Hk).
    destruct (Hr2 d record' Hl') as (record'' & Hl'' & Hk').
    exists record''. split; [done|congruence].
  - auto.
Qed.

Lemma evolved_weaken (n m : nat) (s s' : DB) :
  (n <= m)%nat → evolved n s s' → evolved m s s'.
Proof.
  intros Hnm (Ha & Hj & (e & Hl & Hn) & Hrest). unfold evolved.
  split_and!; try tauto. exists e. split; [done|lia].
Qed.

(** A write that touches neither agents nor performance rows and keeps
    the schema view *)
Lemma evolved_in_place (n : nat) (s s' : DB) :
  schema_view s' = schema_view s →
  length (db_jobDistributionAgent s') = length (db_jobDistributionAgent s) →
  db_agent s' = db_agent s →
  db_agentPerformance s' = db_agentPerformance s →
  (∀ j, job_description <$> db_job s' !! j = job_description <$> db_job s !! j) →
  (∃ entries, db_executionLog s' = db_executionLog s ++ entries
              ∧ (length entries <= n)%nat) →
  evolved n s s'.
Proof.
  unfold schema_view. intros [= Hkeys _ _ Hrecs] Hlen Hag Hperf Hjob Hlog.
  unfold evolved. split_and!; try done.
  - intros a. by rewrite Hag.
  - exists []. by rewrite app_nil_r.
  - intros d record Hl.
    assert (Hd : record_key <$> db_jobDistributionRecord s' !! d
                 = Some (record_key record))
      by (by rewrite <- lookup_fmap, Hrecs, lookup_fmap, Hl).
    destruct (db_jobDistributionRecord s' !! d) as [record'|]; [|done].
    exists record'. split; [done|]. cbn in Hd. congruence.
  - unfold performance_holds. by rewrite Hag, Hperf.
Qed.

Lemma log_unchanged (n : nat) (s s' : DB) :
  db_executionLog s' = db_executionLog s →
  ∃ entries, db_executionLog s' = db_executionLog s ++ entries
             ∧ (length entries <= n)%nat.
Proof. intros ->. exists []. rewrite app_nil_r. split; [done|cbn; lia]. Qed.

Lemma evolved_then {A B} (n k : nat) (m : M A) (f : A → M B) (w : World) :
  (∀ w, evolved n (store w) (store (after m w))) →
  (∀ x w, evolved k (store w) (store (after (f x) w))) →
  evolved (n + k) (store w) (store (after (bind m f) w)).
Proof.
  intros Hm Hf. rewrite after_bind. specialize (Hm w). unfold after in Hm.
  destruct (m w) as [w' [x|e]]; cbn [fst] in Hm.
  - eapply evolved_trans; [exact Hm|apply Hf].
  - eapply evolved_weaken; [|exact Hm]. lia.
Qed.

Lemma evolved_updateExecutionStatus (d a : string)
    (status : ExecutionStatusUpdate) (w : World) :
  evolved 1 (store w) (store (after (updateExecutionStatus d a status) w)).
Proof.
  destruct (updateExecutionStatus_frame d a status w)
    as (Hjob & Hag & Hrec & Hperf).
  apply evolved_in_place; try done.
  - apply view_updateExecutionStatus.
  - unfold after.
    destruct (updateExecutionStatus_cases d a status w)
      as [(w' & e & -> & Hst)|(Hex & Hp & Ht)].
    + cbn [fst]. by rewrite Hst.
    + destruct (updateExecutionStatus_run d a status w Hex Hp Ht)
        as (w' & -> & Hrows & _). cbn [fst]. by rewrite Hrows, length_map.
  - intros j. by rewrite Hjob.
  - rewrite updateExecutionStatus_log. eexists. split; [reflexivity|].
    destruct (_ && _); [|cbn; lia].
    destruct (_ !! d); cbn; lia.
Qed.

Lemma updatedPerformance_consistent (p : AgentPerformance) (isSuccess : bool)
    (time : option Z) (now : Z) :
  performance_consistent p →
  performance_consistent (updatedPerformance p isSuccess time now).
Proof.
  intros (Hc & Hf & Ht & _). unfold performance_consistent, updatedPerformance.
  cbn [completedJobs failedJobs totalJobs successRate].
  destruct isSuccess; cbn [negb]; split_and!; try lia; reflexivity.
Qed.

Lemma createdPerformance_consistent (a : string) (isSuccess : bool)
    (time : option Z) (now : Z) :
  performance_consistent (createdPerformance a isSuccess time now).
Proof.
  unfold performance_consistent, createdPerformance.
  cbn [completedJobs failedJobs totalJobs successRate].
  destruct isSuccess; split_and!; try lia; reflexivity.
Qed.

Lemma upserted_consistent (a : string) (isSuccess : bool) (time : option Z)
    (now : Z) (s : DB) :
  performance_holds s →
  perf_agentId (upserted a isSuccess time now s) = a
  ∧ performance_consistent (upserted a isSuccess time now s).
Proof.
  intros Hp. unfold upserted.
  destruct (db_agentPerformance s !! a) as [p|] eqn:Hl.
  - destruct (Hp a p Hl) as (Hid & Hc & _). split; [exact Hid|].
    by apply updatedPerformance_consistent.
  - split; [reflexivity|apply createdPerformance_consistent].
Qed.

Lemma evolved_updateAgentPerformance (a : string) (isSuccess : bool)
    (time : option Z) (w : World) :
  evolved 0 (store w) (store (after (updateAgentPerformance a isSuccess time) w)).
Proof.
  rewrite updateAgentPerformance_effect. cbn zeta.
  set (p := upserted a isSuccess time (wallclock w (ticks w)) (store w)).
  unfold evolved.
  cbn [db_job db_agent db_jobDistributionRecord db_jobDistributionAgent
       db_agentPerformance db_executionLog].
  split_and!; try done.
  - intros a'. destruct (db_agent (store w) !! a) as [agent|] eqn:Hag; [|done].
    destruct (decide (a' = a)) as [->|Hne].
    + by rewrite lookup_insert_eq, Hag.
    + by rewrite lookup_insert_ne.
  - exists []. by rewrite app_nil_r.
  - exists []. by rewrite app_nil_r.
  - eauto.
  - intros Hp a' p' Hl. cbn [db_agentPerformance] in Hl.
    destruct (upserted_consistent a isSuccess time (wallclock w (ticks w))
                (store w) Hp) as [Hid Hc]. fold p in Hid, Hc.
    destruct (decide (a' = a)) as [->|Hne].
    + rewrite lookup_insert_eq in Hl. injection Hl as <-.
      split_and!; try done. intros agent' Hl'. cbn [db_agent] in Hl'.
      destruct (db_agent (store w) !! a) as [agent|] eqn:Hag; [|congruence].
      rewrite lookup_insert_eq in Hl'. by injection Hl' as <-.
    + rewrite lookup_insert_ne in Hl by done.
      destruct (Hp a' p' Hl) as (Hid' & Hc' & Hm). split_and!; try done.
      intros agent' Hl'. cbn [db_agent] in Hl'. apply Hm.
      destruct (db_agent (store w) !! a) as [agent|]; [|done].
      by rewrite lookup_insert_ne in Hl'.
Qed.

Lemma evolved_select (d : string) (strategy : Strategy) (w : World) :
  evolved 0 (store w) (store (after (selectBestAgentAndComplete d strategy) w)).
Proof.
  pose proof (selectBestAgentAndComplete_outcome d strategy w) as H.
  unfold outcome in H. unfold after.
  replace (store (selectBestAgentAndComplete d strategy w).1)
    with (select_outcome d strategy (wallclock w (ticks w))
            (wallclock w (S (ticks w))) (store w)).1 by (by rewrite <- H).
  destruct (select_outcome_frame d strategy (wallclock w (ticks w))
              (wallclock w (S (ticks w))) (store w)) as (Hag & Hperf & Hlog & Hjob).
  apply evolved_in_place; try done.
  - apply view_select_outcome.
  - pose proof (f_equal sv_keys
                  (view_select_outcome d strategy (wallclock w (ticks w))
                     (wallclock w (S (ticks w))) (store w))) as Hk.
    cbn in Hk. apply (f_equal length) in Hk. by rewrite !length_map in Hk.
  - by apply log_unchanged.
Qed.

Lemma evolved_timeout (d : string) (w : World) :
  evolved 0 (store w) (store (after (handleDistributionTimeout d) w)).
Proof.
  pose proof (handleDistributionTimeout_outcome d w) as H.
  unfold outcome in H. unfold after.
  replace (store (handleDistributionTimeout d w).1)
    with (timeout_outcome d (wallclock w (ticks w))
            (wallclock w (S (ticks w))) (wallclock w (S (S (ticks w))))
            (store w)).1 by (by rewrite <- H).
  destruct (timeout_outcome_frame d (wallclock w (ticks w))
              (wallclock w (S (ticks w))) (wallclock w (S (S (ticks w))))
              (store w)) as (Hag & Hperf & Hlog & Hjob).
  apply evolved_in_place; try done.
  - apply view_timeout_outcome.
  - pose proof (f_equal sv_keys
                  (view_timeout_outcome d (wallclock w (ticks w))
                     (wallclock w (S (ticks w)))
                     (wallclock w (S (S (ticks w)))) (store w))) as Hk.
    cbn in Hk. apply (f_equal length) in Hk. by rewrite !length_map in Hk.
  - by apply log_unchanged.
Qed.

Lemma evolved_updateResponseCount (d : string) (w : World) :
  evolved 0 (store w) (store (after (updateResponseCount d) w)).
Proof.
  pose proof (view_updateResponseCount d w) as Hv. unfold after in *.
  rewrite updateResponseCount_effect in *.
  destruct (db_jobDistributionRecord (store w) !! d); [|apply evolved_refl].
  cbn [fst] in *. apply evolved_in_place; try done. by apply log_unchanged.
Qed.

Lemma evolved_job_update (id : string) (f : Job → Job) (w : World) :
  (∀ j, job_description (f j) = job_description j) →
  evolved 0 (store w) (store (after (job_update id f) w)).
Proof.
  intros Hf. pose proof (view_job_update id f w) as Hv.
  rewrite job_update_effect in *.
  destruct (db_job (store w) !! id) as [j|] eqn:Hjob; [|apply evolved_refl].
  apply evolved_in_place; try done; [|by apply log_unchanged].
  intros j'. cbn. destruct (decide (j' = id)) as [->|Hne].
  - rewrite lookup_insert_eq, Hjob. cbn. f_equal.
    change (job_description (touch_job (wallclock w (ticks w)) (f j)))
      with (job_description (f j)). apply Hf.
  - by rewrite lookup_insert_ne.
Qed.

Lemma evolved_processTask (task : QueueTask) (w : World) :
  evolved 0 (store w) (store (after (processTask task) w)).
Proof.
  unfold after at 1. rewrite processTask_effect.
  destruct (db_job (store w) !! task_jobId task); [|apply evolved_refl].
  destruct (has_record_for_job _ _); [apply evolved_refl|].
  cbn [fst]. by apply evolved_job_update.
Qed.

Lemma evolved_jobDistributionAgent_update (d a : string)
    (ints : list (option Z))
    (f : JobDistributionAgent → JobDistributionAgent) (w : World) :
  (∀ r, assignment_key (f r) = assignment_key r) →
  evolved 0 (store w)
    (store (after (jobDistributionAgent_update d a ints f) w)).
Proof.
  intros Hf. pose proof (view_jobDistributionAgent_update d a ints f w Hf) as Hv.
  unfold after, jobDistributionAgent_update in *. revert Hv. run.
  destruct (existsb _ _); run; [|intros Hv; apply evolved_refl].
  destruct (forallb _ _); run; intros Hv; [|apply evolved_refl].
  apply evolved_in_place; try done.
  - cbn. by rewrite length_map.
  - by apply log_unchanged.
Qed.

Lemma evolved_createDistributionRecord (jobId : string) (agents : list Agent)
    (w : World) :
  evolved 0 (store w) (store (after (createDistributionRecord jobId agents) w)).
Proof.
  unfold after.
  destruct (createDistributionRecord jobId agents w) as [w' [record|e]] eqn:Hrun;
    cbn [fst]; cycle 1.
  { apply createDistributionRecord_Err in Hrun. rewrite Hrun.
    apply evolved_refl. }
  apply createDistributionRecord_Ok in Hrun
    as (job & rows & t & Hjob & Hid & Hjid & Hfresh & Hhas & Hrows & Hfk & Hnd
        & Hst & _).
  rewrite Hst. unfold evolved.
  cbn [db_job db_agent db_jobDistributionRecord db_jobDistributionAgent
       db_agentPerformance db_executionLog].
  split_and!; try done.
  - intros j. destruct (decide (j = jobId)) as [->|Hne].
    + by rewrite lookup_insert_eq, Hjob.
    + by rewrite lookup_insert_ne.
  - exists []. by rewrite app_nil_r.
  - eauto.
  - intros d rc Hl. exists rc. split; [|done].
    rewrite lookup_insert_ne; [done|]. congruence.
Qed.

Lemma evolved_perform (w : World) (c : Call) :
  evolved 1 (store w) (store (perform w c)).
Proof.
  destruct c; cbn [perform].
  - apply (evolved_weaken 0); [lia|apply evolved_createDistributionRecord].
  - apply (evolved_weaken 0); [lia|apply evolved_updateResponseCount].
  - apply (evolved_weaken 0); [lia|apply evolved_select].
  - apply (evolved_weaken 0); [lia|apply evolved_timeout].
  - unfold trackAgentExecution. apply (evolved_then 1 0).
    + intros w0. apply evolved_updateExecutionStatus.
    + intros _ w0. rewrite after_bind. cbn [new_Date].
      by apply (evolved_jobDistributionAgent_update distributionId agent _ _
                  {| store := store w0; wallclock := wallclock w0;
                     ticks := S (ticks w0); cuid := cuid w0;
                     minted := minted w0 |}).
  - apply evolved_updateExecutionStatus.
  - unfold handleExecutionCompleted. apply (evolved_then 1 0).
    + intros w0. apply evolved_updateExecutionStatus.
    + intros _ w0. apply evolved_updateAgentPerformance.
  - unfold handleExecutionFailed. apply (evolved_then 1 0).
    + intros w0. apply evolved_updateExecutionStatus.
    + intros _ w0. apply evolved_updateAgentPerformance.
  - unfold handleTimeout. apply (evolved_then 1 0).
    + intros w0. apply evolved_updateExecutionStatus.
    + intros _ w0. apply evolved_updateAgentPerformance.
  - apply (evolved_weaken 0); [lia|apply evolved_processTask].
  - unfold updateAgentExecutionStatus.
    match goal with |- context [match ?m w with _ => _ end] =>
      assert (Hv : evolved 1 (store w) (store (after m w)));
      [|unfold after in Hv; by destruct (m w) as [w' [x|e]]] end.
    apply (evolved_then 1 0).
    + intros w0. apply evolved_updateExecutionStatus.
    + intros _ w0. apply evolved_updateResponseCount.
Qed.

Lemma evolved_calls (calls : list Call) (w : World) :
  evolved (length calls) (store w) (store (fold_left perform calls w)).
Proof.
  revert w. induction calls as [|c calls IH]; intros w; [apply evolved_refl|].
  cbn [fold_left length].
  apply (evolved_trans 1 (length calls) _ (store (perform w c)));
    [apply evolved_perform|apply IH].
Qed.

(** X7.  The execution log is append-only.  Whatever service calls run,
    and however they settle, the log afterwards is the log before followed
    by new entries, at most one per call. *)
Theorem services_append_log (calls : list Call) (w : World) :
  ∃ entries,
    db_executionLog (store (fold_left perform calls w))
    = db_executionLog (store w) ++ entries
    ∧ (length entries <= length calls)%nat.
Proof.
  destruct (evolved_calls calls w) as (_ & _ & Hlog & _). exact Hlog.
Qed.

(** X8.  The services delete nothing and rewrite no identity.  After any
    run of service calls every agent is stored with the profile it had
    (name, address, classification, tags, flags and reputation; only the
    two statistics and [@updatedAt] may differ), every job with the
    description it had (only [status] and [@updatedAt] may differ), every
    distribution record is still there under its [id] and for its job, and
    the keys of the assignment rows are the old keys, in place, followed
    by those of the rows added. *)
Theorem services_keep_identities (calls : list Call) (w : World) :
  let w' := fold_left perform calls w in
  (∀ a, agent_profile <$> db_agent (store w') !! a
        = agent_profile <$> db_agent (store w) !! a)
  ∧ (∀ j, job_description <$> db_job (store w') !! j
          = job_description <$> db_job (store w) !! j)
  ∧ (∀ d record,
       db_jobDistributionRecord (store w) !! d = Some record →
       ∃ record', db_jobDistributionRecord (store w') !! d = Some record'
                  ∧ rec_id record' = rec_id record
                  ∧ rec_jobId record' = rec_jobId record)
  ∧ (∃ added,
       map assignment_key (db_jobDistributionAgent (store w'))
       = map assignment_key (db_jobDistributionAgent (store w)) ++ added).
Proof.
  cbn zeta.
  destruct (evolved_calls calls w) as (Ha & Hj & _ & (rows & _ & Hk) & Hr & _).
  split_and!; try done.
  - intros d record Hl. destruct (Hr d record Hl) as (record' & Hl' & Hkey).
    exists record'. unfold record_key in Hkey. injection Hkey as Hid Hjid.
    done.
  - exists (map assignment_key rows). by rewrite Hk, map_app.
Qed.

Lemma Qdiv_unit (c t : Z) :
  (0 <= c)%Z → (c <= t)%Z → in_unit (inject_Z c / inject_Z t).
Proof.
  intros Hc Ht. unfold in_unit.
  destruct (decide (t = 0)%Z) as [->|Hne].
  - assert (c = 0)%Z as -> by lia. split; by vm_compute.
  - assert (0 < inject_Z t)%Q by (rewrite <- (Zlt_Qlt 0); lia).
    split.
    + apply Qle_shift_div_l; [done|]. rewrite Qmult_0_l.
      rewrite <- (Zle_Qle 0). exact Hc.
    + apply Qle_shift_div_r; [done|]. rewrite Qmult_1_l.
      rewrite <- Zle_Qle. exact Ht.
Qed.

Lemma performance_consistent_rate (p : AgentPerformance) :
  performance_consistent p → in_unit (successRate p).
Proof.
  intros (Hc & Hf & Ht & Hrate). unfold in_unit. rewrite Hrate.
  apply Qdiv_unit; lia.
Qed.

(** X9.  The performance statistics stay consistent.  From a store in
    which every performance row is stored under its agent, has
    non-negative counters with [totalJobs = completedJobs + failedJobs]
    and [successRate = completedJobs / totalJobs], and is mirrored in the
    agent row, any run of service calls leads to a store with the same
    properties; in particular every success rate, in the performance
    table and on the agent, lies between 0 and 1. *)
Theorem services_keep_performance (calls : list Call) (w : World) :
  performance_holds (store w) →
  let w' := fold_left perform calls w in
  performance_holds (store w')
  ∧ ∀ a p,
      db_agentPerformance (store w') !! a = Some p →
      in_unit (successRate p)
      ∧ ∀ agent, db_agent (store w') !! a = Some agent →
                 in_unit (agent_successRate agent).
Proof.
  intros Hp. cbn zeta.
  destruct (evolved_calls calls w) as (_ & _ & _ & _ & _ & Hperf).
  specialize (Hperf Hp). split; [exact Hperf|].
  intros a p Hl. destruct (Hperf a p Hl) as (_ & Hc & Hm).
  split; [by apply performance_consistent_rate|].
  intros agent Hag. destruct (Hm agent Hag) as [_ ->].
  by apply performance_consistent_rate.
Qed.

(** ** Status updates for an assignment that is not there *)

Lemma assignment_None (d a : string) (w : World) :
  assignment d a w = None →
  existsb (same_key d a) (db_jobDistributionAgent (store w)) = false.
Proof.
  unfold assignment. intros H.
  pose proof (find_existsb (same_key d a) (db_jobDistributionAgent (store w)))
    as Hf. by rewrite H in Hf.
Qed.

Lemma outcome_bind_Err {A B} (m : M A) (k : A → M B) (w : World) (s : DB)
    (e : Error) :
  outcome (m w) = (s, Err e) → outcome (bind m k w) = (s, Err e).
Proof.
  unfold outcome, bind. destruct (m w) as [w' [x|e']]; cbn; [discriminate|].
  by intros [= -> ->].
Qed.

Lemma updateExecutionStatus_unknown (d a : string)
    (status : ExecutionStatusUpdate) (w : World) :
  assignment d a w = None →
  outcome (updateExecutionStatus d a status w)
  = (store w, Err RecordToUpdateNotFound).
Proof.
  intros H. apply assignment_None in H.
  destruct (updateExecutionStatus_missing d a status w H) as (w' & -> & Hst).
  unfold outcome. cbn. by rewrite Hst.
Qed.

(** X10.  A status report for a pair (distribution, agent) that has no
    assignment row is rejected with Prisma's record-not-found error by
    every entry point of the tracker, and nothing is written: no row, no
    log entry and, for the three handlers, no performance statistics. *)
Theorem tracker_rejects_unknown_assignment (w : World) (d a : string) :
  assignment d a w = None →
  (∀ status,
     outcome (updateExecutionStatus d a status w)
     = (store w, Err RecordToUpdateNotFound))
  ∧ outcome (trackAgentExecution d a w) = (store w, Err RecordToUpdateNotFound)
  ∧ (∀ result time,
       outcome (handleExecutionCompleted d a result time w)
       = (store w, Err RecordToUpdateNotFound))
  ∧ (∀ message time,
       outcome (handleExecutionFailed d a message time w)
       = (store w, Err RecordToUpdateNotFound))
  ∧ outcome (handleTimeout d a w) = (store w, Err RecordToUpdateNotFound).
Proof.
  intros H. split_and!; intros.
  - by apply updateExecutionStatus_unknown.
  - unfold trackAgentExecution.
    by apply outcome_bind_Err, updateExecutionStatus_unknown.
  - unfold handleExecutionCompleted.
    by apply outcome_bind_Err, updateExecutionStatus_unknown.
  - unfold handleExecutionFailed.
    by apply outcome_bind_Err, updateExecutionStatus_unknown.
  - unfold handleTimeout.
    by apply outcome_bind_Err, updateExecutionStatus_unknown.
Qed.

(** ** Starting an execution *)




(** ** Queries of the tracker *)

Lemma isDistributionCompleted_run (d : string) (w : World) :
  isDistributionCompleted d w
  = (w, Ok (existsb (is_completed_in d) (db_jobDistributionAgent (store w)))).
Proof.
  unfold isDistributionCompleted, jobDistributionAgent_count. run.
  fold (is_completed_in d). rewrite (existsb_filter_length (is_completed_in d)).
  by destruct (List.filter (is_completed_in d) _).
Qed.

(** X12.  [isDistributionCompleted] never rejects and never writes; it
    answers [true] exactly when some assignment of the distribution is
    [COMPLETED]. *)
Theorem isDistributionCompleted_reads (w : World) (d : string) :
  ∃ b,
    isDistributionCompleted d w = (w, Ok b)
    ∧ (b = true
       ↔ ∃ r, In r (assignments_of d (store w)) ∧ workStatus r = COMPLETED).
Proof.
  rewrite isDistributionCompleted_run. eexists. split; [reflexivity|].
  rewrite existsb_exists. unfold assignments_of, is_completed_in. split.
  - intros (r & Hin & Hr). apply andb_true_iff in Hr as [Hd Hc].
    exists r. split; [by apply filter_In|]. by destruct (workStatus r).
  - intros (r & Hin & Hc). apply filter_In in Hin as [Hin Hd].
    exists r. split; [done|]. by rewrite Hd, Hc.
Qed.

(** ** Statistics of a distribution *)

Lemma add_stat_comm (result : DistributionStats)
    (g1 g2 : AgentWorkStatus * Z) :
  fst g1 ≠ fst g2 →
  add_stat (add_stat result g1) g2 = add_stat (add_stat result g2) g1.
Proof.
  destruct g1 as [s1 c1], g2 as [s2 c2]. cbn [fst]. intros Hne.
  unfold add_stat. cbn [fst snd st_totalAgents st_assignedAgents
    st_workingAgents st_completedAgents st_failedAgents st_timeoutAgents
    st_cancelledAgents].
  destruct s1, s2; try done; cbn [AgentWorkStatus_eqb]; f_equal; lia.
Qed.

Lemma fold_add_stat_Permutation (groups groups' : list (AgentWorkStatus * Z))
    (result : DistributionStats) :
  groups ≡ₚ groups' →
  NoDup (map fst groups) →
  fold_left add_stat groups result = fold_left add_stat groups' result.
Proof.
  intros Hperm. revert result.
  induction Hperm as [|g l l' Hperm IH|g1 g2 l|l1 l2 l3 H12 IH12 H23 IH23];
    intros result Hnd.
  - reflexivity.
  - cbn. apply IH. cbn in Hnd. by apply NoDup_cons in Hnd as [_ Hnd].
  - cbn. rewrite add_stat_comm; [reflexivity|].
    cbn in Hnd. apply NoDup_cons in Hnd as [Hnd _].
    intros Heq. apply Hnd. rewrite Heq. by left.
  - rewrite IH12 by done. apply IH23.
    assert (Hp : map fst l1 ≡ₚ map fst l2) by (by apply Permutation_map).
    by rewrite <- Hp.
Qed.

Lemma NoDup_AgentWorkStatus_values : NoDup AgentWorkStatus_values.
Proof.
  unfold AgentWorkStatus_values.
  repeat (apply NoDup_cons_2;
          [rewrite ?not_elem_of_cons; split_and?; try done;
           apply not_elem_of_nil|]).
  apply NoDup_nil_2.
Qed.

Lemma NoDup_groups (count : AgentWorkStatus → Z) :
  NoDup (map fst (List.filter (fun stat => (0 <? snd stat)%Z)
                    (map (fun s => (s, count s)) AgentWorkStatus_values))).
Proof.
  assert (Heq : ∀ l,
            map fst (List.filter (fun stat => (0 <? snd stat)%Z)
                       (map (fun s => (s, count s)) l))
            = List.filter (fun s => (0 <? count s)%Z) l).
  { induction l as [|s l IH]; [reflexivity|]. cbn.
    destruct (0 <? count s)%Z; cbn; by rewrite IH. }
  rewrite Heq. apply NoDup_ListNoDup, List.NoDup_filter, NoDup_ListNoDup.
  apply NoDup_AgentWorkStatus_values.
Qed.

Lemma fold_filter_step (s : AgentWorkStatus) (c : Z)
    (rest : list (AgentWorkStatus * Z)) (result : DistributionStats) :
  (0 <= c)%Z →
  add_stat result (s, 0%Z) = result →
  fold_left add_stat
    (List.filter (fun stat => (0 <? snd stat)%Z) ((s, c) :: rest)) result
  = fold_left add_stat (List.filter (fun stat => (0 <? snd stat)%Z) rest)
      (add_stat result (s, c)).
Proof.
  intros Hc Hzero. cbn [List.filter snd].
  destruct (Z.ltb_spec 0 c); [reflexivity|].
  assert (c = 0%Z) as -> by lia. by rewrite Hzero.
Qed.

Lemma fold_groups (count : AgentWorkStatus → Z) :
  (∀ s, 0 <= count s)%Z →
  fold_left add_stat
    (List.filter (fun stat => (0 <? snd stat)%Z)
       (map (fun s => (s, count s)) AgentWorkStatus_values)) no_stats
  = {| st_totalAgents :=
         count IDLE + count ASSIGNED + count WORKING + count COMPLETED
         + count FAILED + count CANCELLED + count TIMEOUT;
       st_assignedAgents := count ASSIGNED;
       st_workingAgents := count WORKING;
       st_completedAgents := count COMPLETED;
       st_failedAgents := count FAILED;
       st_timeoutAgents := count TIMEOUT;
       st_cancelledAgents := count CANCELLED |}.
Proof.
  intros Hpos. unfold AgentWorkStatus_values, no_stats. cbn [map].
  do 7 (rewrite fold_filter_step;
        [|apply Hpos
         |cbv beta iota zeta delta
            [add_stat fst snd AgentWorkStatus_eqb st_totalAgents
             st_assignedAgents st_workingAgents st_completedAgents
             st_failedAgents st_timeoutAgents st_cancelledAgents];
          f_equal; lia];
        cbv beta iota zeta delta
          [add_stat fst snd AgentWorkStatus_eqb st_totalAgents
           st_assignedAgents st_workingAgents st_completedAgents
           st_failedAgents st_timeoutAgents st_cancelledAgents]).
  cbn [List.filter fold_left]. f_equal; lia.
Qed.

Lemma status_partition (rows : list JobDistributionAgent) :
  Z.of_nat (length rows)
  = (count_status (AgentWorkStatus_eqb IDLE) rows
     + count_status (AgentWorkStatus_eqb ASSIGNED) rows
     + count_status (AgentWorkStatus_eqb WORKING) rows
     + count_status (AgentWorkStatus_eqb COMPLETED) rows
     + count_status (AgentWorkStatus_eqb FAILED) rows
     + count_status (AgentWorkStatus_eqb CANCELLED) rows
     + count_status (AgentWorkStatus_eqb TIMEOUT) rows)%Z.
Proof.
  unfold count_status. induction rows as [|r rows IH]; [reflexivity|].
  cbn [List.filter]. destruct (workStatus r);
    cbn [AgentWorkStatus_eqb] in IH |- *; cbn [length]; lia.
Qed.

Lemma count_status_flip (s : AgentWorkStatus) (rows : list JobDistributionAgent) :
  Z.of_nat (length (List.filter
                      (fun r => AgentWorkStatus_eqb (workStatus r) s) rows))
  = count_status (AgentWorkStatus_eqb s) rows.
Proof.
  unfold count_status. do 2 f_equal. apply filter_ext. intros r.
  by destruct (workStatus r), s.
Qed.

(** X13.  [getDistributionStats] never writes.  [totalAgents] is the
    number of assignment rows of the distribution and each named counter
    the number of its rows in that status, so [totalAgents] exceeds the
    sum of the six counters by the number of [IDLE] rows, which no counter
    shows.  The result does not depend on the order in which the database
    returns the groups. *)
Theorem getDistributionStats_counts (w : World) (d : string) :
  ∃ stats groups,
    getDistributionStats d w = (w, Ok stats)
    ∧ jobDistributionAgent_groupBy_workStatus (in_distribution d) w
      = (w, Ok groups)
    ∧ (∀ groups', groups' ≡ₚ groups →
                  fold_left add_stat groups' no_stats = stats)
    ∧ let rows := assignments_of d (store w) in
      st_totalAgents stats = Z.of_nat (length rows)
      ∧ st_assignedAgents stats = count_status (AgentWorkStatus_eqb ASSIGNED) rows
      ∧ st_workingAgents stats = count_status (AgentWorkStatus_eqb WORKING) rows
      ∧ st_completedAgents stats
        = count_status (AgentWorkStatus_eqb COMPLETED) rows
      ∧ st_failedAgents stats = count_status (AgentWorkStatus_eqb FAILED) rows
      ∧ st_timeoutAgents stats = count_status (AgentWorkStatus_eqb TIMEOUT) rows
      ∧ st_cancelledAgents stats
        = count_status (AgentWorkStatus_eqb CANCELLED) rows
      ∧ st_totalAgents stats
        = (st_assignedAgents stats + st_workingAgents stats
           + st_completedAgents stats + st_failedAgents stats
           + st_timeoutAgents stats + st_cancelledAgents stats
           + count_status (AgentWorkStatus_eqb IDLE) rows)%Z.
Proof.
  unfold getDistributionStats, jobDistributionAgent_groupBy_workStatus. run.
  fold (assignments_of d (store w)).
  set (rows := assignments_of d (store w)).
  set (count := fun s =>
         Z.of_nat (length (List.filter
                             (fun r => AgentWorkStatus_eqb (workStatus r) s)
                             rows))).
  eexists _, _. split; [reflexivity|]. split; [reflexivity|].
  change (map _ AgentWorkStatus_values)
    with (map (fun s => (s, count s)) AgentWorkStatus_values).
  split.
  - intros groups' Hperm. symmetry.
    apply fold_add_stat_Permutation; [by symmetry|apply NoDup_groups].
  - rewrite fold_groups by (intros s; unfold count; lia).
    cbn [st_totalAgents st_assignedAgents st_workingAgents st_completedAgents
         st_failedAgents st_timeoutAgents st_cancelledAgents].
    unfold count. rewrite !count_status_flip.
    pose proof (status_partition rows) as Hpart.
    split_and!; try reflexivity; lia.
Qed.

(** ** Availability *)

Lemma checkAgentAvailability_available (a : string) (w : World) :
  checkAgentAvailability a w = (w, Ok (available (store w) a)).
Proof.
  unfold checkAgentAvailability, jobDistributionAgent_count, available. run.
  fold (busy_with a).
  rewrite (existsb_filter_length (busy_with a)).
  destruct (List.filter (busy_with a) (db_jobDistributionAgent (store w)))
    as [|r rows]; [|reflexivity].
  cbn [length]. change (0 <? Z.of_nat 0)%Z with false. run.
  destruct (db_agent (store w) !! a) as [agent|]; [|reflexivity].
  by destruct (isActive agent), (autoAcceptJobs agent).
Qed.

(** X14.  [checkAgentAvailability] never rejects and never writes.  It
    answers [true] exactly when [getAgentWorkStatus] lists nothing for the
    agent and the agent is stored, active and accepts jobs by itself;
    every status [getAgentWorkStatus] lists is [ASSIGNED] or [WORKING]. *)
Theorem checkAgentAvailability_reads (w : World) (a : string) :
  ∃ b statuses,
    checkAgentAvailability a w = (w, Ok b)
    ∧ getAgentWorkStatus a w = (w, Ok statuses)
    ∧ Forall (fun s => s = ASSIGNED ∨ s = WORKING) statuses
    ∧ (b = true
       ↔ statuses = []
         ∧ ∃ agent, db_agent (store w) !! a = Some agent
                    ∧ isActive agent = true ∧ autoAcceptJobs agent = true).
Proof.
  rewrite checkAgentAvailability_available.
  unfold getAgentWorkStatus. run. fold (busy_with a).
  eexists _, _. split; [reflexivity|]. split; [reflexivity|]. split.
  - apply Forall_map, Forall_forall. intros r Hr.
    apply list_elem_of_In, filter_In in Hr as [_ Hr].
    unfold busy_with in Hr. apply andb_true_iff in Hr as [_ Hr].
    by apply status_in_open.
  - unfold available. rewrite (existsb_filter_length (busy_with a)).
    destruct (List.filter (busy_with a) (db_jobDistributionAgent (store w)))
      as [|r rows]; cbn.
    + destruct (db_agent (store w) !! a) as [agent|].
      * rewrite andb_true_iff. split.
        -- intros [? ?]. eauto.
        -- intros (_ & agent' & [= <-] & ? & ?). done.
      * split; [done|]. by intros (_ & agent' & [=] & _).
    + split; [done|]. by intros [[=] _].
Qed.

(** ** Validation *)

Lemma filterValidAgents_loop_filter (agents : list Agent)
    (criteria : MatchCriteria) (validAgents : list Agent) (w : World) :
  filterValidAgents_loop agents criteria validAgents w
  = (w, Ok (validAgents
            ++ List.filter
                 (fun agent =>
                    available (store w) (agent_id agent)
                    && isSkillLevelMatch agent (mc_skillLevel criteria))
                 agents)).
Proof.
  revert validAgents. induction agents as [|agent agents IH]; intros validAgents.
  - cbn. by rewrite app_nil_r.
  - cbn [filterValidAgents_loop List.filter]. rewrite bind_run.
    rewrite checkAgentAvailability_available.
    destruct (available (store w) (agent_id agent)); cbn [negb andb];
      [|apply IH].
    destruct (isSkillLevelMatch agent (mc_skillLevel criteria)); cbn [negb];
      [|apply IH].
    cbn [isCategoryMatch negb]. rewrite IH, <- app_assoc. reflexivity.
Qed.

(** X15.  [filterValidAgents] never rejects and never writes.  It
    returns, in the order given, exactly the agents that are available
    in the store and whose classification meets the job's skill level;
    the category, tags and budget of the criteria play no part. *)
Theorem filterValidAgents_filters (w : World) (agents : list Agent)
    (criteria : MatchCriteria) :
  ∃ valid,
    filterValidAgents agents criteria w = (w, Ok valid)
    ∧ valid = List.filter
                (fun agent =>
                   available (store w) (agent_id agent)
                   && isSkillLevelMatch agent (mc_skillLevel criteria))
                agents
    ∧ sublist valid agents
    ∧ Forall (fun agent =>
                Forall (fun r => agentId r = agent_id agent →
                                 workStatus r ≠ ASSIGNED
                                 ∧ workStatus r ≠ WORKING)
                       (db_jobDistributionAgent (store w))
                ∧ (∃ stored, db_agent (store w) !! agent_id agent = Some stored
                             ∧ isActive stored = true
                             ∧ autoAcceptJobs stored = true)
                ∧ isSkillLevelMatch agent (mc_skillLevel criteria) = true)
             valid
    ∧ ∀ criteria',
        mc_skillLevel criteria' = mc_skillLevel criteria →
        filterValidAgents agents criteria' w = (w, Ok valid).
Proof.
  unfold filterValidAgents. rewrite filterValidAgents_loop_filter.
  cbn [app]. eexists. split; [reflexivity|]. split; [reflexivity|].
  split_and!.
  - induction agents as [|agent agents IH]; [constructor|]. cbn.
    destruct (_ && _); by constructor.
  - apply Forall_forall. intros agent Hin.
    apply list_elem_of_In, filter_In in Hin as [_ Hok].
    apply andb_true_iff in Hok as [Hav Hskill].
    unfold available in Hav. apply andb_true_iff in Hav as [Hbusy Hstored].
    split_and!; [|
      destruct (db_agent (store w) !! agent_id agent) as [stored|]; [|done];
      apply andb_true_iff in Hstored; eauto|done].
    apply Forall_forall. intros r Hr Hid.
    apply negb_true_iff in Hbusy.
    assert (Hb : busy_with (agent_id agent) r = false).
    { destruct (busy_with (agent_id agent) r) eqn:Hb; [|done].
      assert (existsb (busy_with (agent_id agent))
                (db_jobDistributionAgent (store w)) = true); [|congruence].
      apply existsb_exists. exists r. split; [|done].
      by apply list_elem_of_In. }
    unfold busy_with in Hb. rewrite Hid, String.eqb_refl in Hb. cbn in Hb.
    by destruct (workStatus r).
  - intros criteria' Hsame. rewrite filterValidAgents_loop_filter.
    by rewrite Hsame.
Qed.

(** ** Ranking *)






(** ** Skill levels *)

Lemma indexOf_skillLevels_empty : indexOf skillLevels "" = None.
Proof. reflexivity. Qed.

Lemma isSkillLevelMatch_cases (agent : Agent) (jobSkillLevel : string) :
  isSkillLevelMatch agent jobSkillLevel
  = match indexOf skillLevels (toLowerCase (agentClassification agent)),
          indexOf skillLevels (toLowerCase jobSkillLevel) with
    | Some i, Some j => (j <=? i)%nat
    | _, _ => true
    end.
Proof.
  unfold isSkillLevelMatch.
  destruct (String.eqb_spec (toLowerCase (agentClassification agent)) "")
    as [->|_]; [by rewrite indexOf_skillLevels_empty|].
  destruct (String.eqb_spec (toLowerCase jobSkillLevel) "") as [->|_];
    [|reflexivity].
  rewrite indexOf_skillLevels_empty. cbn [orb].
  by destruct (indexOf skillLevels _).
Qed.

(** X17.  [isSkillLevelMatch] turns an agent away in one case only: the
    classification and the job's level, lower-cased, both stand on the
    scale beginner, intermediate, advanced, expert, and the
    classification stands strictly below the level.  An empty or unknown
    classification or level always passes, and so does an expert. *)
Theorem isSkillLevelMatch_rejects (agent : Agent) (jobSkillLevel : string) :
  (isSkillLevelMatch agent jobSkillLevel = false
   ↔ ∃ i j,
       indexOf skillLevels (toLowerCase (agentClassification agent)) = Some i
       ∧ indexOf skillLevels (toLowerCase jobSkillLevel) = Some j
       ∧ (i < j)%nat)
  ∧ (toLowerCase (agentClassification agent) = "expert" →
     isSkillLevelMatch agent jobSkillLevel = true)
  ∧ (toLowerCase jobSkillLevel = "beginner" →
     isSkillLevelMatch agent jobSkillLevel = true).
Proof.
  rewrite isSkillLevelMatch_cases. split_and!.
  - destruct (indexOf skillLevels (toLowerCase (agentClassification agent)))
      as [i|]; cycle 1.
    { split; [done|]. by intros (i & j & [=] & _). }
    destruct (indexOf skillLevels (toLowerCase jobSkillLevel)) as [j|]; cycle 1.
    { split; [done|]. by intros (i' & j & _ & [=] & _). }
    rewrite Nat.leb_gt. split.
    + intros Hlt. by exists i, j.
    + by intros (i' & j' & [= <-] & [= <-] & Hlt).
  - intros ->.
    change (indexOf skillLevels "expert") with (Some 3%nat).
    destruct (indexOf skillLevels (toLowerCase jobSkillLevel)) as [j|] eqn:Hj;
      [|done].
    apply Nat.leb_le.
    assert (Hbound : ∀ l x k, indexOf l x = Some k → (k < length l)%nat).
    { induction l as [|y l IH]; intros x k; cbn; [done|].
      destruct (String.eqb y x); [intros [= <-]; lia|].
      destruct (indexOf l x) as [k'|] eqn:Hk; cbn; [|done].
      intros [= <-]. specialize (IH x k' Hk). lia. }
    apply Hbound in Hj. cbn in Hj. lia.
  - intros ->.
    change (indexOf skillLevels "beginner") with (Some 0%nat).
    by destruct (indexOf skillLevels _).
Qed.

Lemma bonus_levels_match (a j : string) :
  (0 < (if String.eqb a j then 2 # 10
        else if (String.eqb a "expert" && String.eqb j "intermediate")
                || (String.eqb a "intermediate" && String.eqb j "beginner")
             then 1 # 10 else 0))%Q →
  match indexOf skillLevels a, indexOf skillLevels j with
  | Some i, Some k => (k <=? i)%nat
  | _, _ => true
  end = true.
Proof.
  destruct (String.eqb_spec a j) as [->|_].
  { intros _. destruct (indexOf skillLevels j); [|done]. apply Nat.leb_refl. }
  destruct (String.eqb a "expert") eqn:H1, (String.eqb j "intermediate") eqn:H2,
    (String.eqb a "intermediate") eqn:H3, (String.eqb j "beginner") eqn:H4;
    cbn [andb orb]; intros H; try lra;
    repeat match goal with
           | E : String.eqb _ _ = true |- _ => apply String.eqb_eq in E
           end;
    subst; try discriminate; reflexivity.
Qed.

(** X18.  The skill-level bonus and the skill-level filter agree in one
    direction: an agent that [calculateSkillMatch] grants a bonus for the
    job's level is never turned away by [isSkillLevelMatch]. *)
Theorem skillLevelBonus_implies_match (agent : Agent) (job : Job) :
  (0 < skillLevelBonus agent job)%Q →
  isSkillLevelMatch agent (skillLevel job) = true.
Proof.
  rewrite isSkillLevelMatch_cases. unfold skillLevelBonus.
  apply bonus_levels_match.
Qed.

(** ** Availability falls with load *)

Lemma availabilitySteps_antitone (n m : Z) :
  (0 <= n <= m)%Z → (availabilitySteps m <= availabilitySteps n)%Q.
Proof.
  intros [Hn Hm]. unfold availabilitySteps.
  destruct (Z.eqb_spec n 0), (Z.eqb_spec m 0),
    (Z.leb_spec n 3), (Z.leb_spec m 3), (Z.leb_spec n 6), (Z.leb_spec m 6),
    (Z.leb_spec n 10), (Z.leb_spec m 10); try lia; by vm_compute.
Qed.

(** X19.  Work never raises availability.  At the same clock reading,
    the availability score of an agent in a store with further
    assignment rows is at most its score without them; both scores are
    one of the five steps, between 0 and 1. *)
Theorem more_work_never_raises_availability (w : World) (a : string)
    (more : list JobDistributionAgent) :
  let w2 :=
    set_store (set_db_jobDistributionAgent
                 (db_jobDistributionAgent (store w) ++ more) (store w)) w in
  ∃ q1 q2,
    snd (calculateAvailabilityScore a w) = Ok q1
    ∧ snd (calculateAvailabilityScore a w2) = Ok q2
    ∧ (q2 <= q1)%Q
    ∧ in_unit q1 ∧ in_unit q2.
Proof.
  cbn zeta. unfold calculateAvailabilityScore, jobDistributionAgent_count. run.
  eexists _, _. split; [reflexivity|]. split; [reflexivity|].
  split; [|split; apply availabilitySteps_range].
  apply availabilitySteps_antitone. rewrite List.filter_app, length_app. lia.
Qed.

(** ** The score of a result *)

(** The score from the base on: a bonus never lowers it, and the two
    bonuses together add at most 70. *)
Lemma result_score_range (base : Q) (time : option Z) (text : option string) :
  base = 0%Q ∨ base = 100%Q →
  (∀ ms, time = Some ms → (0 <= ms)%Z) →
  let timed := match truthyZ time with
               | Some ms => fadd base (timeScore ms)
               | None => base
               end in
  (base
   <= match truthyS text with
      | Some result =>
          if (0 <? length_utf16 result)%nat
          then fadd timed (contentScore (length_utf16 result))
          else timed
      | None => timed
      end
   <= base + 70)%Q.
Proof.
  intros Hbase Hms. cbv zeta.
  set (timed := match truthyZ time with
                | Some ms => fadd base (timeScore ms)
                | None => base
                end).
  assert (Hfixed : (binary64 base == base)%Q)
    by (destruct Hbase as [-> | ->]; vm_compute; reflexivity).
  assert (Ht : (binary64 timed == timed)%Q ∧ (base <= timed <= base + 50)%Q).
  { subst timed. destruct time as [ms|]; cbn [truthyZ];
      [destruct (ms =? 0)%Z|]; try (split; [exact Hfixed|lra]).
    split; [apply fadd_double|]. split.
    - apply fadd_bonus; [exact Hfixed|apply timeScore_nonneg].
    - apply Qle_trans with (fadd base 50).
      + apply fadd_mono; [lra|]. apply timeScore_range. by apply Hms.
      + destruct Hbase as [-> | ->]; vm_compute; discriminate. }
  destruct Ht as [Hdouble Ht].
  assert (Hc : ∀ n, (base <= fadd timed (contentScore n) <= base + 70)%Q).
  { intros n. split.
    - apply Qle_trans with timed; [lra|].
      apply fadd_bonus; [exact Hdouble|apply contentScore_range].
    - apply Qle_trans with (fadd (base + 50) 20).
      + apply fadd_mono; [lra|apply contentScore_range].
      + destruct Hbase as [-> | ->]; vm_compute; discriminate. }
  destruct (truthyS text) as [result|]; [|lra].
  destruct (0 <? length_utf16 result)%nat; [apply Hc|lra].
Qed.

(** X20.  Bounds of [calculateResultScore].  For an execution whose
    time, if any, is not negative, the score lies between 0 and 170; a
    [COMPLETED] execution scores at least 100 and any other at most 70, so
    a completed result always outranks one that is not. *)
Theorem calculateResultScore_bounds (e : AgentExecutionResult) :
  (∀ ms, aer_executionTimeMs e = Some ms → (0 <= ms)%Z) →
  (0 <= calculateResultScore e <= 170)%Q
  ∧ (aer_workStatus e = COMPLETED → (100 <= calculateResultScore e)%Q)
  ∧ (aer_workStatus e ≠ COMPLETED → (calculateResultScore e <= 70)%Q).
Proof.
  intros Hms. rewrite calculateResultScore_steps. cbv zeta.
  destruct (AgentWorkStatus_eqb (aer_workStatus e) COMPLETED) eqn:Hst.
  - pose proof (result_score_range 100 (aer_executionTimeMs e)
                  (aer_executionResult e) (or_intror eq_refl) Hms) as H.
    cbv zeta in H. split_and!; try lra.
    intros Hne. by destruct (aer_workStatus e).
  - pose proof (result_score_range 0 (aer_executionTimeMs e)
                  (aer_executionResult e) (or_introl eq_refl) Hms) as H.
    cbv zeta in H. split_and!; try lra.
    intros Heq. rewrite Heq in Hst. discriminate.
Qed.

(** The content step of the score in terms of the length of the text *)
Lemma content_step (text : option string) (timed : Q) :
  match truthyS text with
  | Some result =>
      if (0 <? length_utf16 result)%nat
      then fadd timed (contentScore (length_utf16 result))
      else timed
  | None => timed
  end
  = if (0 <? resultLength text)%nat
    then fadd timed (contentScore (resultLength text))
    else timed.
Proof.
  destruct text as [s|]; [|reflexivity]. cbn [truthyS resultLength].
  destruct (String.eqb_spec s "") as [->|_]; reflexivity.
Qed.

(** X21.  Faster and longer never scores lower.  Of two executions in
    the same status, the one with the shorter reported time (not zero,
    which the code reads as no time at all) and the longer result text,
    in UTF-16 code units as [.length] counts it, scores at least as
    high. *)
Theorem faster_longer_scores_no_lower (e1 e2 : AgentExecutionResult)
    (ms1 ms2 : Z) :
  aer_workStatus e1 = aer_workStatus e2 →
  aer_executionTimeMs e1 = Some ms1 →
  aer_executionTimeMs e2 = Some ms2 →
  ms1 ≠ 0%Z →
  (ms1 <= ms2)%Z →
  (resultLength (aer_executionResult e2)
   <= resultLength (aer_executionResult e1))%nat →
  (calculateResultScore e2 <= calculateResultScore e1)%Q.
Proof.
  intros Hst Ht1 Ht2 Hnz Hle Hlen. rewrite !calculateResultScore_steps.
  cbv zeta. rewrite Hst, Ht1, Ht2, !content_step. cbn [truthyZ].
  destruct (Z.eqb_spec ms1 0) as [|_]; [done|].
  set (base := if AgentWorkStatus_eqb (aer_workStatus e2) COMPLETED
               then 100%Q else 0%Q).
  assert (Hfixed : (binary64 base == base)%Q)
    by (subst base; destruct (AgentWorkStatus_eqb _ _); vm_compute;
        reflexivity).
  set (timed1 := fadd base (timeScore ms1)).
  set (timed2 := if (ms2 =? 0)%Z then base else fadd base (timeScore ms2)).
  assert (Htimed : (timed2 <= timed1)%Q).
  { subst timed1 timed2. destruct (ms2 =? 0)%Z.
    - apply fadd_bonus; [exact Hfixed|apply timeScore_nonneg].
    - apply fadd_mono; [lra|by apply timeScore_antitone]. }
  assert (Hbonus : ∀ n, (timed1 <= fadd timed1 (contentScore n))%Q).
  { intros n. apply fadd_bonus; [apply fadd_double|apply contentScore_range]. }
  set (n1 := resultLength (aer_executionResult e1)) in *.
  set (n2 := resultLength (aer_executionResult e2)) in *.
  replace (match (if (ms2 =? 0)%Z then None else Some ms2) with
           | Some ms => fadd base (timeScore ms)
           | None => base
           end) with timed2 by (subst timed2; by destruct (ms2 =? 0)%Z).
  destruct (Nat.ltb_spec 0 n2) as [Hn2|Hn2].
  - destruct (Nat.ltb_spec 0 n1) as [Hn1|Hn1]; [|lia].
    apply fadd_mono; [exact Htimed|by apply contentScore_mono].
  - destruct (Nat.ltb_spec 0 n1) as [Hn1|Hn1]; [|exact Htimed].
    apply Qle_trans with timed1; [exact Htimed|apply Hbonus].
Qed.

(** ** The response count *)

(** X22.  [updateResponseCount] for an unknown distribution rejects
    with the record-not-found error and writes nothing.  For a known one
    it resolves, the stored count lies between 0 and the number of
    assignment rows of the distribution, and a second call changes
    nothing. *)
Theorem updateResponseCount_settles (w : World) (d : string) :
  match db_jobDistributionRecord (store w) !! d with
  | None => updateResponseCount d w = (w, Err RecordToUpdateNotFound)
  | Some record =>
      ∃ w1 n,
        updateResponseCount d w = (w1, Ok tt)
        ∧ updateResponseCount d w1 = (w1, Ok tt)
        ∧ responseCount <$> db_jobDistributionRecord (store w1) !! d = Some n
        ∧ (0 <= n <= Z.of_nat (length (assignments_of d (store w))))%Z
  end.
Proof.
  rewrite updateResponseCount_effect.
  destruct (db_jobDistributionRecord (store w) !! d) as [record|] eqn:Hrec;
    [|reflexivity].
  eexists _, _. split; [reflexivity|].
  rewrite updateResponseCount_effect.
  cbn [store set_store db_jobDistributionRecord set_db_jobDistributionRecord].
  rewrite !lookup_insert_eq. split_and!.
  - unfold assignments_of.
    cbn [db_jobDistributionAgent set_db_jobDistributionAgent
         set_db_jobDistributionRecord].
    rewrite insert_insert_eq. reflexivity.
  - reflexivity.
  - cbn [responseCount set_responseCount]. unfold count_status. lia.
  - cbn [responseCount set_responseCount]. unfold count_status.
    apply inj_le, List.filter_length_le.
Qed.

(** ** The status callback of the controller *)



(** ** Queue tasks *)

(** X24.  [processTask] never rejects.  It leaves alone a job that has a
    distribution record and a task whose job is not stored: then nothing
    is written.  Any other job it marks [DISTRIBUTED], whatever its status
    was: the stored job has status [DISTRIBUTED] and the clock reading in
    [updatedAt], its other columns and every other job are as they were,
    and nothing else is written. *)
Theorem processTask_marks (w : World) (task : QueueTask) :
  ∃ w',
    processTask task w = (w', Ok tt)
    ∧ db_agent (store w') = db_agent (store w)
    ∧ db_jobDistributionRecord (store w') = db_jobDistributionRecord (store w)
    ∧ db_jobDistributionAgent (store w') = db_jobDistributionAgent (store w)
    ∧ db_agentPerformance (store w') = db_agentPerformance (store w)
    ∧ db_executionLog (store w') = db_executionLog (store w)
    ∧ match db_job (store w) !! task_jobId task with
      | Some job =>
          if has_record_for_job (task_jobId task)
               (db_jobDistributionRecord (store w))
          then w' = w
          else (∃ job',
                  db_job (store w') !! task_jobId task = Some job'
                  ∧ job_status job' = DISTRIBUTED
                  ∧ job_updatedAt job' = wallclock w (ticks w)
                  ∧ (job_id job', jobTitle job', job_category job',
                     skillLevel job', job_tags job', maxBudget job')
                    = (job_id job, jobTitle job, job_category job,
                       skillLevel job, job_tags job, maxBudget job))
               ∧ ∀ j, j ≠ task_jobId task →
                      db_job (store w') !! j = db_job (store w) !! j
      | None => w' = w
      end.
Proof.
  rewrite processTask_effect.
  destruct (db_job (store w) !! task_jobId task) as [job|] eqn:Hjob;
    [|by exists w].
  destruct (has_record_for_job _ _); [by exists w|].
  eexists. split; [reflexivity|]. rewrite job_update_effect, Hjob.
  split_and!; try done.
  - eexists. cbn [store set_db_job db_job]. rewrite lookup_insert_eq.
    split; [reflexivity|]. by split_and!.
  - intros j Hj. cbn [store set_db_job db_job]. by rewrite lookup_insert_ne.
Qed.

(** X25.  A distributed job is not processed again.  Once
    [createDistributionRecord] has committed for a job, [processTask] for
    a task of that job resolves without a write, so the job keeps the
    status the distribution has given it. *)
Theorem processTask_after_create (w w1 : World) (task : QueueTask)
    (agents : list Agent) (record : JobDistributionRecord) :
  createDistributionRecord (task_jobId task) agents w = (w1, Ok record) →
  processTask task w1 = (w1, Ok tt).
Proof.
  intros Hrun.
  apply createDistributionRecord_Ok in Hrun
    as (job & rows & t & Hjob & Hid & Hjid & Hfresh & Hhas & _ & _ & _ & Hst
        & _).
  rewrite processTask_effect, Hst.
  cbn [db_job db_jobDistributionRecord].
  rewrite lookup_insert_eq, has_record_for_job_insert; done.
Qed.

(** ** Reading a distribution *)

(** X26.  [getDistributionDetail] never writes and leaves the clock
    alone.  It resolves to [null] exactly when no record has the id;
    otherwise it lists one execution per assignment row of the
    distribution, in table order, with the row's agent, distribution and
    status.  It rejects only when an assignment's agent is not stored,
    which the foreign key excludes. *)
Theorem getDistributionDetail_reads (w : World) (d : string) :
  ∃ result,
    getDistributionDetail d w = (w, result)
    ∧ (result = Ok None ↔ db_jobDistributionRecord (store w) !! d = None)
    ∧ (∀ detail,
         result = Ok (Some detail) →
         map aer_agentId (agentExecutions detail)
         = map agentId (assignments_of d (store w))
         ∧ map aer_workStatus (agentExecutions detail)
           = map workStatus (assignments_of d (store w))
         ∧ Forall (fun e => aer_distributionId e = d) (agentExecutions detail))
    ∧ (∀ e, result = Err e → e = TypeError ∧ ¬ agents_resolve (store w))
    ∧ (agents_resolve (store w) → ∃ detail, result = Ok detail).
Proof.
  unfold getDistributionDetail, jobDistributionRecord_findUnique.
  rewrite !bind_run. cbn [query].
  destruct (db_jobDistributionRecord (store w) !! d) as [record|] eqn:Hrec;
    cycle 1.
  { cbn [ret]. eexists. split; [reflexivity|]. split_and!; try done.
    eauto. }
  rewrite !bind_run. cbn [query]. rewrite bind_run, traverse_toExecution.
  fold (assignments_of d (store w)).
  destruct (executions_of (db_agent (store w)) (assignments_of d (store w)))
    as [es|e] eqn:Hes.
  - cbn [ret]. eexists. split; [reflexivity|]. split_and!; try done.
    + intros detail [= <-]. cbn [agentExecutions].
      destruct (executions_of_status _ _ _ Hes) as (Hs & Ha & Hd).
      split_and!; try done.
      apply Forall_forall. intros e He.
      apply list_elem_of_In, (in_map aer_distributionId) in He.
      rewrite Hd in He. apply in_map_iff in He as (r & <- & Hr).
      apply filter_In in Hr as [_ Hr]. by apply in_distribution_true.
    + eauto.
  - eexists. split; [reflexivity|]. split_and!; try done.
    + intros e' [= <-].
      assert (Hnot : ¬ agents_resolve (store w)).
      { intros Hag.
        destruct (executions_of_resolved (db_agent (store w))
                    (assignments_of d (store w))) as (es & Hes' & _);
          [by apply agents_resolve_assignments|congruence]. }
      split; [|exact Hnot].
      clear -Hes. revert Hes.
      induction (assignments_of d (store w)) as [|r rows IH]; cbn; [done|].
      destruct (db_agent (store w) !! agentId r); [|by intros [= <-]].
      destruct (executions_of (db_agent (store w)) rows); [done|].
      intros [= <-]. by apply IH.
    + intros Hag.
      destruct (executions_of_resolved (db_agent (store w))
                  (assignments_of d (store w))) as (es & Hes' & _);
        [by apply agents_resolve_assignments|congruence].
Qed.

(** ** Calling an agent *)

Lemma backoff_nth (delay multiplier : Q) (k i : nat) (d : Q) :
  backoff delay multiplier k !! i = Some d →
  (d == delay * multiplier ^ Z.of_nat i)%Q.
Proof.
  revert delay i. induction k as [|k IH]; intros delay i; [done|].
  destruct i as [|i]; cbn [backoff lookup list_lookup].
  - intros [= <-]. change (multiplier ^ Z.of_nat 0)%Q with 1%Q. ring.
  - intros Hl. rewrite (IH _ _ Hl).
    rewrite Nat2Z.inj_succ, <- Z.add_1_r, Qpower_plus' by lia.
    change (multiplier ^ 1)%Q with multiplier. ring.
Qed.

Lemma executeWithRetry_loop_waits {T} (operation : IO T) (config : RetryConfig)
    (operationName : string) (remaining : nat) (attempt : Z) (delay : Q)
    (lastError : option Thrown) (net : Wire) :
  one_request operation →
  (Z.of_nat remaining + attempt = maxRetries config + 1)%Z →
  let result :=
    executeWithRetry_loop remaining operation config operationName attempt
      delay lastError net in
  ∃ k,
    (k <= pred remaining)%nat
    ∧ settles (fst result) = settles net
    ∧ waited (fst result)
      = waited net ++ backoff delay (backoffMultiplier config) k
    ∧ sent (fst result)
      = (sent net + match remaining with O => 0 | S _ => S k end)%nat
    ∧ (retryCondition config = None → k = 0%nat)
    ∧ (∀ value, snd (operation net) = inl value →
                remaining ≠ 0%nat → k = 0%nat ∧ snd result = inl value).
Proof.
  intros Hop. cbn zeta.
  revert attempt delay lastError net.
  induction remaining as [|remaining IH]; intros attempt delay lastError net Hinv.
  - exists 0%nat. cbn. rewrite app_nil_r, Nat.add_0_r. by split_and!.
  - cbn [executeWithRetry_loop].
    destruct (Hop net) as (Hsettles & Hsent & Hwaited).
    destruct (operation net) as [net' [value|error]] eqn:Hrun;
      cbn [fst snd] in *.
    { exists 0%nat. cbn [backoff]. rewrite app_nil_r, Hsent.
      split_and!; try done; try lia. }
    destruct (Z.eqb_spec attempt (maxRetries config)) as [Heq|Hne];
      cbn [orb].
    { exists 0%nat. cbn [backoff fst]. rewrite app_nil_r, Hsent.
      split_and!; try done; lia. }
    destruct (retryCondition config) as [condition|] eqn:Hcond; cycle 1.
    { cbn [negb]. exists 0%nat. cbn [backoff fst]. rewrite app_nil_r, Hsent.
      split_and!; try done; lia. }
    destruct (condition error); cbn [negb]; cycle 1.
    { exists 0%nat. cbn [backoff fst]. rewrite app_nil_r, Hsent.
      split_and!; try done; lia. }
    destruct (IH (attempt + 1)%Z (delay * backoffMultiplier config)%Q
                (Some (as_Error error)) (setTimeout delay net'))
      as (k & Hk & Hs & Hw & Hn & _ & _); [lia|].
    destruct remaining as [|remaining]; [lia|].
    exists (S k). cbn [backoff]. rewrite Hs, Hw, Hn. cbn [setTimeout settles
      waited sent]. rewrite Hwaited, Hsent, <- app_assoc.
    split_and!; try done; try lia.
Qed.

(** X27.  [executeWithRetry] backs off geometrically and gives up in
    time.  For an operation that sends one request per run, the call
    sends [k + 1] requests and waits [k] times, with [k] at most
    [maxRetries]; the i-th wait is [retryDelay * backoffMultiplier ^ i].
    Without a retry condition it never waits, and when the first run
    resolves it resolves to the same value with no wait.  With a negative
    [maxRetries] nothing is sent at all. *)
Theorem executeWithRetry_backs_off {T} (operation : IO T)
    (config : RetryConfig) (operationName : string) (net : Wire) :
  one_request operation →
  let result := executeWithRetry operation config operationName net in
  ∃ k,
    (k <= Z.to_nat (maxRetries config))%nat
    ∧ waited (fst result)
      = waited net ++ backoff (retryDelay config) (backoffMultiplier config) k
    ∧ (∀ i d,
         backoff (retryDelay config) (backoffMultiplier config) k !! i = Some d →
         (d == retryDelay config * backoffMultiplier config ^ Z.of_nat i)%Q)
    ∧ sent (fst result)
      = (sent net + if (maxRetries config <? 0)%Z then 0 else S k)%nat
    ∧ (retryCondition config = None → k = 0%nat)
    ∧ (∀ value, snd (operation net) = inl value →
                (0 <= maxRetries config)%Z →
                k = 0%nat ∧ snd result = inl value).
Proof.
  intros Hop. cbn zeta. unfold executeWithRetry.
  destruct (Z.ltb_spec (maxRetries config) 0) as [Hneg|Hpos].
  - replace (Z.to_nat (maxRetries config + 1)) with 0%nat by lia.
    exists 0%nat. cbn. rewrite app_nil_r, Nat.add_0_r.
    split_and!; try done; try lia.
  - destruct (executeWithRetry_loop_waits operation config operationName
                (Z.to_nat (maxRetries config + 1)) 0 (retryDelay config) None
                net Hop) as (k & Hk & _ & Hw & Hn & Hnone & Hfirst); [lia|].
    exists k. split_and!; try done.
    + lia.
    + intros i d. apply backoff_nth.
    + rewrite Hn.
      by replace (Z.to_nat (maxRetries config + 1))
        with (S (Z.to_nat (maxRetries config))) by lia.
    + intros value Hv _. apply Hfirst; [done|lia].
Qed.

Lemma makeAgentApiCall_resolves (agentAddress : string)
    (jobData : JobExecutionData) (net : Wire) :
  ∃ response,
    makeAgentApiCall agentAddress jobData net
    = ({| settles := settles net; sent := S (sent net);
          waited := waited net |}, inl response)
    ∧ resp_success response
      = match settles net (sent net) with
        | Replied _ => true
        | Refused _ => false
        end.
Proof.
  unfold makeAgentApiCall, axios_post.
  destruct (settles net (sent net)) as [text|[e|message|shown]];
    eexists; split; reflexivity.
Qed.

(** X28.  [callAgentAPI] sends exactly one request and never retries.
    [makeAgentApiCall] turns every failure of the request into a resolved
    response with [success: false], so the retry loop around it always
    returns after its first run: whatever the retry configuration, with a
    non-negative [maxRetries] the call resolves, one request was sent,
    nothing was waited for, and [success] tells whether the request was
    answered.  With a negative [maxRetries] the call rejects before any
    request is sent. *)
Theorem callAgentAPI_calls_once (defaultConfig : DefaultConfig)
    (agentAddress : string) (jobData : JobExecutionData)
    (retryConfig : option PartialRetryConfig) (net : Wire) :
  let retries :=
    default (default_maxRetries defaultConfig)
            (retryConfig ≫= opt_maxRetries) in
  if (0 <=? retries)%Z
  then
    ∃ response,
      callAgentAPI defaultConfig agentAddress jobData retryConfig net
      = ({| settles := settles net; sent := S (sent net);
            waited := waited net |}, inl response)
      ∧ resp_success response
        = match settles net (sent net) with
          | Replied _ => true
          | Refused _ => false
          end
  else
    ∃ error,
      callAgentAPI defaultConfig agentAddress jobData retryConfig net
      = (net, inr error).
Proof.
  cbn zeta. unfold callAgentAPI, executeWithRetry. cbn [maxRetries].
  set (retries := default (default_maxRetries defaultConfig)
                          (retryConfig ≫= opt_maxRetries)).
  destruct (Z.leb_spec 0 retries) as [Hpos|Hneg].
  - replace (Z.to_nat (retries + 1)) with (S (Z.to_nat retries)) by lia.
    cbn [executeWithRetry_loop].
    destruct (makeAgentApiCall_resolves agentAddress jobData net)
      as (response & -> & Hsuccess).
    by exists response.
  - replace (Z.to_nat (retries + 1)) with 0%nat by lia.
    cbn [executeWithRetry_loop]. eauto.
Qed.

(** ** A submitted result completes the distribution *)


(** ** The running average *)

(** X30.  The average execution time is a running mean.  When a timed
    success is recorded for an agent with a performance row whose
    [completedJobs] is not negative, the new [avgExecutionTime] lies
    between the old average and the time just reported. *)
Theorem avgExecutionTime_between (p : AgentPerformance) (ms now : Z) :
  (0 <= completedJobs p)%Z →
  ms ≠ 0%Z →
  let p' := updatedPerformance p true (Some ms) now in
  (Qmin (avgExecutionTime p) (inject_Z ms) <= avgExecutionTime p')%Q
  ∧ (avgExecutionTime p' <= Qmax (avgExecutionTime p) (inject_Z ms))%Q.
Proof.
  intros Hc Hms. cbn zeta. unfold updatedPerformance.
  cbn [avgExecutionTime]. rewrite truthyZ_nonzero by done.
  set (old := avgExecutionTime p). set (c := inject_Z (completedJobs p)).
  set (t := inject_Z ms).
  assert (Hc0 : (0 <= c)%Q) by (subst c; by rewrite <- (Zle_Qle 0)).
  assert (Hc1 : (inject_Z (completedJobs p + 1) == c + 1)%Q)
    by (subst c; by rewrite inject_Z_plus).
  rewrite Hc1.
  assert (Hpos : (0 < c + 1)%Q) by lra.
  pose proof (Q.le_min_l old t) as Hmin_l.
  pose proof (Q.le_min_r old t) as Hmin_r.
  pose proof (Q.le_max_l old t) as Hmax_l.
  pose proof (Q.le_max_r old t) as Hmax_r.
  split.
  - apply Qle_shift_div_l; [exact Hpos|].
    assert (Qmin old t * c <= old * c)%Q by (by apply Qmult_le_compat_r).
    lra.
  - apply Qle_shift_div_r; [exact Hpos|].
    assert (old * c <= Qmax old t * c)%Q by (by apply Qmult_le_compat_r).
    lra.
Qed.

(** ** Instances *)


Lemma none_completed_checked (rows : list JobDistributionAgent) :
  forallb (fun r => negb (AgentWorkStatus_eqb (workStatus r) COMPLETED)) rows
  = true →
  Forall (fun r => workStatus r ≠ COMPLETED) rows.
Proof.
  intros H. apply Forall_forall. intros r Hr.
  rewrite forallb_forall in H. apply list_elem_of_In in Hr.
  specialize (H r Hr). intros Heq. by rewrite Heq in H.
Qed.

Lemma schema_holds_empty (s : DB) :
  db_jobDistributionAgent s = [] →
  db_jobDistributionRecord s = ∅ →
  schema_holds s.
Proof.
  intros Hrows Hrecs.
  unfold schema_holds, keys_unique, references_resolve, agents_resolve,
    records_resolve, one_record_per_job.
  rewrite Hrows, Hrecs. split_and!.
  - constructor.
  - constructor.
  - constructor.
  - intros k record H. by rewrite lookup_empty in H.
  - intros k1 k2 r1 r2 H. by rewrite lookup_empty in H.
Qed.

Lemma performance_holds_empty (s : DB) :
  db_agentPerformance s = ∅ → performance_holds s.
Proof.
  intros Hperf a p H. by rewrite Hperf, lookup_empty in H.
Qed.

Lemma post_or_throw_one_request : one_request post_or_throw.
Proof.
  intros net. unfold post_or_throw, axios_post.
  by destruct (settles net (sent net)).
Qed.


Lemma selectBestAgentAndComplete_without_completion_demo :
  ∃ result,
    selectBestAgentAndComplete "dist-1" first_completed demo_opened
    = (demo_opened, result).
Proof.
  eexists.
  apply (selectBestAgentAndComplete_without_completion demo_opened "dist-1"
           first_completed).
  - apply agents_resolve_checked. vm_compute. reflexivity.
  - apply none_completed_checked. vm_compute. reflexivity.
Defined.

Lemma handleDistributionTimeout_closes_demo :
  keys_unique (store demo_opened)
  ∧ ∃ w',
      handleDistributionTimeout "dist-1" demo_opened = (w', Ok tt)
      ∧ workStatus <$> db_jobDistributionAgent (store w') !! 0%nat
        = Some TIMEOUT
      ∧ job_status <$> db_job (store w') !! "job-1" = Some EXPIRED.
Proof.
  assert (Huniq : keys_unique (store demo_opened))
    by (apply keys_unique_checked; vm_compute; reflexivity).
  split; [exact Huniq|].
  pose proof (handleDistributionTimeout_closes demo_opened "dist-1" Huniq)
    as Hthm.
  assert (Hres : snd (handleDistributionTimeout "dist-1" demo_opened) = Ok tt)
    by (vm_compute; reflexivity).
  destruct (handleDistributionTimeout "dist-1" demo_opened) as [w' res].
  cbn [snd] in Hres. subst res.
  destruct Hthm as (record & Hrec & _ & Hrows & Hjob & _).
  assert (Hid : rec_jobId record = "job-1").
  { assert (Hlook : rec_jobId
                      <$> db_jobDistributionRecord (store demo_opened) !! "dist-1"
                    = Some "job-1") by (vm_compute; reflexivity).
    rewrite Hrec in Hlook. by injection Hlook. }
  destruct (Hrows 0%nat (new_assignment "dist-1" "alice" 1010))
    as (r' & Hrow & Hopen); [vm_compute; reflexivity|].
  exists w'. split; [reflexivity|]. split.
  - rewrite Hrow. cbn. f_equal.
    change (is_open_in "dist-1" (new_assignment "dist-1" "alice" 1010))
      with true in Hopen. by destruct Hopen as [-> _].
  - rewrite <- Hid, Hjob. reflexivity.
Defined.

Lemma createDistributionRecord_once_demo :
  ∃ w2,
    createDistributionRecord "job-1" [bob] demo_opened
    = (w2, Err UniqueConstraintFailed)
    ∧ store w2 = store demo_opened.
Proof.
  apply (createDistributionRecord_once demo_world demo_opened "job-1"
           [alice; bob] [bob] demo_record).
  vm_compute. reflexivity.
Defined.

Lemma services_keep_schema_demo :
  schema_holds
    (store (fold_left perform
              [CreateDistributionRecord "job-1" [alice; bob];
               TrackAgentExecution "dist-1" "alice";
               HandleExecutionCompleted "dist-1" "alice" "summary text" None;
               SelectBestAgentAndComplete "dist-1" first_completed]
              demo_world)).
Proof.
  apply (services_keep_schema
           [CreateDistributionRecord "job-1" [alice; bob];
            TrackAgentExecution "dist-1" "alice";
            HandleExecutionCompleted "dist-1" "alice" "summary text" None;
            SelectBestAgentAndComplete "dist-1" first_completed]
           demo_world).
  apply schema_holds_empty; reflexivity.
Defined.

Lemma getDistributionDetail_after_create_demo :
  ∃ detail,
    getDistributionDetail (rec_id demo_record) demo_opened
    = (demo_opened, Ok (Some detail)).
Proof.
  destruct (getDistributionDetail_after_create demo_world demo_opened "job-1"
              [alice; bob] demo_record) as (detail & Hrun & _).
  - constructor.
  - vm_compute. reflexivity.
  - exists detail. exact Hrun.
Defined.

Lemma services_keep_performance_demo :
  performance_holds
    (store (fold_left perform
              [CreateDistributionRecord "job-1" [alice; bob];
               HandleExecutionFailed "dist-1" "bob" "no capacity" None;
               HandleExecutionCompleted "dist-1" "alice" "summary text"
                 (Some 4000%Z)]
              demo_world)).
Proof.
  destruct (services_keep_performance
              [CreateDistributionRecord "job-1" [alice; bob];
               HandleExecutionFailed "dist-1" "bob" "no capacity" None;
               HandleExecutionCompleted "dist-1" "alice" "summary text"
                 (Some 4000%Z)]
              demo_world) as [Hperf _].
  - apply performance_holds_empty. reflexivity.
  - exact Hperf.
Defined.

Lemma tracker_rejects_unknown_assignment_demo :
  outcome (handleTimeout "dist-1" "carol" demo_opened)
  = (store demo_opened, Err RecordToUpdateNotFound).
Proof.
  destruct (tracker_rejects_unknown_assignment demo_opened "dist-1" "carol")
    as (_ & _ & _ & _ & Htimeout).
  - vm_compute. reflexivity.
  - exact Htimeout.
Defined.



Lemma skillLevelBonus_implies_match_demo :
  isSkillLevelMatch alice (skillLevel demo_job) = true.
Proof.
  apply (skillLevelBonus_implies_match alice demo_job).
  vm_compute. reflexivity.
Defined.

Lemma calculateResultScore_bounds_demo :
  (0 <= calculateResultScore
          (completed_execution "alice" (Some 10000%Z) (text 500)) <= 170)%Q.
Proof.
  destruct (calculateResultScore_bounds
              (completed_execution "alice" (Some 10000%Z) (text 500)))
    as [Hrange _].
  - intros ms [= <-]. lia.
  - exact Hrange.
Defined.

Lemma faster_longer_scores_no_lower_demo :
  (calculateResultScore (completed_execution "B" (Some 600000%Z) (text 50))
   <= calculateResultScore
        (completed_execution "A" (Some 10000%Z) (text 500)))%Q.
Proof.
  apply (faster_longer_scores_no_lower
           (completed_execution "A" (Some 10000%Z) (text 500))
           (completed_execution "B" (Some 600000%Z) (text 50))
           10000 600000).
  - reflexivity.
  - reflexivity.
  - reflexivity.
  - lia.
  - lia.
  - vm_compute. lia.
Defined.


Lemma processTask_after_create_demo :
  processTask demo_task demo_opened = (demo_opened, Ok tt).
Proof.
  apply (processTask_after_create demo_world demo_opened demo_task
           [alice; bob] demo_record).
  vm_compute. reflexivity.
Defined.

Lemma executeWithRetry_backs_off_demo :
  ∃ k,
    (k <= Z.to_nat (maxRetries demo_retry))%nat
    ∧ waited (fst (executeWithRetry post_or_throw demo_retry "demo" demo_wire))
      = waited demo_wire
        ++ backoff (retryDelay demo_retry) (backoffMultiplier demo_retry) k.
Proof.
  destruct (executeWithRetry_backs_off post_or_throw demo_retry "demo"
              demo_wire post_or_throw_one_request) as (k & Hk & Hw & _).
  exists k. split; [exact Hk|exact Hw].
Defined.


Lemma avgExecutionTime_between_demo :
  (Qmin (avgExecutionTime demo_performance) (inject_Z 4000)
   <= avgExecutionTime (updatedPerformance demo_performance true
                          (Some 4000%Z) 0))%Q.
Proof.
  destruct (avgExecutionTime_between demo_performance 4000 0) as [Hlow _].
  - vm_compute. discriminate.
  - lia.
  - exact Hlow.
Defined.
